(** * TokenFlow: the tokenizer, its scorer and the lexicon

    A shallow embedding of [src/tokenizer/tokenizer.ts],
    [src/tokenizer/lexicon.ts] and the aggregation of results of
    [src/relevance_suite/relevance_suite.ts], and the properties of the
    index, the scorer, the lattice construction, the downstream-term sets and
    the result counts proved on it.

    Conventions of the embedding.
    - A fingerprint ([Hash]) is an unsigned integer, [N].
    - Objects used as dictionaries ([postings], [hashToFrequency],
      [hashToText]) are [gmap]s keyed by fingerprint; a JS [Set] of
      fingerprints is a [gset].
    - The integer quantities of a diff ([cost], [leftmostA], [rightmostA],
      [alignments]) are in [Z]; array lengths and alias ids are in [nat].
    - A score is a JS number that results from dividing and multiplying
      integers.  The scorer is embedded twice.  [Binary64.score] computes as
      the code does, in binary64 floating point, and is the one the scoring
      formula and the rejection rule are stated of.  [score] computes in
      [Num]: an exact rational, or one of the three special values a division
      by zero produces ([+Infinity], [-Infinity], [NaN]), without rounding
      and without the sign of zero; the lattice is built with it, and it
      carries the properties that hold whether or not the arithmetic rounds.
    - The class [DynamicGraph] is not among the sources.  The lattice is the
      object its constructor is given the edge lists for; the edges it offers
      ([offered]) are modelled from the specification.
    - The methods of [Tokenizer] run in the state and exception monad [M]
      over the record [Tokenizer]; what the logger prints is part of that
      state. *)

From Stdlib Require Import ZArith QArith Qcanon String List Permutation
  Sorting.Sorted.
From stdpp Require Import base option list gmap strings fin_maps fin_sets
  sorting.
From Stdlib Require PrimFloat.
Import PrimFloat.PrimFloatNotations.

Set Default Proof Using "Type".
Local Open Scope Z_scope.

(** ** JS numbers *)

Module Num.

Inductive Num : Type :=
| Fin (q : Qc)
| PInf
| NInf
| NaN.

Definition ofZ (z : Z) : Num := Fin (Q2Qc (inject_Z z)).
Definition ofNat (n : nat) : Num := ofZ (Z.of_nat n).

(** The literal [0.01]. *)
Definition cent : Qc := Q2Qc (1 # 100).

Definition Qc_eqb (a b : Qc) : bool := Qeq_bool a b.
Definition Qc_leb (a b : Qc) : bool := Qle_bool a b.
Definition Qc_ltb (a b : Qc) : bool := negb (Qle_bool b a).

(** The sign of an infinite product or quotient: [PInf] when [positive]. *)
Definition inf (positive : bool) : Num := if positive then PInf else NInf.

(** [a * b]. *)
Definition mul (a b : Num) : Num :=
  match a, b with
  | NaN, _ | _, NaN => NaN
  | Fin x, Fin y => Fin (x * y)%Qc
  | Fin x, PInf | PInf, Fin x =>
      if Qc_eqb x 0 then NaN else inf (Qc_ltb 0 x)
  | Fin x, NInf | NInf, Fin x =>
      if Qc_eqb x 0 then NaN else inf (Qc_ltb x 0)
  | PInf, PInf | NInf, NInf => PInf
  | PInf, NInf | NInf, PInf => NInf
  end.

(** [a / b]; every zero is taken to be [+0]. *)
Definition div (a b : Num) : Num :=
  match a, b with
  | NaN, _ | _, NaN => NaN
  | Fin x, Fin y =>
      if Qc_eqb y 0
      then (if Qc_eqb x 0 then NaN else inf (Qc_ltb 0 x))
      else Fin (x / y)%Qc
  | Fin _, (PInf | NInf) => Fin 0
  | PInf, Fin y => inf (Qc_leb 0 y)
  | NInf, Fin y => inf (Qc_ltb y 0)
  | (PInf | NInf), (PInf | NInf) => NaN
  end.

(** [a - b]. *)
Definition sub (a b : Num) : Num :=
  match a, b with
  | NaN, _ | _, NaN => NaN
  | Fin x, Fin y => Fin (x - y)%Qc
  | PInf, PInf | NInf, NInf => NaN
  | PInf, _ | _, NInf => PInf
  | NInf, _ | _, PInf => NInf
  end.

(** [a <= b]; false as soon as one side is [NaN]. *)
Definition leb (a b : Num) : bool :=
  match a, b with
  | NaN, _ | _, NaN => false
  | Fin x, Fin y => Qc_leb x y
  | NInf, _ | _, PInf => true
  | PInf, _ | _, NInf => false
  end.

(** [a > b]. *)
Definition gtb (a b : Num) : bool :=
  match a, b with
  | NaN, _ | _, NaN => false
  | Fin x, Fin y => Qc_ltb y x
  | PInf, PInf | NInf, NInf => false
  | PInf, _ | _, NInf => true
  | NInf, _ | _, PInf => false
  end.

End Num.

Export Num(Num, Fin, PInf, NInf, NaN).

(** ** Data model *)

(** [Hash] of [term-model.ts]: the fingerprint of a stemmed term. *)
Abbreviation Hash := N (only parsing).

(** [Id]: the position of an alias in [Tokenizer.aliases]. *)
Abbreviation Id := nat (only parsing).

(** [DownstreamTermPredicate<number>]. *)
Abbreviation DownstreamTermPredicate := (Hash -> bool) (only parsing).

(** [Token] of [tokens.ts]: a number token, the unknown token, or a token
    supplied with an alias, which the tokenizer never inspects. *)
Inductive Token : Type :=
| NumberToken (value : Z)
| UnknownToken
| CatalogToken (type : string) (payload : string).

(** [DiffResults<number>] of [matchers]. *)
Record DiffResults : Type := mkDiffResults {
  diff_match : list Hash;
  cost : Z;
  leftmostA : Z;
  rightmostA : Z;
  alignments : Z;
  commonTerms : gset Hash;
}.

(** [Matcher]: [(query, prefix, isDownstreamTerm, isTokenHash) => DiffResults].
    A matcher is a function of its arguments: it does not write to the arrays
    it is given. *)
Abbreviation Matcher :=
  (list Hash -> list Hash -> (Hash -> bool) -> (Hash -> bool) -> DiffResults)
  (only parsing).

(** [TermModel]. *)
Record TermModel : Type := mkTermModel {
  stem : string -> string;
  hashTerm : string -> Hash;
  isTokenHash : Hash -> bool;
  isNumberHash : Hash -> bool;
}.

Definition stemAndHash (tm : TermModel) (term : string) : Hash :=
  hashTerm tm (stem tm term).

(** [NumberMatch]: [length] counts the fingerprints consumed. *)
Record NumberMatch : Type := mkNumberMatch {
  nm_value : Z;
  nm_length : nat;
}.

(** [NumberParser].  [parse input output] reads fingerprints from [input] and
    appends its matches to [output]; here it is the function from the
    fingerprints offered to the matches appended. *)
Record NumberParser : Type := mkNumberParser {
  parse : list Hash -> list NumberMatch;
  ownHashedTerms : gset Hash;
}.

(** [TokenizerAlias]. *)
Record TokenizerAlias : Type := mkTokenizerAlias {
  token : Token;
  text : string;
  terms : list string;
  stemmed : list string;
  hashes : list Hash;
  matcher : Matcher;
  isDownstreamTerm : DownstreamTermPredicate;
}.

(** [Edge] of [graph]: [{ score, length, label, isNumber }]. *)
Record Edge : Type := mkEdge {
  e_score : Num;
  e_length : Z;
  e_label : Z;
  e_isNumber : bool;
}.

(** [Graph].  [DynamicGraph] is declared in [graph], which the tokenizer only
    calls: [new DynamicGraph(edgeLists)] is the constructor applied to the edge
    lists it is given.  The value stands for the object constructed from
    these lists; the edges that the object offers at a position are those of
    [offered], below. *)
Inductive Graph : Type :=
| DynamicGraph (edgeLists : list (list Edge)).

Definition edgeLists (g : Graph) : list (list Edge) :=
  match g with DynamicGraph ls => ls end.

(** What [decodeTerm] returns: the recorded text of a fingerprint (which is
    [undefined] when [stemmed] was shorter than [hashes] at [addItem]), or the
    marker [###HASH<hash>###]. *)
Inductive Decoded : Type :=
| DecodedText (s : option string)
| DecodedHash (h : Hash).

(** One call of [logger.log], with the values interpolated in its message. *)
Inductive LogLine : Type :=
| LogScoring (stemmedText : list string)
| LogFactors (score mf cf pf lf df : Num)
| LogFactors64 (score mf cf pf lf df : PrimFloat.float)
| LogStats (len : nat) (cost left right : Z) (common : nat)
| LogDecoded (name : string) (text : list Decoded)
| LogHashes (name : string) (hs : list Hash)
| LogUnknown (term : option string).

(** The fields of class [Tokenizer]; [logged] is what [logger] has printed. *)
Record Tokenizer : Type := mkTokenizer {
  debugMode : bool;
  logged : list LogLine;
  termModel : TermModel;
  numberParser : option NumberParser;
  aliases : list TokenizerAlias;
  hashToText : gmap Hash (option string);
  hashToFrequency : gmap Hash nat;
  postings : gmap Hash (list Id);
}.

(** ** The monad of the tokenizer's methods

    A method reads and writes the fields of [this] and either returns a value
    or throws; the state written before a throw stays written. *)

Definition M (A : Type) : Type := Tokenizer -> option A * Tokenizer.

Definition ret {A} (a : A) : M A := fun t => (Some a, t).

Definition bind {A B} (m : M A) (k : A -> M B) : M B :=
  fun t =>
    match m t with
    | (Some a, t') => k a t'
    | (None, t') => (None, t')
    end.

Definition throw {A} : M A := fun t => (None, t).

Definition gets {A} (f : Tokenizer -> A) : M A := fun t => (Some (f t), t).

Definition modify (f : Tokenizer -> Tokenizer) : M unit :=
  fun t => (Some tt, f t).

Definition evalM {A} (m : M A) (t : Tokenizer) : option A := fst (m t).
Definition execM {A} (m : M A) (t : Tokenizer) : Tokenizer := snd (m t).

Declare Scope tok_scope.
Delimit Scope tok_scope with tok.
Notation "x <- m ;; k" := (bind m (fun x => k))
  (at level 100, m at next level, right associativity) : tok_scope.
Notation "m ;;; k" := (bind m (fun _ => k))
  (at level 100, right associativity) : tok_scope.
Local Open Scope tok_scope.

Definition when (b : bool) (m : M unit) : M unit :=
  if b then m else ret tt.

(** [for (const x of l) { acc = body(acc, x) }]. *)
Fixpoint foldM {A B} (body : B -> A -> M B) (l : list A) (acc : B) : M B :=
  match l with
  | [] => ret acc
  | x :: l' => acc' <- body acc x ;; foldM body l' acc'
  end.

(** [l.map(f)]. *)
Fixpoint mapM {A B} (f : A -> M B) (l : list A) : M (list B) :=
  match l with
  | [] => ret []
  | x :: l' => y <- f x ;; ys <- mapM f l' ;; ret (y :: ys)
  end.

(** [for (const x of l) { body(x) }]. *)
Definition forM {A} (l : list A) (body : A -> M unit) : M unit :=
  foldM (fun _ x => body x) l tt.

(** [l.entries()]. *)
Definition entries {A} (l : list A) : list (nat * A) := imap pair l.

(** [this.logger.log(line)]. *)
Definition log (line : LogLine) : M unit :=
  modify (fun t =>
    {| debugMode := debugMode t; logged := logged t ++ [line];
       termModel := termModel t; numberParser := numberParser t;
       aliases := aliases t; hashToText := hashToText t;
       hashToFrequency := hashToFrequency t; postings := postings t |}).

(** ** [Array.prototype.sort]

    The sort is stable; [compareFn a b > 0] puts [a] after [b], and any other
    result, [NaN] included, leaves the two in the order they came. *)

Section ArraySort.
Context {A : Type} (compareFn : A -> A -> Num).

Fixpoint sort_insert (x : A) (l : list A) : list A :=
  match l with
  | [] => [x]
  | y :: l' =>
      if Num.gtb (compareFn x y) (Num.ofZ 0)
      then y :: sort_insert x l'
      else x :: y :: l'
  end.

Definition Array_sort (l : list A) : list A := foldr sort_insert [] l.
End ArraySort.

(** ** The tokenizer *)

(** Assignments to single fields of [this]. *)
Definition set_aliases (f : list TokenizerAlias -> list TokenizerAlias)
    (t : Tokenizer) : Tokenizer :=
  {| debugMode := debugMode t; logged := logged t;
     termModel := termModel t; numberParser := numberParser t;
     aliases := f (aliases t); hashToText := hashToText t;
     hashToFrequency := hashToFrequency t; postings := postings t |}.

Definition set_hashToText
    (f : gmap Hash (option string) -> gmap Hash (option string))
    (t : Tokenizer) : Tokenizer :=
  {| debugMode := debugMode t; logged := logged t;
     termModel := termModel t; numberParser := numberParser t;
     aliases := aliases t; hashToText := f (hashToText t);
     hashToFrequency := hashToFrequency t; postings := postings t |}.

Definition set_hashToFrequency (f : gmap Hash nat -> gmap Hash nat)
    (t : Tokenizer) : Tokenizer :=
  {| debugMode := debugMode t; logged := logged t;
     termModel := termModel t; numberParser := numberParser t;
     aliases := aliases t; hashToText := hashToText t;
     hashToFrequency := f (hashToFrequency t); postings := postings t |}.

Definition set_postings (f : gmap Hash (list Id) -> gmap Hash (list Id))
    (t : Tokenizer) : Tokenizer :=
  {| debugMode := debugMode t; logged := logged t;
     termModel := termModel t; numberParser := numberParser t;
     aliases := aliases t; hashToText := hashToText t;
     hashToFrequency := hashToFrequency t; postings := f (postings t) |}.

(** [constructor(termModel, numberParser, debugMode)].  The number parser is
    optional because [generateGraph] tests [if (this.numberParser)]. *)
Definition new_Tokenizer (tm : TermModel) (np : option NumberParser)
    (debug : bool) : Tokenizer :=
  {| debugMode := debug; logged := [];
     termModel := tm; numberParser := np;
     aliases := []; hashToText := ∅;
     hashToFrequency := ∅; postings := ∅ |}.

Definition isNeverDownstreamTerm (hash : Hash) : bool := false.

Definition decodeTerm (hash : Hash) : M Decoded :=
  h2t <- gets hashToText ;;
  match h2t !! hash with
  | Some s => ret (DecodedText s)
  | None => ret (DecodedHash hash)
  end.

(** [tokenFromEdge]; reading [.token] of a missing alias throws. *)
Definition tokenFromEdge (edge : Edge) : M Token :=
  if e_isNumber edge then ret (NumberToken (e_label edge))
  else if e_label edge =? -1 then ret UnknownToken
  else
    als <- gets aliases ;;
    match (if e_label edge <? 0 then None else als !! Z.to_nat (e_label edge)) with
    | Some alias => ret (token alias)
    | None => throw
    end.

(** *** Indexing a phrase *)

(** The body of the loop of [addItem], for one entry [index, hash] of
    [alias.hashes]; [id] is the id given to the alias. *)
Definition addItem_at (alias : TokenizerAlias) (id : Id) (index : nat)
    (hash : Hash) : M unit :=
  h2t <- gets hashToText ;;
  when (negb (bool_decide (is_Some (h2t !! hash))))
    (modify (set_hashToText <[hash := stemmed alias !! index]>)) ;;;
  h2f <- gets hashToFrequency ;;
  match h2f !! hash with
  | Some n => modify (set_hashToFrequency <[hash := S n]>)
  | None => modify (set_hashToFrequency <[hash := 1%nat]>)
  end ;;;
  p <- gets postings ;;
  match p !! hash with
  | Some ids => modify (set_postings <[hash := ids ++ [id]]>)
  | None => modify (set_postings <[hash := [id]]>)
  end.

Definition addItem (alias : TokenizerAlias) : M unit :=
  id <- gets (fun t => List.length (aliases t)) ;;
  modify (set_aliases (fun als => als ++ [alias])) ;;;
  forM (entries (hashes alias))
       (fun '(index, hash) => addItem_at alias id index hash).

(** *** Matching and scoring *)

(** What [score] returns: [{ score, length }]. *)
Record Scored : Type := mkScored {
  s_score : Num;
  s_length : Z;
}.

(** The local constants of [score], as functions of the diff. *)
Definition matchFactor (diff : DiffResults) : Num :=
  let l := rightmostA diff + 1 in
  if l >? cost diff
  then Num.div (Num.ofZ (l - cost diff)) (Num.ofZ l)
  else Num.div (Num.ofZ 1) (Num.ofZ (l + cost diff)).

Definition commonFactor (diff : DiffResults) : Num :=
  Num.div (Num.ofNat (size (commonTerms diff)))
          (Num.ofNat (List.length (diff_match diff))).

Definition positionFactor (diff : DiffResults) : Num :=
  Num.div
    (Num.ofZ (Z.max (Z.of_nat (List.length (diff_match diff)) - leftmostA diff) 0))
    (Num.ofNat (List.length (diff_match diff))).

Definition lengthFactor (diff : DiffResults) : Num :=
  Num.ofNat (List.length (diff_match diff)).

(** [let score = matchFactor * commonFactor * positionFactor * lengthFactor]. *)
Definition baseScore (diff : DiffResults) : Num :=
  Num.mul
    (Num.mul (Num.mul (matchFactor diff) (commonFactor diff))
             (positionFactor diff))
    (lengthFactor diff).

(** [new Set([...commonTerms].filter(isDownstreamTerm))]. *)
Definition commonDownstreamWords (isDownstreamTerm : DownstreamTermPredicate)
    (diff : DiffResults) : gset Hash :=
  list_to_set (List.filter isDownstreamTerm (elements (commonTerms diff))).

Definition downstreamWordFactor (isDownstreamTerm : DownstreamTermPredicate)
    (diff : DiffResults) : Num :=
  Num.div
    (Num.ofZ (Z.of_nat (size (commonTerms diff))
              - Z.of_nat (size (commonDownstreamWords isDownstreamTerm diff))))
    (Num.ofNat (size (commonTerms diff))).

(** The first rejection test of [score]. *)
Definition allDownstream (prefix : list Hash)
    (isDownstreamTerm : DownstreamTermPredicate) (diff : DiffResults) : bool :=
  (0 <? size (commonTerms diff))%nat
  && (size (commonTerms diff)
      =? size (commonDownstreamWords isDownstreamTerm diff))%nat
  && negb (size (commonTerms diff) =? List.length prefix)%nat.

Definition score (query prefix : list Hash)
    (isDownstreamTerm : DownstreamTermPredicate) (diff : DiffResults)
    : M Scored :=
  let score0 := baseScore diff in
  let score1 :=
    if allDownstream prefix isDownstreamTerm diff then Num.ofZ (-1) else score0 in
  let score2 :=
    if Num.leb score1 (Fin Num.cent) then Num.ofZ (-1) else score1 in
  debug <- gets debugMode ;;
  when debug (
    queryText <- mapM decodeTerm query ;;
    prefixText <- mapM decodeTerm prefix ;;
    matchText <- mapM decodeTerm (diff_match diff) ;;
    log (LogFactors score2 (matchFactor diff) (commonFactor diff)
           (positionFactor diff) (lengthFactor diff)
           (downstreamWordFactor isDownstreamTerm diff)) ;;;
    log (LogStats (List.length (diff_match diff)) (cost diff) (leftmostA diff)
           (rightmostA diff) (size (commonTerms diff))) ;;;
    log (LogDecoded "query" queryText) ;;;
    log (LogDecoded "prefix" prefixText) ;;;
    log (LogDecoded "match" matchText) ;;;
    log (LogHashes "query" query) ;;;
    log (LogHashes "prefix" prefix) ;;;
    log (LogHashes "match" (diff_match diff))) ;;;
  ret {| s_score := score2; s_length := rightmostA diff + 1 |}.

Definition matchAndScore (query : list Hash) (alias : TokenizerAlias)
    : M Scored :=
  let prefix := hashes alias in
  tm <- gets termModel ;;
  let match_ :=
    matcher alias query prefix (isDownstreamTerm alias) (isTokenHash tm) in
  score query prefix (isDownstreamTerm alias) match_.

(** *** The scorer in binary64

    [score] once more, with the arithmetic of the code: every JS number is a
    binary64 float and every operation rounds.  The integers of the diff and
    the lengths are converted exactly as long as they are below [2^53] in
    absolute value; a larger integer is in general no JS number. *)

Module Binary64.

Import PrimFloat.

Definition one : float := 1%float.
Definition zero : float := 0%float.
Definition minusOne : float := (-1)%float.

(** The literal [0.01]: the float nearest to it, which is above [1/100]. *)
Definition cent : float := 0x1.47ae147ae147bp-7%float.

Fixpoint ofPositive (p : positive) : float :=
  match p with
  | xH => 1
  | xO p' => 2 * ofPositive p'
  | xI p' => 2 * ofPositive p' + 1
  end%float.

Definition ofZ (z : Z) : float :=
  match z with
  | Z0 => 0
  | Zpos p => ofPositive p
  | Zneg p => - ofPositive p
  end%float.

Definition ofNat (n : nat) : float := ofZ (Z.of_nat n).

(** [Math.max(a, b)]: [NaN] when an argument is [NaN], and [+0] is
    greater than [-0]. *)
Definition Math_max (a b : float) : float :=
  if is_nan a || is_nan b then nan
  else if (a <? b)%float then b
  else if (b <? a)%float then a
  else if is_zero a && get_sign a then b
  else a.

(** What [score] returns: [{ score, length }]. *)
Record Scored : Type := mkScored {
  s_score : float;
  s_length : float;
}.

Definition matchFactor (diff : DiffResults) : float :=
  let l := (ofZ (rightmostA diff) + 1)%float in
  if (ofZ (cost diff) <? l)%float
  then ((l - ofZ (cost diff)) / l)%float
  else (1 / (l + ofZ (cost diff)))%float.

Definition commonFactor (diff : DiffResults) : float :=
  (ofNat (size (commonTerms diff)) / ofNat (List.length (diff_match diff)))%float.

Definition positionFactor (diff : DiffResults) : float :=
  (Math_max (ofNat (List.length (diff_match diff)) - ofZ (leftmostA diff)) 0
   / ofNat (List.length (diff_match diff)))%float.

Definition lengthFactor (diff : DiffResults) : float :=
  ofNat (List.length (diff_match diff)).

(** [let score = matchFactor * commonFactor * positionFactor * lengthFactor]. *)
Definition baseScore (diff : DiffResults) : float :=
  (matchFactor diff * commonFactor diff * positionFactor diff
   * lengthFactor diff)%float.

Definition downstreamWordFactor (isDownstreamTerm : DownstreamTermPredicate)
    (diff : DiffResults) : float :=
  ((ofNat (size (commonTerms diff))
    - ofNat (size (commonDownstreamWords isDownstreamTerm diff)))
   / ofNat (size (commonTerms diff)))%float.

Definition score (query prefix : list Hash)
    (isDownstreamTerm : DownstreamTermPredicate) (diff : DiffResults)
    : M Scored :=
  let score0 := baseScore diff in
  let score1 :=
    if allDownstream prefix isDownstreamTerm diff then (-1)%float else score0 in
  let score2 :=
    if (score1 <=? cent)%float then (-1)%float else score1 in
  debug <- gets debugMode ;;
  when debug (
    queryText <- mapM decodeTerm query ;;
    prefixText <- mapM decodeTerm prefix ;;
    matchText <- mapM decodeTerm (diff_match diff) ;;
    log (LogFactors64 score2 (matchFactor diff) (commonFactor diff)
           (positionFactor diff) (lengthFactor diff)
           (downstreamWordFactor isDownstreamTerm diff)) ;;;
    log (LogStats (List.length (diff_match diff)) (cost diff) (leftmostA diff)
           (rightmostA diff) (size (commonTerms diff))) ;;;
    log (LogDecoded "query" queryText) ;;;
    log (LogDecoded "prefix" prefixText) ;;;
    log (LogDecoded "match" matchText) ;;;
    log (LogHashes "query" query) ;;;
    log (LogHashes "prefix" prefix) ;;;
    log (LogHashes "match" (diff_match diff))) ;;;
  ret {| s_score := score2; s_length := (ofZ (rightmostA diff) + 1)%float |}.

End Binary64.

(** *** Lattice construction *)

(** The comparison the edges of a position are sorted with:
    [(a, b) => b.score - a.score]. *)
Definition byScore (a b : Edge) : Num := Num.sub (e_score b) (e_score a).

(** The edge an alias contributes: [{ ...matchAndScore(tail, alias), label:
    item, isNumber: false }]. *)
Definition aliasEdge (tail : list Hash) (item : Id) : M Edge :=
  als <- gets aliases ;;
  match als !! item with
  | Some alias =>
      r <- matchAndScore tail alias ;;
      ret {| e_score := s_score r; e_length := s_length r;
             e_label := Z.of_nat item; e_isNumber := false |}
  | None => throw
  end.

(** The synthetic diff of a number match: the matched fingerprints against
    themselves. *)
Definition numberDiff (hashed : list Hash) (index : nat) (value : NumberMatch)
    : DiffResults :=
  let match_ := take (nm_length value) (drop index hashed) in
  {| diff_match := match_;
     cost := 0;
     leftmostA := 0;
     rightmostA := Z.of_nat (nm_length value) - 1;
     alignments := Z.of_nat (nm_length value);
     commonTerms := list_to_set match_ |}.

(** The edge a number match contributes. *)
Definition numberEdge (hashed : list Hash) (index : nat) (value : NumberMatch)
    : M Edge :=
  let diff := numberDiff hashed index value in
  r <- score hashed (diff_match diff) isNeverDownstreamTerm diff ;;
  ret {| e_score := s_score r; e_length := s_length r;
         e_label := nm_value value; e_isNumber := true |}.

(** The body of the loop of [generateGraph], for one entry [index, hash] of
    the query: the sorted edges that start at [index]. *)
Definition generateGraph_at (hashed : list Hash) (stemmed : list string)
    (index : nat) (hash : Hash) : M (list Edge) :=
  let tail := drop index hashed in
  p <- gets postings ;;
  edges <-
    match p !! hash with
    | Some items =>
        debug <- gets debugMode ;;
        when debug (log (LogScoring (drop index stemmed))) ;;;
        scored <- mapM (aliasEdge tail) items ;;
        ret ([] ++ scored)
    | None => ret []
    end ;;
  np <- gets numberParser ;;
  edges <-
    match np with
    | Some parser =>
        foldM (fun edges value =>
                 edge <- numberEdge hashed index value ;;
                 ret (edges ++ [edge]))
              (parse parser tail) edges
    | None => ret edges
    end ;;
  (if (List.length edges =? 0)%nat
   then debug <- gets debugMode ;;
        when debug (log (LogUnknown (stemmed !! index)))
   else ret tt) ;;;
  ret (Array_sort byScore edges).

Definition generateGraph (hashed : list Hash) (stemmed : list string)
    : M Graph :=
  edgeLists <-
    foldM (fun edgeLists '(index, hash) =>
             sorted <- generateGraph_at hashed stemmed index hash ;;
             ret (edgeLists ++ [sorted]))
          (entries hashed) [] ;;
  ret (DynamicGraph edgeLists).

(** ** The lexicon *)

(** [Alias]: what a catalog supplies. *)
Record Alias : Type := mkAlias {
  a_token : Token;
  a_text : string;
  a_matcher : Matcher;
}.

(** [text.split(/\s+/)]: the pieces between the maximal runs of white space;
    a string that starts or ends with white space has an empty first or last
    piece, and the empty string has the single, empty, piece.  White space is
    that of the one-byte characters: tab, line feed, vertical tab, form feed,
    carriage return and space. *)
Definition isSpace (c : Ascii.ascii) : bool :=
  let n := Ascii.nat_of_ascii c in
  ((9 <=? n) && (n <=? 13))%nat || (n =? 32)%nat.

(** [split_go inSpace piece s]: [piece] is the piece read so far; [inSpace]
    says that the character before [s] was white space. *)
Fixpoint split_go (inSpace : bool) (piece : string) (s : string) : list string :=
  match s with
  | EmptyString => [piece]
  | String c s' =>
      if isSpace c
      then (if inSpace then split_go true piece s'
            else piece :: split_go true EmptyString s')
      else split_go false (piece ++ String c EmptyString)%string s'
  end.

Definition split (s : string) : list string := split_go false EmptyString s.

Module Domain.

(** An alias as a domain keeps it: a [TokenizerAlias] without its
    [isDownstreamTerm].  That member is the arrow function of the domain,
    which reads [downstreamTerms] when it is called; it is bound
    ([toTokenizerAlias]) when the alias is handed to the tokenizer, after
    [addDownstreamTerms] has run for the domain.  The bound predicate is the
    one the arrow function computes as long as [downstreamTerms] of the domain
    is not written again, which is the case during and after one [ingest]:
    the set is written just before the hand-over of the domain and nowhere
    else.  A second [ingest] of the lexicon, after which the aliases handed
    over by the first compute with the new set, is not followed. *)
Record Entry : Type := mkEntry {
  token : Token;
  text : string;
  terms : list string;
  stemmed : list string;
  hashes : list Hash;
  matcher : Matcher;
}.

(** The fields of class [Domain]. *)
Record Domain : Type := mkDomain {
  termModel : TermModel;
  tokenizerAliases : list Entry;
  ownTerms : gset Hash;
  downstreamTerms : gset Hash;
  forIngestion : bool;
}.

(** [isDownstreamTerm = (hash) => ...] *)
Definition isDownstreamTerm (self : Domain) (hash : Hash) : bool :=
  isTokenHash (termModel self) hash
  || isNumberHash (termModel self) hash
  || bool_decide (hash ∈ downstreamTerms self).

Definition toTokenizerAlias (self : Domain) (e : Entry) : TokenizerAlias :=
  mkTokenizerAlias (token e) (text e) (terms e) (stemmed e) (hashes e)
    (matcher e) (isDownstreamTerm self).

(** The alias the constructor pushes for [alias]: its text split, stemmed
    and hashed. *)
Definition entryOf (tm : TermModel) (alias : Alias) : Entry :=
  let terms := split (a_text alias) in
  let stemmed := map (stem tm) terms in
  let hashes := map (hashTerm tm) stemmed in
  {| token := a_token alias; text := a_text alias;
     terms := terms; stemmed := stemmed; hashes := hashes;
     matcher := a_matcher alias |}.

(** One turn of the loop of the constructor. *)
Definition register (tm : TermModel) (self : Domain) (alias : Alias) : Domain :=
  {| termModel := termModel self;
     tokenizerAliases := tokenizerAliases self ++ [entryOf tm alias];
     ownTerms := foldl (fun own hash => {[hash]} ∪ own) (ownTerms self)
                       (hashes (entryOf tm alias));
     downstreamTerms := downstreamTerms self;
     forIngestion := forIngestion self |}.

(** [constructor(aliases, termModel, forIngestion)]. *)
Definition new (aliases : list Alias) (tm : TermModel) (forIngestion : bool)
    : Domain :=
  foldl (register tm)
    {| termModel := tm; tokenizerAliases := []; ownTerms := ∅;
       downstreamTerms := ∅; forIngestion := forIngestion |}
    aliases.

(** [addDownstreamTerms(numberTerms, domains)] for the domain at position
    [self_index] of [domains]: [domain !== this] compares positions. *)
Definition addDownstreamTerms (self_index : nat) (self : Domain)
    (numberTerms : gset Hash) (domains : list Domain) : Domain :=
  if forIngestion self then
    {| termModel := termModel self;
       tokenizerAliases := tokenizerAliases self;
       ownTerms := ownTerms self;
       downstreamTerms :=
         foldl (fun down '(index, domain) =>
                  if bool_decide (index ≠ self_index)
                  then foldl (fun down hash => {[hash]} ∪ down) down
                             (elements (ownTerms domain))
                  else down)
               numberTerms (entries domains);
       forIngestion := forIngestion self |}
  else self.

(** [ingest(tokenizer)]. *)
Definition ingest (self : Domain) : M unit :=
  if forIngestion self
  then forM (tokenizerAliases self)
            (fun alias => addItem (toTokenizerAlias self alias))
  else ret tt.

End Domain.

Module Lexicon.

(** The fields of class [Lexicon]. *)
Record Lexicon : Type := mkLexicon {
  termModel : TermModel;
  numberParser : NumberParser;
  domains : list Domain.Domain;
}.

(** [constructor()]; the default term model and the English number parser
    it creates are declared elsewhere and given here. *)
Definition new (DefaultTermModel : TermModel)
    (EnglishNumberParser : (string -> Hash) -> NumberParser) : Lexicon :=
  {| domains := [];
     termModel := DefaultTermModel;
     numberParser := EnglishNumberParser (stemAndHash DefaultTermModel) |}.

(** [addDomain(aliases, forIngestion = true)]. *)
Definition addDomain (self : Lexicon) (aliases : list Alias)
    (forIngestion : bool) : Lexicon :=
  {| termModel := termModel self;
     numberParser := numberParser self;
     domains := domains self
                ++ [Domain.new aliases (termModel self) forIngestion] |}.

(** The lexicon after [addDownstreamTerms] has run for the domain at
    [index]. *)
Definition ingest_step (self : Lexicon) (index : nat) : Lexicon :=
  match domains self !! index with
  | Some domain =>
      {| termModel := termModel self;
         numberParser := numberParser self;
         domains :=
           <[index := Domain.addDownstreamTerms index domain
                        (ownHashedTerms (numberParser self)) (domains self)]>
             (domains self) |}
  | None => self
  end.

(** One turn of the loop of [ingest], for the domain at [index]. *)
Definition ingest_at (self : Lexicon) (index : nat) : M Lexicon :=
  let self' := ingest_step self index in
  match domains self' !! index with
  | Some domain => Domain.ingest domain ;;; ret self'
  | None => ret self'
  end.

(** [ingest(tokenizer)]: the tokenizer is the state of [M]; the lexicon,
    whose domains are updated, is returned. *)
Definition ingest (self : Lexicon) : M Lexicon :=
  foldM ingest_at (seq 0 (List.length (domains self))) self.

End Lexicon.

(** ** Vocabulary of the properties *)

(** [returns m]: [m] does not throw. *)
Definition returns {A} (m : M A) : Prop :=
  forall t, is_Some (evalM m t).

(** The score [score] returns, after its two rejection tests. *)
Definition finalScore (prefix : list Hash)
    (isDownstreamTerm : DownstreamTermPredicate) (diff : DiffResults) : Num :=
  let score1 :=
    if allDownstream prefix isDownstreamTerm diff
    then Num.ofZ (-1) else baseScore diff in
  if Num.leb score1 (Fin Num.cent) then Num.ofZ (-1) else score1.

(** The two states agree on every field but what the logger has printed. *)
Definition same_index (t t' : Tokenizer) : Prop :=
  debugMode t = debugMode t'
  /\ termModel t = termModel t'
  /\ numberParser t = numberParser t'
  /\ aliases t = aliases t'
  /\ hashToText t = hashToText t'
  /\ hashToFrequency t = hashToFrequency t'
  /\ postings t = postings t'.

(** [m] leaves every field but the log as it was, and what it returns does
    not depend on the log. *)
Definition readonly {A} (m : M A) : Prop :=
  forall t t',
    same_index t t' ->
    evalM m t = evalM m t' /\ same_index (execM m t) t'.

(** The edge [aliasEdge] returns for an alias that is in the index. *)
Definition aliasEdgeOf (t : Tokenizer) (tail : list Hash) (item : Id)
    (alias : TokenizerAlias) : Edge :=
  let diff :=
    matcher alias tail (hashes alias) (isDownstreamTerm alias)
      (isTokenHash (termModel t)) in
  {| e_score := finalScore (hashes alias) (isDownstreamTerm alias) diff;
     e_length := rightmostA diff + 1;
     e_label := Z.of_nat item;
     e_isNumber := false |}.

(** The edge [numberEdge] returns. *)
Definition numberEdgeOf (hashed : list Hash) (index : nat)
    (value : NumberMatch) : Edge :=
  let diff := numberDiff hashed index value in
  {| e_score := finalScore (diff_match diff) isNeverDownstreamTerm diff;
     e_length := rightmostA diff + 1;
     e_label := nm_value value;
     e_isNumber := true |}.

(** The number edges that start at [index]. *)
Definition numberEdges (t : Tokenizer) (hashed : list Hash) (index : nat)
    : list Edge :=
  match numberParser t with
  | Some parser =>
      map (numberEdgeOf hashed index) (parse parser (drop index hashed))
  | None => []
  end.

(** Every id in a postings list is the id of an alias. *)
Definition wf_postings (t : Tokenizer) : Prop :=
  forall h ids id,
    postings t !! h = Some ids -> id ∈ ids -> is_Some (aliases t !! id).

(** The postings list of a fingerprint; empty when it has none. *)
Definition postingsOf (t : Tokenizer) (h : Hash) : list Id :=
  default [] (postings t !! h).

(** The number of entries of all the postings lists together. *)
Definition count_postings (p : gmap Hash (list Id)) : nat :=
  map_fold (fun _ ids n => (List.length ids + n)%nat) 0%nat p.

(** The number of entries of the postings lists of a tokenizer. *)
Definition totalPostings (t : Tokenizer) : nat := count_postings (postings t).

(** The number of occurrences of [x] in [l]. *)
Definition occurrences {A} `{EqDecision A} (x : A) (l : list A) : nat :=
  List.length (filter (fun y => y = x) l).

(** [addItem] called on each alias of [als], in order. *)
Definition addItems (als : list TokenizerAlias) : M unit := forM als addItem.

(** The invariant of the index: the postings list of [h] holds the id of an
    alias as many times as [h] occurs in its [hashes], holds nothing else, and
    the lists have as many entries together as the aliases have fingerprints. *)
Definition index_inv (t : Tokenizer) : Prop :=
  (forall h id,
     occurrences id (postingsOf t h)
     = match aliases t !! id with
       | Some alias => occurrences h (hashes alias)
       | None => 0%nat
       end)
  /\ totalPostings t
     = sum_list_with (fun alias => List.length (hashes alias)) (aliases t).

(** The edge the specification expects at a position nothing matches. *)
Definition unknownEdge : Edge :=
  {| e_score := Num.ofZ 0; e_length := 1; e_label := -1; e_isNumber := false |}.

(** Modelled from the spec: the edges that the lattice offers at a position,
    which the class [DynamicGraph] decides.  The class is not under [src/];
    only its callers and its test ([test/graph/graph.test.ts]) are.  The
    specification has, in the construction of the lattice, "If no edges
    resulted, emit a single unknown edge {score=0, length=1, label=-1,
    kind=unknown}", and it speaks of a lattice whose positions allow longer
    edges "plus a default length-1 option"; the test expects the path made of
    length-1 edges, of score 0, from edge lists that hold no edge of length 1,
    and [TestCase.run] handles the unknown token, which [tokenFromEdge] gives
    for the label -1 only.  So the graph offers, at a position of the query,
    the edges of the list it was constructed with and the unknown edge.  The
    order in which it offers them is not modelled: [offered] is to be read up
    to permutation. *)
Definition offered (g : Graph) (position : nat) : list Edge :=
  match edgeLists g !! position with
  | Some edges => edges ++ [unknownEdge]
  | None => []
  end.

(** [completes g n i p]: [p] is a path of edges that the graph [g] of a query
    of [n] terms offers, one after the other, from position [i] to the end of
    the query. *)
Inductive completes (g : Graph) (n : nat) : nat -> list Edge -> Prop :=
| completes_end : completes g n n []
| completes_edge (i : nat) (e : Edge) (p : list Edge) :
    e ∈ offered g i ->
    0 < e_length e ->
    completes g n (i + Z.to_nat (e_length e)) p ->
    completes g n i (e :: p).

(** A term model, a number parser and a tokenizer to run the code on.  The
    term model takes a term as its own stem and the length of a stem as its
    fingerprint; the number parser reads [2 100 2] as [two hundred two]. *)
Module Example.

Definition tm : TermModel :=
  {| stem := fun s => s;
     hashTerm := fun s => N.of_nat (String.length s);
     isTokenHash := fun _ => false;
     isNumberHash := fun _ => false |}.

Definition np : NumberParser :=
  {| parse := fun input =>
       match input with
       | 2%N :: 100%N :: 2%N :: _ =>
           [mkNumberMatch 2 1; mkNumberMatch 200 2; mkNumberMatch 202 3]
       | 2%N :: 100%N :: _ => [mkNumberMatch 2 1; mkNumberMatch 200 2]
       | 2%N :: _ => [mkNumberMatch 2 1]
       | _ => []
       end;
     ownHashedTerms := {[2%N; 100%N]} |}.

Definition tokenizer : Tokenizer := new_Tokenizer tm (Some np) false.

End Example.

(** What [ingest] leaves as it is in a domain. *)
Definition same_static (d' d : Domain.Domain) : Prop :=
  Domain.termModel d' = Domain.termModel d
  /\ Domain.tokenizerAliases d' = Domain.tokenizerAliases d
  /\ Domain.ownTerms d' = Domain.ownTerms d
  /\ Domain.forIngestion d' = Domain.forIngestion d.

(** [h] is a number term or an own term of a domain other than the one at
    [i]. *)
Definition downstream_of (numberTerms : gset Hash)
    (domains : list Domain.Domain) (i : nat) (h : Hash) : Prop :=
  h ∈ numberTerms
  \/ exists j dj, j ≠ i /\ domains !! j = Some dj /\ h ∈ Domain.ownTerms dj.

(** The state of the domains after some of them have been through the loop
    of [ingest]. *)
Definition ingested (self0 self : Lexicon.Lexicon) (done : list nat) : Prop :=
  Lexicon.termModel self = Lexicon.termModel self0
  /\ Lexicon.numberParser self = Lexicon.numberParser self0
  /\ Forall2 same_static (Lexicon.domains self) (Lexicon.domains self0)
  /\ forall i d,
       i ∈ done ->
       Lexicon.domains self !! i = Some d ->
       Domain.forIngestion d = true ->
       forall h,
         h ∈ Domain.downstreamTerms d
         <-> downstream_of (ownHashedTerms (Lexicon.numberParser self0))
               (Lexicon.domains self0) i h.

Module ExampleLexicon.

(** The exact-prefix matcher on fingerprints: the common prefix of the query
    and the alias, when it is the whole alias. *)
Fixpoint commonPrefix (query prefix : list Hash) : list Hash :=
  match query, prefix with
  | q :: query', p :: prefix' =>
      if (q =? p)%N then q :: commonPrefix query' prefix' else []
  | _, _ => []
  end.

Definition exactPrefix : Matcher :=
  fun query prefix _ _ =>
    let m := commonPrefix query prefix in
    let m := if (List.length m =? List.length prefix)%nat then m else [] in
    {| diff_match := m;
       cost := 0;
       leftmostA := 0;
       rightmostA := Z.of_nat (List.length m) - 1;
       alignments := Z.of_nat (List.length m);
       commonTerms := list_to_set m |}.

Definition alias (token text : string) : Alias :=
  {| a_token := CatalogToken "ENTITY" token;
     a_text := text;
     a_matcher := exactPrefix |}.

Definition empty : Lexicon.Lexicon :=
  Lexicon.new Example.tm (fun _ => Example.np).

(** Two ingestion domains; the fingerprint 3 (of [xxx]) is an own term of
    both, 4 (of [yyyy]) of the first only. *)
Definition lexicon : Lexicon.Lexicon :=
  Lexicon.addDomain
    (Lexicon.addDomain empty [alias "A" "xxx yyyy"] true)
    [alias "B" "xxx zzzzz"] true.

(** An alias whose text is the empty string. *)
Definition emptyAlias : Alias := alias "A" EmptyString.

(** An alias of the index, of which only the fingerprints matter. *)
Definition indexed (hashes : list Hash) : TokenizerAlias :=
  {| token := CatalogToken "ENTITY" "X";
     text := "x";
     terms := [];
     stemmed := [];
     hashes := hashes;
     matcher := exactPrefix;
     isDownstreamTerm := fun _ => false |}.

(** [a b c], [b c d], [d e f] with the fingerprints 1 to 6. *)
Definition abc : list TokenizerAlias :=
  [indexed [1; 2; 3]%N; indexed [2; 3; 4]%N; indexed [4; 5; 6]%N].

(** The index after [abc] has been added to a new tokenizer. *)
Definition abcIndex : Tokenizer :=
  execM (addItems abc) (new_Tokenizer Example.tm None false).

(** The diff of the query [1 2 3] with the alias [1 2]. *)
Definition diff : DiffResults :=
  exactPrefix [1; 2; 3]%N [1; 2]%N isNeverDownstreamTerm (fun _ => false).

End ExampleLexicon.

(** Two diffs on which rounding shows: a match of five terms with three
    common terms, two edits and [rightmostA = 5], whose score is [2] in exact
    arithmetic; and a match of five terms with one common term, ten edits,
    [leftmostA = 4] and [rightmostA = 9], whose score is [1/100] in exact
    arithmetic. *)
Module ExampleScores.

Definition two : DiffResults :=
  {| diff_match := [1; 2; 3; 4; 5]%N;
     cost := 2;
     leftmostA := 0;
     rightmostA := 5;
     alignments := 3;
     commonTerms := {[1; 2; 3]}%N |}.

Definition cent : DiffResults :=
  {| diff_match := [1; 2; 3; 4; 5]%N;
     cost := 10;
     leftmostA := 4;
     rightmostA := 9;
     alignments := 1;
     commonTerms := {[1]}%N |}.

End ExampleScores.

(** ** Vocabulary of the further properties *)

(** The postings list the aliases [als], numbered from 0, give to [h]: the id
    of each alias, as many times as [h] occurs in its [hashes]. *)
Definition expectedPostings (als : list TokenizerAlias) (h : Hash) : list Id :=
  concat (imap (fun id alias => replicate (occurrences h (hashes alias)) id) als).

(** The three dictionaries of the index have the same keys, a frequency is the
    length of a postings list, and no postings list is empty. *)
Definition index_keys (t : Tokenizer) : Prop :=
  (forall h, hashToFrequency t !! h = List.length <$> postings t !! h)
  /\ (forall h, postings t !! h ≠ Some [])
  /\ (forall h, is_Some (hashToText t !! h) <-> is_Some (postings t !! h)).

(** [this.debugMode = debug]. *)
Definition set_debugMode (debug : bool) (t : Tokenizer) : Tokenizer :=
  {| debugMode := debug; logged := logged t;
     termModel := termModel t; numberParser := numberParser t;
     aliases := aliases t; hashToText := hashToText t;
     hashToFrequency := hashToFrequency t; postings := postings t |}.

(** [m] leaves the state [t] as it is, the log included. *)
Definition quiet {A} (t : Tokenizer) (m : M A) : Prop := execM m t = t.

(** The diff of a prefix matched exactly where the query starts: the match is
    the prefix, there are no edits, and the common terms are the fingerprints
    of the prefix. *)
Definition exactDiff (prefix : list Hash) : DiffResults :=
  {| diff_match := prefix;
     cost := 0;
     leftmostA := 0;
     rightmostA := Z.of_nat (List.length prefix) - 1;
     alignments := Z.of_nat (List.length prefix);
     commonTerms := list_to_set prefix |}.

(** A string without white space. *)
Fixpoint noSpace (s : string) : bool :=
  match s with
  | EmptyString => true
  | String c s' => negb (isSpace c) && noSpace s'
  end.

(** The aliases a domain hands to the tokenizer in [ingest]. *)
Definition handedAliases (d : Domain.Domain) : list TokenizerAlias :=
  if Domain.forIngestion d
  then map (Domain.toTokenizerAlias d) (Domain.tokenizerAliases d)
  else [].

(** The lexicon after [addDomain] has been called for each pair of aliases
    and ingestion flag of [doms], in order. *)
Definition addDomains (self : Lexicon.Lexicon)
    (doms : list (list Alias * bool)) : Lexicon.Lexicon :=
  foldl (fun lex p => Lexicon.addDomain lex p.1 p.2) self doms.

(** The fingerprints of the aliases of the lexicon are those of their stems,
    one for each stem. *)
Definition hashed_by_termModel (self : Lexicon.Lexicon) : Prop :=
  forall d e,
    d ∈ Lexicon.domains self ->
    e ∈ Domain.tokenizerAliases d ->
    Domain.hashes e
    = map (hashTerm (Lexicon.termModel self)) (Domain.stemmed e).

(** Every text recorded for a fingerprint is a stem with that fingerprint. *)
Definition texts_hash_back (tm : TermModel) (t : Tokenizer) : Prop :=
  forall h s,
    hashToText t !! h = Some s ->
    exists x, s = Some x /\ hashTerm tm x = h.

(** ** The relevance suite: aggregation of the results

    [TestCase.run] and [RelevanceSuite.run] walk the lattice with the graph
    walker and are not modelled; what follows is the bookkeeping of the
    results, which does not depend on it. *)

Module TestCase.

Record TestCase : Type := mkTestCase {
  id : Z;
  priority : string;
  suites : list string;
  input : string;
  expected : string;
  expectedTokenText : list string
}.

(** The constructor. *)
Definition new (id : Z) (priority : string) (suites : list string)
    (input expected : string) : TestCase :=
  mkTestCase id priority suites input expected (split expected).

End TestCase.

Record Result : Type := mkResult {
  test : TestCase.TestCase;
  observed : string;
  passed : bool
}.

Module TestCounts.

Record TestCounts : Type := mkTestCounts {
  passCount : nat;
  runCount : nat
}.

End TestCounts.

Module AggregatedResults.

(** [priorities] and [suites] are objects used as dictionaries: a [gmap]
    holds their own properties. *)
Record AggregatedResults : Type := mkAggregatedResults {
  priorities : gmap string TestCounts.TestCounts;
  suites : gmap string TestCounts.TestCounts;
  results : list Result;
  passCount : nat
}.

Definition new : AggregatedResults := mkAggregatedResults ∅ ∅ [] 0.

(** [key in table] also holds of the names that an object inherits from
    [Object.prototype]. *)
Definition inheritedNames : list string :=
  [ "constructor"; "hasOwnProperty"; "isPrototypeOf"; "propertyIsEnumerable";
    "toLocaleString"; "toString"; "valueOf"; "__proto__";
    "__defineGetter__"; "__defineSetter__"; "__lookupGetter__";
    "__lookupSetter__" ]%string.

Definition inherited (key : string) : bool :=
  bool_decide (key ∈ inheritedNames).

(** [counts.runCount++; if (passed) counts.passCount++], on the object that
    the dictionary holds. *)
Definition increment (passed : bool) (counts : TestCounts.TestCounts) :
    TestCounts.TestCounts :=
  TestCounts.mkTestCounts
    (if passed then S (TestCounts.passCount counts)
     else TestCounts.passCount counts)
    (S (TestCounts.runCount counts)).

(** The steps that [recordResult] takes for a suite and for the priority:
    [if (!(key in table)) table[key] = { passCount: 0, runCount: 0 }], then
    the increments on [table[key]].  For an inherited name that is not an own
    property the code adds no entry and increments members of the inherited
    value, an object shared by every dictionary; this is not followed here,
    and the result is [None]. *)
Definition count (passed : bool) (table : gmap string TestCounts.TestCounts)
    (key : string) : option (gmap string TestCounts.TestCounts) :=
  match table !! key with
  | Some counts => Some (<[key := increment passed counts]> table)
  | None =>
      if inherited key then None
      else Some (<[key := increment passed (TestCounts.mkTestCounts 0 0)]>
                   table)
  end.

(** [keys.forEach(key => ...)] with the steps of [count]. *)
Fixpoint countEach (passed : bool) (table : gmap string TestCounts.TestCounts)
    (keys : list string) : option (gmap string TestCounts.TestCounts) :=
  match keys with
  | [] => Some table
  | key :: keys' =>
      match count passed table key with
      | Some table' => countEach passed table' keys'
      | None => None
      end
  end.

Definition recordResult (self : AggregatedResults) (result : Result) :
    option AggregatedResults :=
  match countEach (passed result) (suites self)
          (TestCase.suites (test result)) with
  | Some suites' =>
      match count (passed result) (priorities self)
              (TestCase.priority (test result)) with
      | Some priorities' =>
          Some (mkAggregatedResults priorities' suites'
                  (results self ++ [result])
                  (if passed result then S (passCount self)
                   else passCount self))
      | None => None
      end
  | None => None
  end.

End AggregatedResults.

(** [recordResult] called on each result of [rs], in order. *)
Fixpoint recordResults (self : AggregatedResults.AggregatedResults)
    (rs : list Result) : option AggregatedResults.AggregatedResults :=
  match rs with
  | [] => Some self
  | r :: rs' =>
      match AggregatedResults.recordResult self r with
      | Some self' => recordResults self' rs'
      | None => None
      end
  end.

(** The names that the results use as dictionary keys. *)
Definition keysOf (r : Result) : list string :=
  TestCase.priority (test r) :: TestCase.suites (test r).

Definition plainNames (rs : list Result) : bool :=
  forallb (fun r => forallb (fun key => negb (AggregatedResults.inherited key))
                      (keysOf r)) rs.

(** The entry of a key that was counted [run] times, [pass] times for a
    result that passed. *)
Definition entry (run pass : nat) : option TestCounts.TestCounts :=
  if (run =? 0)%nat then None else Some (TestCounts.mkTestCounts pass run).

(** The counts that a list of results gives a key, [keys r] being the keys
    that [r] counts for, with their repetitions: no entry when no result
    counts for the key. *)
Definition runs (keys : Result -> list string) (key : string)
    (rs : list Result) : nat :=
  sum_list_with (fun r => occurrences key (keys r)) rs.

Definition tally (keys : Result -> list string) (key : string)
    (rs : list Result) : option TestCounts.TestCounts :=
  entry (runs keys key rs)
    (runs keys key (filter (fun r => passed r = true) rs)).

Definition suitesOf (r : Result) : list string := TestCase.suites (test r).
Definition priorityOf (r : Result) : list string :=
  [TestCase.priority (test r)].

(** The sums of the counts of a dictionary. *)
Definition totalRuns (table : gmap string TestCounts.TestCounts) : nat :=
  map_fold (fun _ counts n => (TestCounts.runCount counts + n)%nat) 0%nat table.

Definition totalPasses (table : gmap string TestCounts.TestCounts) : nat :=
  map_fold (fun _ counts n => (TestCounts.passCount counts + n)%nat) 0%nat
    table.


Module ExampleIndex.

(** An alias that repeats a fingerprint: [a b c] with the fingerprints
    5, 7 and 5. *)
Definition repeated : TokenizerAlias :=
  {| token := CatalogToken "ENTITY" "R";
     text := "a b c";
     terms := ["a"; "b"; "c"]%string;
     stemmed := ["a"; "b"; "c"]%string;
     hashes := [5; 7; 5]%N;
     matcher := ExampleLexicon.exactPrefix;
     isDownstreamTerm := fun _ => false |}.

(** The index of [ExampleLexicon.abc] in a tokenizer with the number
    parser. *)
Definition numbered : Tokenizer :=
  execM (addItems ExampleLexicon.abc) Example.tokenizer.

End ExampleIndex.

Module ExampleSuite.

(** Three results: two tests of priority 1, one of them in two suites and
    passed, the other in one suite and failed, and a passed test of
    priority 2 that is in no suite. *)
Definition results : list Result :=
  [ mkResult (TestCase.new 0 "1" ["a"; "b"]%string "x y" "X Y") "X Y" true;
    mkResult (TestCase.new 1 "1" ["a"]%string "x z" "X Z") "X" false;
    mkResult (TestCase.new 2 "2" [] "w" "W") "W" true ].

End ExampleSuite.

(** What [recordResults] keeps true: the dictionaries hold the tallies of the
    results recorded so far. *)
Definition tallied (a : AggregatedResults.AggregatedResults)
    (rs : list Result) : Prop :=
  AggregatedResults.results a = rs
  /\ AggregatedResults.passCount a
     = List.length (filter (fun r => passed r = true) rs)
  /\ (forall key, AggregatedResults.suites a !! key = tally suitesOf key rs)
  /\ (forall key,
        AggregatedResults.priorities a !! key = tally priorityOf key rs).

(** The sums that [recordResults] keeps equal, [rs] being the results
    recorded so far. *)
Definition totalled (a : AggregatedResults.AggregatedResults) : Prop :=
  totalRuns (AggregatedResults.priorities a)
  = List.length (AggregatedResults.results a)
  /\ totalPasses (AggregatedResults.priorities a)
     = AggregatedResults.passCount a
  /\ totalRuns (AggregatedResults.suites a)
     = sum_list_with (fun r => List.length (suitesOf r))
         (AggregatedResults.results a)
  /\ (AggregatedResults.passCount a
      <= List.length (AggregatedResults.results a))%nat.

(** * Properties *)

(** ** [split] *)

Example split_three : split "a b  c" = ["a"; "b"; "c"]%string.
Proof. reflexivity. Qed.

Example split_empty : split EmptyString = [EmptyString].
Proof. reflexivity. Qed.

Example split_edges : split " a " = [EmptyString; "a"%string; EmptyString].
Proof. reflexivity. Qed.


(** ** Arithmetic of [Num] *)

Module NumFacts.
Import Num.

Lemma Qc_eqb_ofZ_zero (z : Z) :
  Qc_eqb (Q2Qc (inject_Z z)) 0 = bool_decide (z = 0).
Proof.
  unfold Qc_eqb. case_bool_decide as Hz.
  - subst z. reflexivity.
  - apply not_true_is_false. intros H. apply Qeq_bool_iff in H.
    simpl in H. rewrite Qred_correct in H.
    unfold Qeq in H. simpl in H. lia.
Qed.

Lemma ofZ_nonzero (z : Z) : z ≠ 0 -> Q2Qc (inject_Z z) ≠ 0%Qc.
Proof.
  intros Hz H. apply (f_equal this) in H. simpl in H.
  assert (Hq : (Qred (inject_Z z) == 0)%Q) by (rewrite H; reflexivity).
  rewrite Qred_correct in Hq. unfold Qeq in Hq. simpl in Hq. lia.
Qed.

(** A quotient of integers is finite exactly when the divisor is not zero. *)
Lemma div_ofZ (a b : Z) :
  b ≠ 0 ->
  div (ofZ a) (ofZ b) = Fin (Q2Qc (inject_Z a) / Q2Qc (inject_Z b))%Qc.
Proof.
  intros Hb. unfold div, ofZ. rewrite Qc_eqb_ofZ_zero.
  rewrite bool_decide_eq_false_2 by assumption. reflexivity.
Qed.

Lemma leb_ofZ_cent (z : Z) : leb (ofZ z) (Fin cent) = bool_decide (z <= 0).
Proof.
  unfold leb, ofZ, Qc_leb, cent.
  destruct (Qle_bool _ _) eqn:E.
  - apply Qle_bool_iff in E. simpl in E. rewrite !Qred_correct in E.
    unfold Qle in E. simpl in E. symmetry. apply bool_decide_eq_true_2. lia.
  - symmetry. apply bool_decide_eq_false_2. intros Hz.
    apply not_true_iff_false in E. apply E. apply Qle_bool_iff.
    simpl. rewrite !Qred_correct. unfold Qle. simpl. lia.
Qed.

(** [-1] is below the floor, so a rejected score stays rejected. *)
Lemma leb_minus_one_cent : leb (ofZ (-1)) (Fin cent) = true.
Proof. reflexivity. Qed.

Lemma mul_Fin (x y : Qc) : mul (Fin x) (Fin y) = Fin (x * y)%Qc.
Proof. reflexivity. Qed.

End NumFacts.

(** ** Reasoning in [M] *)

Section MonadFacts.
Context {A B : Type}.

Lemma bind_gets (f : Tokenizer -> A) (k : A -> M B) (t : Tokenizer) :
  bind (gets f) k t = k (f t) t.
Proof. reflexivity. Qed.

Lemma bind_modify (f : Tokenizer -> Tokenizer) (k : unit -> M B)
    (t : Tokenizer) :
  bind (modify f) k t = k tt (f t).
Proof. reflexivity. Qed.

Lemma bind_ret (a : A) (k : A -> M B) (t : Tokenizer) :
  bind (ret a) k t = k a t.
Proof. reflexivity. Qed.
End MonadFacts.

Lemma returns_ret {A} (a : A) : returns (ret a).
Proof. intros t. eexists. reflexivity. Qed.

Lemma returns_gets {A} (f : Tokenizer -> A) : returns (gets f).
Proof. intros t. eexists. reflexivity. Qed.

Lemma returns_modify (f : Tokenizer -> Tokenizer) : returns (modify f).
Proof. intros t. eexists. reflexivity. Qed.

Lemma returns_log (line : LogLine) : returns (log line).
Proof. apply returns_modify. Qed.

Lemma returns_bind {A B} (m : M A) (k : A -> M B) :
  returns m -> (forall a, returns (k a)) -> returns (bind m k).
Proof.
  intros Hm Hk t. unfold evalM, bind.
  destruct (Hm t) as [a Ha]. unfold evalM in Ha.
  destruct (m t) as [[a'|] t']; simpl in Ha; [|discriminate].
  apply Hk.
Qed.

Lemma returns_when (b : bool) (m : M unit) : returns m -> returns (when b m).
Proof. intros Hm. destruct b; [exact Hm | apply returns_ret]. Qed.

Lemma returns_mapM {A B} (f : A -> M B) (l : list A) :
  (forall x, returns (f x)) -> returns (mapM f l).
Proof.
  intros Hf. induction l as [|x l IH]; simpl.
  - apply returns_ret.
  - apply returns_bind; [apply Hf|]. intros y.
    apply returns_bind; [apply IH|]. intros ys. apply returns_ret.
Qed.

Lemma returns_foldM {A B} (body : B -> A -> M B) (l : list A) (acc : B) :
  (forall acc x, returns (body acc x)) -> returns (foldM body l acc).
Proof.
  intros Hb. revert acc. induction l as [|x l IH]; intros acc; simpl.
  - apply returns_ret.
  - apply returns_bind; [apply Hb|]. intros acc'. apply IH.
Qed.

Lemma returns_forM {A} (l : list A) (body : A -> M unit) :
  (forall x, returns (body x)) -> returns (forM l body).
Proof. intros Hb. apply returns_foldM. intros _ x. apply Hb. Qed.

Lemma returns_decodeTerm (hash : Hash) : returns (decodeTerm hash).
Proof.
  intros t. unfold evalM, decodeTerm. rewrite bind_gets.
  destruct (hashToText t !! hash); eexists; reflexivity.
Qed.

Create HintDb returns.
#[export] Hint Resolve returns_ret returns_gets returns_modify returns_log
  returns_bind returns_when returns_mapM returns_foldM returns_forM
  returns_decodeTerm : returns.

(** A statement that cannot throw, followed by [return v], returns [v]. *)
Lemma evalM_then_ret {A B} (m : M A) (v : B) (t : Tokenizer) :
  returns m -> evalM (bind m (fun _ => ret v)) t = Some v.
Proof.
  intros Hm. destruct (Hm t) as [a Ha]. unfold evalM, bind in *.
  destruct (m t) as [[a'|] t']; simpl in Ha; [reflexivity | discriminate].
Qed.

(** ** The scorer *)

Lemma score_eval (query prefix : list Hash)
    (isDownstreamTerm : DownstreamTermPredicate) (diff : DiffResults)
    (t : Tokenizer) :
  evalM (score query prefix isDownstreamTerm diff) t =
    Some {| s_score := finalScore prefix isDownstreamTerm diff;
            s_length := rightmostA diff + 1 |}.
Proof.
  unfold score, evalM. rewrite bind_gets.
  apply (evalM_then_ret _ _ t).
  apply returns_when. auto 20 with returns.
Qed.

(** [size commonTerms = size commonDownstreamWords] says that every common
    term is a downstream term. *)
Lemma commonDownstreamWords_all (isDownstreamTerm : DownstreamTermPredicate)
    (diff : DiffResults) :
  size (commonTerms diff) = size (commonDownstreamWords isDownstreamTerm diff)
  <-> forall h, h ∈ commonTerms diff -> isDownstreamTerm h = true.
Proof.
  unfold commonDownstreamWords.
  assert (Hnd : NoDup (elements (commonTerms diff))) by apply NoDup_elements.
  assert (Hsz : size (commonTerms diff)
                = List.length (elements (commonTerms diff))) by reflexivity.
  rewrite Hsz. clear Hsz.
  assert (Hin : forall h, h ∈ commonTerms diff
                          <-> h ∈ elements (commonTerms diff))
    by (intros h; symmetry; apply elem_of_elements).
  setoid_rewrite Hin. clear Hin.
  generalize dependent (elements (commonTerms diff)). intros l Hnd.
  assert (Hf : NoDup (List.filter isDownstreamTerm l)).
  { apply NoDup_ListNoDup, List.NoDup_filter, NoDup_ListNoDup, Hnd. }
  rewrite (size_list_to_set (C := gset N)) by exact Hf.
  clear Hnd Hf. induction l as [|x l IH]; simpl.
  - split; [intros _ h Hh; inversion Hh | reflexivity].
  - destruct (isDownstreamTerm x) eqn:Hx; simpl.
    + split.
      * intros H h Hh. apply elem_of_cons in Hh as [->|Hh]; [exact Hx|].
        apply IH; [lia | exact Hh].
      * intros H. f_equal. apply IH. intros h Hh. apply H. now right.
    + split.
      * intros H. pose proof (List.filter_length_le isDownstreamTerm l). lia.
      * intros H. rewrite H in Hx; [discriminate | now left].
Qed.

Lemma allDownstream_true (prefix : list Hash)
    (isDownstreamTerm : DownstreamTermPredicate) (diff : DiffResults) :
  allDownstream prefix isDownstreamTerm diff = true
  <-> (0 < size (commonTerms diff))%nat
      /\ (forall h, h ∈ commonTerms diff -> isDownstreamTerm h = true)
      /\ size (commonTerms diff) ≠ List.length prefix.
Proof.
  unfold allDownstream.
  rewrite !andb_true_iff, negb_true_iff, Nat.ltb_lt, !Nat.eqb_eq, Nat.eqb_neq.
  rewrite commonDownstreamWords_all. tauto.
Qed.

Lemma finalScore_cases (prefix : list Hash)
    (isDownstreamTerm : DownstreamTermPredicate) (diff : DiffResults) :
  finalScore prefix isDownstreamTerm diff =
    if allDownstream prefix isDownstreamTerm diff
       || Num.leb (baseScore diff) (Fin Num.cent)
    then Num.ofZ (-1) else baseScore diff.
Proof.
  unfold finalScore. destruct (allDownstream _ _ _); simpl; reflexivity.
Qed.

(** *** The scorer in binary64 *)

Lemma Binary64_score_eval (query prefix : list Hash)
    (isDownstreamTerm : DownstreamTermPredicate) (diff : DiffResults)
    (t : Tokenizer) :
  evalM (Binary64.score query prefix isDownstreamTerm diff) t =
    Some {| Binary64.s_score :=
              let score1 :=
                if allDownstream prefix isDownstreamTerm diff
                then Binary64.minusOne else Binary64.baseScore diff in
              if (score1 <=? Binary64.cent)%float
              then Binary64.minusOne else score1;
            Binary64.s_length :=
              (Binary64.ofZ (rightmostA diff) + Binary64.one)%float |}.
Proof.
  unfold Binary64.score, evalM. rewrite bind_gets.
  apply (evalM_then_ret _ _ t).
  apply returns_when. auto 20 with returns.
Qed.

Lemma Binary64_minusOne_rejected :
  (Binary64.minusOne <=? Binary64.cent)%float = true.
Proof. reflexivity. Qed.

(** C1.  For every call of [score], in the arithmetic of the code, the score
    computed before the rejection tests is [matchFactor * commonFactor *
    positionFactor * lengthFactor], with [matchFactor = (L - cost)/L] if
    [L > cost] and [1/(L + cost)] otherwise, [commonFactor =
    |commonTerms|/|match|], [positionFactor = max(|match| - leftmostA,
    0)/|match|] and [lengthFactor = |match|], where [L = rightmostA + 1]; the
    call returns that product unless a rejection test replaces it by [-1],
    and the length it returns is [rightmostA + 1]. *)
Theorem score_formula (query prefix : list Hash)
    (isDownstreamTerm : DownstreamTermPredicate) (diff : DiffResults)
    (t : Tokenizer) :
  let L := (Binary64.ofZ (rightmostA diff) + Binary64.one)%float in
  let n := Binary64.ofNat (List.length (diff_match diff)) in
  let mf :=
    if (Binary64.ofZ (cost diff) <? L)%float
    then ((L - Binary64.ofZ (cost diff)) / L)%float
    else (Binary64.one / (L + Binary64.ofZ (cost diff)))%float in
  let cf := (Binary64.ofNat (size (commonTerms diff)) / n)%float in
  let pf :=
    (Binary64.Math_max (n - Binary64.ofZ (leftmostA diff)) Binary64.zero
     / n)%float in
  let lf := n in
  let product := (mf * cf * pf * lf)%float in
  Binary64.baseScore diff = product
  /\ exists r,
       evalM (Binary64.score query prefix isDownstreamTerm diff) t = Some r
       /\ Binary64.s_length r = L
       /\ Binary64.s_score r =
            if allDownstream prefix isDownstreamTerm diff
               || (product <=? Binary64.cent)%float
            then Binary64.minusOne else product.
Proof.
  intros L n mf cf pf lf product. split; [reflexivity|].
  eexists. split; [apply Binary64_score_eval|]. split; [reflexivity|].
  cbn [Binary64.s_score]. cbv zeta.
  destruct (allDownstream prefix isDownstreamTerm diff); cbn [orb].
  - now rewrite Binary64_minusOne_rejected.
  - reflexivity.
Qed.

(** C2.  [score] returns [-1] exactly when (a) there is a common term, every
    common term is a downstream term and [|commonTerms| ≠ |prefix|], or
    (b) the base score, as the code computes it, is at most [0.01]; in every
    other case it returns the base score unchanged. *)
Theorem score_rejection (query prefix : list Hash)
    (isDownstreamTerm : DownstreamTermPredicate) (diff : DiffResults)
    (t : Tokenizer) :
  let a := (0 < size (commonTerms diff))%nat
           /\ (forall h, h ∈ commonTerms diff -> isDownstreamTerm h = true)
           /\ size (commonTerms diff) ≠ List.length prefix in
  let b := (Binary64.baseScore diff <=? Binary64.cent)%float = true in
  exists r,
    evalM (Binary64.score query prefix isDownstreamTerm diff) t = Some r
    /\ (Binary64.s_score r = Binary64.minusOne <-> a \/ b)
    /\ (~ (a \/ b) -> Binary64.s_score r = Binary64.baseScore diff).
Proof.
  intros a b. eexists. split; [apply Binary64_score_eval|].
  cbn [Binary64.s_score]. cbv zeta.
  pose proof (allDownstream_true prefix isDownstreamTerm diff) as Ha.
  fold a in Ha. subst b.
  destruct (allDownstream prefix isDownstreamTerm diff) eqn:Ea.
  - rewrite Binary64_minusOne_rejected.
    split; [|intros H; exfalso; apply H; left; now apply Ha].
    split; [intros _; left; now apply Ha | reflexivity].
  - assert (Hna : ~ a) by (intros H; apply Ha in H; discriminate).
    destruct (Binary64.baseScore diff <=? Binary64.cent)%float eqn:Eb.
    + split; [|intros H; exfalso; apply H; now right].
      split; [intros _; now right | reflexivity].
    + split; [|reflexivity].
      split.
      * intros H. rewrite H in Eb.
        rewrite Binary64_minusOne_rejected in Eb. discriminate.
      * intros [H|H]; [contradiction | discriminate].
Qed.

(** Rounding at work.  The first diff scores [1.9999999999999998] where exact
    arithmetic gives [2]; the second scores [0.010000000000000002], which is
    above the float [0.01] and is kept, where exact arithmetic gives [1/100]
    and rejects. *)
Module Binary64Examples.

Import PrimFloat.

Example literals :
  Binary64.cent = (1 / 100)%float
  /\ Binary64.minusOne = (0 - 1)%float
  /\ Binary64.ofZ 9007199254740992 = 0x1p+53%float
  /\ Binary64.ofZ (-3) = (0 - 3)%float
  /\ Binary64.Math_max (-0) 0 = 0%float
  /\ Binary64.Math_max 3 nan = nan.
Proof. repeat split; reflexivity. Qed.

Example score_rounds_down :
  Binary64.baseScore ExampleScores.two = 0x1.fffffffffffffp+0%float
  /\ evalM (Binary64.score [1; 2; 3]%N [1; 2; 3]%N isNeverDownstreamTerm
              ExampleScores.two) Example.tokenizer
     = Some {| Binary64.s_score := 0x1.fffffffffffffp+0;
               Binary64.s_length := 6 |}
  /\ baseScore ExampleScores.two = Num.ofZ 2.
Proof.
  split; [vm_compute; reflexivity|]. split; [vm_compute; reflexivity|].
  vm_compute. f_equal. apply Qc_is_canon. reflexivity.
Qed.

Example score_above_cent_kept :
  Binary64.baseScore ExampleScores.cent = 0x1.47ae147ae147cp-7%float
  /\ evalM (Binary64.score [1; 2; 3]%N [1; 2; 3]%N isNeverDownstreamTerm
              ExampleScores.cent) Example.tokenizer
     = Some {| Binary64.s_score := 0x1.47ae147ae147cp-7;
               Binary64.s_length := 10 |}
  /\ baseScore ExampleScores.cent = Fin Num.cent
  /\ finalScore [1; 2; 3]%N isNeverDownstreamTerm ExampleScores.cent
     = Num.ofZ (-1).
Proof.
  split; [vm_compute; reflexivity|]. split; [vm_compute; reflexivity|].
  split; vm_compute; f_equal; apply Qc_is_canon; reflexivity.
Qed.

End Binary64Examples.

(** The four factors are finite as soon as the match is not empty and
    [rightmostA] is not negative. *)
Section ScoreTotal.
Variable diff : DiffResults.
Hypothesis match_nonempty : diff_match diff ≠ [].
Hypothesis rightmost_nonneg : 0 <= rightmostA diff.

Let n : Z := Z.of_nat (List.length (diff_match diff)).
Let L : Z := rightmostA diff + 1.

Lemma match_length_pos : 1 <= n.
Proof using match_nonempty.
  subst n. destruct (diff_match diff); [congruence | simpl; lia].
Qed.

Lemma matchFactor_divisor :
  1 <= L /\ ((L >? cost diff) = false -> 1 <= L + cost diff).
Proof using rightmost_nonneg.
  subst L. split; [lia|]. intros H.
  rewrite Z.gtb_ltb, Z.ltb_ge in H. lia.
Qed.

Lemma matchFactor_finite :
  exists q, matchFactor diff = Fin q.
Proof using rightmost_nonneg.
  destruct matchFactor_divisor as [HL Hc]. fold L in HL.
  unfold matchFactor. fold L.
  destruct (L >? cost diff) eqn:E.
  - rewrite NumFacts.div_ofZ by lia. eauto.
  - rewrite NumFacts.div_ofZ by (specialize (Hc eq_refl); lia). eauto.
Qed.

Lemma commonFactor_value :
  commonFactor diff =
    Fin (Q2Qc (inject_Z (Z.of_nat (size (commonTerms diff))))
         / Q2Qc (inject_Z n))%Qc.
Proof using match_nonempty.
  pose proof match_length_pos. unfold commonFactor, Num.ofNat.
  fold n. rewrite NumFacts.div_ofZ by lia. reflexivity.
Qed.

Lemma positionFactor_value :
  positionFactor diff =
    Fin (Q2Qc (inject_Z (Z.max (n - leftmostA diff) 0))
         / Q2Qc (inject_Z n))%Qc.
Proof using match_nonempty.
  pose proof match_length_pos. unfold positionFactor, Num.ofNat.
  fold n. rewrite NumFacts.div_ofZ by lia. reflexivity.
Qed.

Lemma baseScore_finite : exists q, baseScore diff = Fin q.
Proof using match_nonempty rightmost_nonneg.
  destruct matchFactor_finite as [mf Hmf].
  unfold baseScore.
  rewrite Hmf, commonFactor_value, positionFactor_value.
  unfold lengthFactor, Num.ofNat, Num.ofZ.
  rewrite !NumFacts.mul_Fin. eauto.
Qed.

Lemma baseScore_no_common :
  size (commonTerms diff) = 0%nat -> baseScore diff = Fin 0%Qc.
Proof using match_nonempty rightmost_nonneg.
  intros H0. destruct matchFactor_finite as [mf Hmf].
  unfold baseScore.
  rewrite Hmf, commonFactor_value, positionFactor_value, H0.
  unfold lengthFactor, Num.ofNat, Num.ofZ.
  rewrite !NumFacts.mul_Fin. f_equal.
  change (Q2Qc (inject_Z (Z.of_nat 0))) with 0%Qc.
  unfold Qcdiv. ring.
Qed.

Lemma finalScore_finite prefix isDownstreamTerm :
  exists q, finalScore prefix isDownstreamTerm diff = Fin q.
Proof using match_nonempty rightmost_nonneg.
  rewrite finalScore_cases. destruct (_ || _).
  - unfold Num.ofZ. eauto.
  - apply baseScore_finite.
Qed.
End ScoreTotal.

(** C10.  [score] is total when [diff.match] is not empty and [rightmostA >=
    0]: the divisors of the factors of the returned score are at least 1
    ([|match|], [L], and [L + cost] where it is used), so the base score and
    the returned score are finite; and when [commonTerms] is empty the base
    score is 0 and [-1] is returned, although the downstream-word ratio,
    which divides by [|commonTerms|], is then [NaN]. *)
Theorem score_total (query prefix : list Hash)
    (isDownstreamTerm : DownstreamTermPredicate) (diff : DiffResults)
    (t : Tokenizer) :
  diff_match diff ≠ [] ->
  0 <= rightmostA diff ->
  let L := rightmostA diff + 1 in
  (1 <= Z.of_nat (List.length (diff_match diff))
   /\ 1 <= L
   /\ ((L >? cost diff) = false -> 1 <= L + cost diff))
  /\ (exists q, baseScore diff = Fin q)
  /\ (exists r q,
        evalM (score query prefix isDownstreamTerm diff) t = Some r
        /\ s_score r = Fin q
        /\ s_length r = L)
  /\ (size (commonTerms diff) = 0%nat ->
        baseScore diff = Fin 0%Qc
        /\ downstreamWordFactor isDownstreamTerm diff = NaN
        /\ evalM (score query prefix isDownstreamTerm diff) t
           = Some {| s_score := Num.ofZ (-1); s_length := L |}).
Proof.
  intros Hm Hr L. repeat split.
  - now apply match_length_pos.
  - now apply matchFactor_divisor.
  - now apply matchFactor_divisor.
  - now apply baseScore_finite.
  - destruct (finalScore_finite diff Hm Hr prefix isDownstreamTerm) as [q Hq].
    eexists _, q. split; [apply score_eval|]. split; [exact Hq | reflexivity].
  - now apply baseScore_no_common.
  - unfold downstreamWordFactor, commonDownstreamWords.
    assert (commonTerms diff = ∅) as -> by (now apply size_empty_inv, leibniz_equiv in H).
    rewrite elements_empty. reflexivity.
  - rewrite score_eval. do 2 f_equal.
    rewrite finalScore_cases, (baseScore_no_common diff Hm Hr H).
    unfold allDownstream. rewrite H. reflexivity.
Qed.

(** ** Methods that only read the index

    [same_index t t']: the two states agree on every field but what the logger
    has printed.  A method is [readonly] when it leaves every such field as it
    was, and when what it returns does not depend on what has been logged. *)

Lemma same_index_refl t : same_index t t.
Proof. repeat split. Qed.

Lemma same_index_sym t t' : same_index t t' -> same_index t' t.
Proof. unfold same_index. intuition congruence. Qed.

Lemma same_index_trans t1 t2 t3 :
  same_index t1 t2 -> same_index t2 t3 -> same_index t1 t3.
Proof. unfold same_index. intuition congruence. Qed.

Lemma readonly_ret {A} (a : A) : readonly (ret a).
Proof. intros t t' H. split; [reflexivity | exact H]. Qed.

Lemma readonly_throw {A} : readonly (@throw A).
Proof. intros t t' H. split; [reflexivity | exact H]. Qed.

Lemma readonly_gets {A} (f : Tokenizer -> A) :
  (forall t t', same_index t t' -> f t = f t') -> readonly (gets f).
Proof.
  intros Hf t t' H. split; [|exact H].
  unfold evalM, gets. simpl. f_equal. now apply Hf.
Qed.

Lemma readonly_log (line : LogLine) : readonly (log line).
Proof. intros t t' H. split; [reflexivity | exact H]. Qed.

Lemma readonly_bind {A B} (m : M A) (k : A -> M B) :
  readonly m -> (forall a, readonly (k a)) -> readonly (bind m k).
Proof.
  intros Hm Hk t t' H.
  destruct (Hm t t' H) as [Hv Hs].
  destruct (Hm t' t' (same_index_refl t')) as [_ Hs'].
  unfold evalM, execM, bind in *.
  destruct (m t) as [[a|] t1], (m t') as [[a'|] t1'];
    simpl in *; try discriminate.
  - injection Hv as <-.
    assert (H1 : same_index t1 t1')
      by (eapply same_index_trans; [exact Hs | now apply same_index_sym]).
    destruct (Hk a t1 t1' H1) as [Hv1 Hs1]. split; [exact Hv1|].
    eapply same_index_trans; [exact Hs1 | exact Hs'].
  - split; [reflexivity | exact Hs].
Qed.

Lemma readonly_when (b : bool) (m : M unit) : readonly m -> readonly (when b m).
Proof. intros Hm. destruct b; [exact Hm | apply readonly_ret]. Qed.

Lemma readonly_mapM {A B} (f : A -> M B) (l : list A) :
  (forall x, readonly (f x)) -> readonly (mapM f l).
Proof.
  intros Hf. induction l as [|x l IH]; simpl.
  - apply readonly_ret.
  - apply readonly_bind; [apply Hf|]. intros y.
    apply readonly_bind; [apply IH|]. intros ys. apply readonly_ret.
Qed.

Lemma readonly_foldM {A B} (body : B -> A -> M B) (l : list A) (acc : B) :
  (forall acc x, readonly (body acc x)) -> readonly (foldM body l acc).
Proof.
  intros Hb. revert acc. induction l as [|x l IH]; intros acc; simpl.
  - apply readonly_ret.
  - apply readonly_bind; [apply Hb|]. intros acc'. apply IH.
Qed.

Ltac same_index_field :=
  let H := fresh in
  intros ? ? H; unfold same_index in H; intuition congruence.

Lemma readonly_gets_debugMode : readonly (gets debugMode).
Proof. apply readonly_gets. same_index_field. Qed.

Lemma readonly_gets_termModel : readonly (gets termModel).
Proof. apply readonly_gets. same_index_field. Qed.

Lemma readonly_gets_numberParser : readonly (gets numberParser).
Proof. apply readonly_gets. same_index_field. Qed.

Lemma readonly_gets_aliases : readonly (gets aliases).
Proof. apply readonly_gets. same_index_field. Qed.

Lemma readonly_gets_hashToText : readonly (gets hashToText).
Proof. apply readonly_gets. same_index_field. Qed.

Lemma readonly_gets_postings : readonly (gets postings).
Proof. apply readonly_gets. same_index_field. Qed.

Create HintDb readonly.
#[export] Hint Resolve readonly_ret readonly_throw readonly_log readonly_when
  readonly_mapM readonly_foldM readonly_gets_debugMode readonly_gets_termModel
  readonly_gets_numberParser readonly_gets_aliases readonly_gets_hashToText
  readonly_gets_postings : readonly.

(** Walks down a method body: binds, then the primitive reads. *)
Ltac readonly_step :=
  match goal with
  | |- readonly (bind _ _) => apply readonly_bind; [|intros ?]
  | |- readonly (when _ _) => apply readonly_when
  | |- readonly (mapM _ _) => apply readonly_mapM; intros ?
  | |- readonly (foldM _ _ _) => apply readonly_foldM; intros ? ?
  | |- readonly (match ?x with _ => _ end) => destruct x
  | |- readonly (let '(_, _) := ?x in _) => destruct x
  | |- forall _, _ => intros ?
  | |- readonly _ => solve [auto with readonly]
  end.

Ltac readonly_auto := repeat readonly_step.

Lemma readonly_decodeTerm (hash : Hash) : readonly (decodeTerm hash).
Proof. unfold decodeTerm. readonly_auto. Qed.

#[export] Hint Resolve readonly_decodeTerm : readonly.

Lemma readonly_score query prefix isDownstreamTerm diff :
  readonly (score query prefix isDownstreamTerm diff).
Proof. unfold score. readonly_auto. Qed.

#[export] Hint Resolve readonly_score : readonly.

Lemma readonly_matchAndScore query alias :
  readonly (matchAndScore query alias).
Proof. unfold matchAndScore. readonly_auto. Qed.

#[export] Hint Resolve readonly_matchAndScore : readonly.

Lemma readonly_aliasEdge tail item : readonly (aliasEdge tail item).
Proof. unfold aliasEdge. readonly_auto. Qed.

Lemma readonly_numberEdge hashed index value :
  readonly (numberEdge hashed index value).
Proof. unfold numberEdge. readonly_auto. Qed.

#[export] Hint Resolve readonly_aliasEdge readonly_numberEdge : readonly.

Lemma readonly_generateGraph_at hashed stemmed index hash :
  readonly (generateGraph_at hashed stemmed index hash).
Proof. unfold generateGraph_at. readonly_auto. Qed.

#[export] Hint Resolve readonly_generateGraph_at : readonly.

Lemma readonly_generateGraph hashed stemmed :
  readonly (generateGraph hashed stemmed).
Proof. unfold generateGraph. readonly_auto. Qed.

(** C9.  [generateGraph] does not modify the tokenizer: for every query, and
    whether the call returns or throws, the aliases, the postings lists, the
    frequencies and the texts of the fingerprints are afterwards what they
    were before. *)
Theorem generateGraph_frame (hashed : list Hash) (stemmed : list string)
    (t : Tokenizer) :
  let t' := execM (generateGraph hashed stemmed) t in
  aliases t' = aliases t
  /\ postings t' = postings t
  /\ hashToFrequency t' = hashToFrequency t
  /\ hashToText t' = hashToText t.
Proof.
  intros t'.
  destruct (readonly_generateGraph hashed stemmed t t (same_index_refl t))
    as [_ H].
  fold t' in H. unfold same_index in H. intuition.
Qed.

(** ** Evaluating read-only methods

    For read-only statements the state can be forgotten: [bind] evaluates like
    the bind of [option]. *)

Lemma evalM_bind_readonly {A B} (m : M A) (k : A -> M B) (t : Tokenizer) :
  readonly m -> (forall a, readonly (k a)) ->
  evalM (bind m k) t =
    match evalM m t with
    | Some a => evalM (k a) t
    | None => None
    end.
Proof.
  intros Hm Hk. destruct (Hm t t (same_index_refl t)) as [_ Hs].
  unfold evalM, execM, bind in *.
  destruct (m t) as [[a|] t1]; simpl in *; [|reflexivity].
  apply (Hk a t1 t Hs).
Qed.

Lemma evalM_mapM {A B} (f : A -> M B) (l : list A) (t : Tokenizer)
    (ys : list B) :
  (forall x, readonly (f x)) ->
  evalM (mapM f l) t = Some ys
  <-> Forall2 (fun x y => evalM (f x) t = Some y) l ys.
Proof.
  intros Hf. revert ys. induction l as [|x l IH]; intros ys; simpl.
  - split.
    + intros H. injection H as <-. constructor.
    + intros H. inversion H. reflexivity.
  - rewrite evalM_bind_readonly; [|apply Hf|].
    2:{ intros y. apply readonly_bind; [now apply readonly_mapM|].
        intros ?. apply readonly_ret. }
    destruct (evalM (f x) t) as [y|] eqn:Ey.
    + rewrite evalM_bind_readonly;
        [|now apply readonly_mapM | intros ?; apply readonly_ret].
      destruct (evalM (mapM f l) t) as [ys'|] eqn:Eys.
      * split.
        -- intros H. injection H as <-. constructor; [exact Ey|].
           now apply IH.
        -- intros H. inversion H as [|? y' ? ys'' Hy Hys]; subst.
           rewrite Ey in Hy. injection Hy as <-.
           apply IH in Hys. injection Hys as <-. reflexivity.
      * split; [discriminate|].
        intros H. inversion H as [|? y' ? ys'' Hy Hys]; subst.
        apply IH in Hys. discriminate.
    + split; [discriminate|].
      intros H. inversion H as [|? y' ? ys'' Hy Hys]; subst.
      rewrite Ey in Hy. discriminate.
Qed.

Lemma foldM_ext {A B} (body body' : B -> A -> M B) (l : list A) (acc : B)
    (t : Tokenizer) :
  (forall acc x t, body acc x t = body' acc x t) ->
  foldM body l acc t = foldM body' l acc t.
Proof.
  intros H. revert acc t. induction l as [|x l IH]; intros acc t; simpl.
  - reflexivity.
  - unfold bind. rewrite H. destruct (body' acc x t) as [[acc'|] t1].
    + apply IH.
    + reflexivity.
Qed.

(** A loop that pushes one result per element collects [l.map(f)]. *)
Lemma evalM_foldM_push {A B} (f : A -> M B) (l : list A) (acc : list B)
    (t : Tokenizer) :
  (forall x, readonly (f x)) ->
  evalM (foldM (fun acc x => bind (f x) (fun y => ret (acc ++ [y]))) l acc) t
  = match evalM (mapM f l) t with
    | Some ys => Some (acc ++ ys)
    | None => None
    end.
Proof.
  intros Hf.
  assert (Hbody : forall acc x,
             readonly (bind (f x) (fun y => ret (acc ++ [y])))).
  { intros acc' x. apply readonly_bind; [apply Hf|].
    intros ?. apply readonly_ret. }
  revert acc. induction l as [|x l IH]; intros acc; simpl.
  - unfold evalM, ret. simpl. now rewrite app_nil_r.
  - rewrite evalM_bind_readonly;
      [|apply Hbody | intros ?; now apply readonly_foldM].
    rewrite evalM_bind_readonly;
      [|apply Hf | intros ?; apply readonly_ret].
    rewrite (evalM_bind_readonly (f x)); [|apply Hf|].
    2:{ intros y. apply readonly_bind; [now apply readonly_mapM|].
        intros ?. apply readonly_ret. }
    destruct (evalM (f x) t) as [y|]; [|reflexivity].
    change (evalM (ret (acc ++ [y])) t) with (Some (acc ++ [y])).
    cbv beta iota. rewrite IH.
    rewrite evalM_bind_readonly;
      [|now apply readonly_mapM | intros ?; apply readonly_ret].
    destruct (evalM (mapM f l) t) as [ys|]; [|reflexivity].
    change (evalM (ret (y :: ys)) t) with (Some (y :: ys)).
    cbv beta iota. now rewrite <- app_assoc.
Qed.

(** *** The sort *)

Lemma sort_insert_perm {A} (compareFn : A -> A -> Num) (x : A) (l : list A) :
  sort_insert compareFn x l ≡ₚ x :: l.
Proof.
  induction l as [|y l IH]; simpl; [reflexivity|].
  destruct (Num.gtb _ _); [|reflexivity].
  rewrite IH. apply Permutation_swap.
Qed.

Lemma Array_sort_perm {A} (compareFn : A -> A -> Num) (l : list A) :
  Array_sort compareFn l ≡ₚ l.
Proof.
  induction l as [|x l IH]; simpl; [reflexivity|].
  rewrite sort_insert_perm. now rewrite IH.
Qed.

Lemma elem_of_Array_sort {A} (compareFn : A -> A -> Num) (l : list A) (x : A) :
  x ∈ Array_sort compareFn l <-> x ∈ l.
Proof. now rewrite Array_sort_perm. Qed.

(** ** The lattice *)

Lemma evalM_gets {A} (f : Tokenizer -> A) t : evalM (gets f) t = Some (f t).
Proof. reflexivity. Qed.

Lemma evalM_ret {A} (a : A) t : evalM (ret a) t = Some a.
Proof. reflexivity. Qed.

Lemma evalM_when_log (b : bool) (line : LogLine) t :
  evalM (when b (log line)) t = Some tt.
Proof. destruct b; reflexivity. Qed.

Ltac eval_bind :=
  rewrite evalM_bind_readonly by readonly_auto;
  rewrite ?evalM_gets, ?evalM_ret, ?evalM_when_log; cbv beta iota.

Lemma evalM_aliasEdge (t : Tokenizer) (tail : list Hash) (item : Id) :
  evalM (aliasEdge tail item) t = aliasEdgeOf t tail item <$> aliases t !! item.
Proof.
  unfold aliasEdge. eval_bind.
  destruct (aliases t !! item) as [alias|]; [|reflexivity].
  eval_bind. unfold matchAndScore. eval_bind.
  rewrite score_eval. reflexivity.
Qed.

Lemma evalM_numberEdge (t : Tokenizer) hashed index value :
  evalM (numberEdge hashed index value) t
  = Some (numberEdgeOf hashed index value).
Proof.
  unfold numberEdge. eval_bind. rewrite score_eval. reflexivity.
Qed.

Lemma evalM_mapM_numberEdge (t : Tokenizer) hashed index output :
  evalM (mapM (numberEdge hashed index) output) t
  = Some (map (numberEdgeOf hashed index) output).
Proof.
  apply evalM_mapM; [intros ?; apply readonly_numberEdge|].
  induction output as [|v output IH]; simpl; constructor;
    [apply evalM_numberEdge | exact IH].
Qed.

Lemma generateGraph_at_eval (t : Tokenizer) hashed stemmed index hash :
  evalM (generateGraph_at hashed stemmed index hash) t =
    match
      match postings t !! hash with
      | Some items => evalM (mapM (aliasEdge (drop index hashed)) items) t
      | None => Some []
      end
    with
    | Some scored =>
        Some (Array_sort byScore (scored ++ numberEdges t hashed index))
    | None => None
    end.
Proof.
  unfold generateGraph_at. eval_bind. eval_bind.
  assert (Hnum : forall edges,
    evalM
      (np <- gets numberParser ;;
       edges <-
         match np with
         | Some parser =>
             foldM (fun edges value =>
                      edge <- numberEdge hashed index value ;;
                      ret (edges ++ [edge]))
                   (parse parser (drop index hashed)) edges
         | None => ret edges
         end ;;
       (if (List.length edges =? 0)%nat
        then debug <- gets debugMode ;;
             when debug (log (LogUnknown (stemmed !! index)))
        else ret tt) ;;;
       ret (Array_sort byScore edges)) t
    = Some (Array_sort byScore (edges ++ numberEdges t hashed index))).
  { intros edges. eval_bind. eval_bind. unfold numberEdges.
    destruct (numberParser t) as [parser|].
    - rewrite evalM_foldM_push by (intros ?; apply readonly_numberEdge).
      rewrite evalM_mapM_numberEdge. eval_bind.
      destruct (_ =? _)%nat; [eval_bind|]; reflexivity.
    - rewrite evalM_ret, app_nil_r. cbv beta iota. eval_bind.
      destruct (_ =? _)%nat; [eval_bind|]; reflexivity. }
  destruct (postings t !! hash) as [items|].
  - do 3 eval_bind.
    destruct (evalM (mapM _ items) t) as [scored|]; [|reflexivity].
    rewrite evalM_ret. cbv beta iota. apply Hnum.
  - rewrite evalM_ret. cbv beta iota. apply Hnum.
Qed.

Lemma generateGraph_eval (t : Tokenizer) hashed stemmed :
  evalM (generateGraph hashed stemmed) t =
    DynamicGraph <$>
      evalM (mapM (fun p => generateGraph_at hashed stemmed p.1 p.2)
                  (entries hashed)) t.
Proof.
  unfold generateGraph. eval_bind.
  unfold evalM at 1.
  rewrite (foldM_ext _
             (fun acc x =>
                bind (generateGraph_at hashed stemmed x.1 x.2)
                     (fun y => ret (acc ++ [y]))))
    by (intros ? [? ?] ?; reflexivity).
  fold (evalM (foldM (fun acc x =>
                bind (generateGraph_at hashed stemmed x.1 x.2)
                     (fun y => ret (acc ++ [y]))) (entries hashed) []) t).
  rewrite evalM_foldM_push by (intros ?; apply readonly_generateGraph_at).
  destruct (evalM (mapM _ _) t); reflexivity.
Qed.

Lemma Forall2_total {A B} (P : A -> B -> Prop) (l : list A) :
  (forall x, x ∈ l -> exists y, P x y) -> exists ys, Forall2 P l ys.
Proof.
  induction l as [|x l IH]; intros H.
  - exists []. constructor.
  - destruct (H x) as [y Hy]; [now left|].
    destruct IH as [ys Hys]; [intros x' Hx'; apply H; now right|].
    exists (y :: ys). now constructor.
Qed.

(** With a well-formed index [generateGraph] returns, and its lattice has, at
    each position of the query, the sorted alias edges of the postings list of
    the fingerprint there followed by the number edges. *)
Lemma generateGraph_lattice (t : Tokenizer) hashed stemmed :
  wf_postings t ->
  exists ls,
    evalM (generateGraph hashed stemmed) t = Some (DynamicGraph ls)
    /\ List.length ls = List.length hashed
    /\ forall i h,
         hashed !! i = Some h ->
         exists scored,
           ls !! i
           = Some (Array_sort byScore (scored ++ numberEdges t hashed i))
           /\ Forall2
                (fun item e =>
                   exists alias,
                     aliases t !! item = Some alias
                     /\ e = aliasEdgeOf t (drop i hashed) item alias)
                (default [] (postings t !! h)) scored.
Proof.
  intros Hwf.
  assert (Hat : forall i h,
    exists scored,
      evalM (generateGraph_at hashed stemmed i h) t
      = Some (Array_sort byScore (scored ++ numberEdges t hashed i))
      /\ Forall2
           (fun item e =>
              exists alias,
                aliases t !! item = Some alias
                /\ e = aliasEdgeOf t (drop i hashed) item alias)
           (default [] (postings t !! h)) scored).
  { intros i h. rewrite generateGraph_at_eval.
    destruct (postings t !! h) as [items|] eqn:Ep; simpl.
    - destruct (Forall2_total
                  (fun item e =>
                     evalM (aliasEdge (drop i hashed) item) t = Some e) items)
        as [scored Hsc].
      { intros id Hid. destruct (Hwf h items id Ep Hid) as [alias Ha].
        exists (aliasEdgeOf t (drop i hashed) id alias).
        rewrite evalM_aliasEdge, Ha. reflexivity. }
      exists scored. split.
      + apply evalM_mapM in Hsc; [|intros ?; apply readonly_aliasEdge].
        now rewrite Hsc.
      + eapply Forall2_impl; [exact Hsc|]. intros id e He. simpl in He.
        rewrite evalM_aliasEdge in He.
        destruct (aliases t !! id) as [alias|]; [|discriminate].
        injection He as <-. eauto.
    - exists []. split; [reflexivity | constructor]. }
  destruct (Forall2_total
              (fun p es =>
                 evalM (generateGraph_at hashed stemmed p.1 p.2) t = Some es)
              (entries hashed)) as [ls Hls].
  { intros [i h] _. destruct (Hat i h) as (scored & Hev & _). eauto. }
  exists ls. split; [|split].
  - rewrite generateGraph_eval.
    apply evalM_mapM in Hls; [|intros ?; apply readonly_generateGraph_at].
    now rewrite Hls.
  - apply Forall2_length in Hls. rewrite <- Hls.
    unfold entries. now rewrite length_imap.
  - intros i h Hi.
    assert (Hent : entries hashed !! i = Some (i, h)).
    { unfold entries. rewrite list_lookup_imap, Hi. reflexivity. }
    destruct (Forall2_lookup_l _ _ _ _ _ Hls Hent) as (es & Hes & Hev).
    simpl in Hev. destruct (Hat i h) as (scored & Hev' & Hall).
    exists scored. split; [|exact Hall]. congruence.
Qed.

(** ** The inverted index *)

Lemma occurrences_app {A} `{EqDecision A} (x : A) (l1 l2 : list A) :
  occurrences x (l1 ++ l2) = (occurrences x l1 + occurrences x l2)%nat.
Proof. unfold occurrences. now rewrite filter_app, length_app. Qed.

Lemma occurrences_cons {A} `{EqDecision A} (x y : A) (l : list A) :
  occurrences x (y :: l)
  = ((if decide (y = x) then 1 else 0) + occurrences x l)%nat.
Proof.
  unfold occurrences. rewrite filter_cons. destruct (decide (y = x)); reflexivity.
Qed.

Lemma occurrences_pos {A} `{EqDecision A} (x : A) (l : list A) :
  (0 < occurrences x l)%nat <-> x ∈ l.
Proof.
  induction l as [|y l IH].
  - split; [inversion 1 | inversion 1].
  - rewrite occurrences_cons, elem_of_cons.
    destruct (decide (y = x)) as [->|Hne].
    + split; [now left | simpl; lia].
    + simpl. rewrite IH. split; [now right | intros [->|?]; congruence].
Qed.

Lemma count_postings_push (p : gmap Hash (list Id)) (h : Hash) (id : Id) :
  count_postings (<[h := default [] (p !! h) ++ [id]]> p)
  = S (count_postings p).
Proof.
  unfold count_postings.
  assert (Hcomm : forall (z1 z2 : list Id) (y : nat),
             (List.length z1 + (List.length z2 + y)
              = List.length z2 + (List.length z1 + y))%nat) by (intros; lia).
  destruct (p !! h) as [ids|] eqn:E; simpl.
  - rewrite <- (insert_delete_eq p).
    rewrite map_fold_insert_L; [|intros; apply Hcomm | apply lookup_delete_eq].
    rewrite <- (insert_delete_id p h ids E) at 2.
    rewrite map_fold_insert_L; [|intros; apply Hcomm | apply lookup_delete_eq].
    rewrite length_app. simpl. lia.
  - rewrite map_fold_insert_L; [|intros; apply Hcomm | exact E].
    reflexivity.
Qed.

(** One turn of the loop of [addItem] pushes [id] on the postings list of
    [hash], and touches no other list. *)
Lemma addItem_at_run (alias : TokenizerAlias) (id : Id) (index : nat)
    (hash : Hash) (t : Tokenizer) :
  let t' := execM (addItem_at alias id index hash) t in
  evalM (addItem_at alias id index hash) t = Some tt
  /\ aliases t' = aliases t
  /\ postings t' = <[hash := postingsOf t hash ++ [id]]> (postings t).
Proof.
  unfold addItem_at, evalM, execM, postingsOf.
  rewrite bind_gets.
  destruct (negb _); simpl;
    [rewrite bind_modify | rewrite bind_ret];
    rewrite bind_gets; simpl;
    (destruct (hashToFrequency t !! hash); rewrite bind_modify, bind_gets; simpl;
     destruct (postings t !! hash); simpl; repeat split).
Qed.

Lemma postingsOf_insert (t t' : Tokenizer) (hash h : Hash) (ids : list Id) :
  postings t' = <[hash := ids]> (postings t) ->
  postingsOf t' h = if decide (hash = h) then ids else postingsOf t h.
Proof.
  intros E. unfold postingsOf. rewrite E, lookup_insert.
  destruct (decide (hash = h)); reflexivity.
Qed.

Lemma forM_cons {A} (body : A -> M unit) (x : A) (l : list A)
    (t t1 : Tokenizer) :
  body x t = (Some tt, t1) -> forM (x :: l) body t = forM l body t1.
Proof. intros H. unfold forM. simpl. unfold bind. now rewrite H. Qed.

Lemma run_eq {A} (m : M A) (t : Tokenizer) (a : A) :
  evalM m t = Some a -> m t = (Some a, execM m t).
Proof. unfold evalM, execM. destruct (m t). simpl. congruence. Qed.

Lemma addItem_loop (alias : TokenizerAlias) (id : Id)
    (l : list (nat * Hash)) (t : Tokenizer) :
  let m := forM l (fun '(index, hash) => addItem_at alias id index hash) in
  evalM m t = Some tt
  /\ aliases (execM m t) = aliases t
  /\ (forall h id',
        occurrences id' (postingsOf (execM m t) h)
        = (occurrences id' (postingsOf t h)
           + if decide (id = id') then occurrences h (l.*2) else 0)%nat)
  /\ totalPostings (execM m t) = (totalPostings t + List.length l)%nat.
Proof.
  cbv zeta. revert t. induction l as [|[index hash] l IH]; intros t.
  - change (execM (forM [] (fun '(index, hash) =>
                              addItem_at alias id index hash)) t) with t.
    split; [reflexivity|]. split; [reflexivity|]. split.
    + intros h id'. destruct (decide _); [|lia].
      change (occurrences h ([] : list (nat * Hash)).*2) with 0%nat. lia.
    + simpl. now rewrite Nat.add_0_r.
  - destruct (addItem_at_run alias id index hash t) as (Hv & Ha & Hp).
    apply run_eq in Hv.
    set (t1 := execM (addItem_at alias id index hash) t) in *.
    unfold evalM, execM.
    rewrite (forM_cons (fun '(index, hash) => addItem_at alias id index hash)
               (index, hash) l t t1 Hv).
    destruct (IH t1) as (IHv & IHa & IHp & IHt).
    split; [exact IHv|]. split; [unfold execM in IHa; congruence|]. split.
    + intros h id'. unfold execM in IHp. rewrite IHp.
      rewrite (postingsOf_insert t t1 hash h _ Hp).
      rewrite fmap_cons. simpl snd. rewrite (occurrences_cons h hash).
      destruct (decide (hash = h)) as [->|Hne].
      * rewrite occurrences_app, (occurrences_cons id' id).
        change (occurrences id' []) with 0%nat.
        destruct (decide (id = id')); lia.
      * destruct (decide (id = id')); lia.
    + unfold execM in IHt. rewrite IHt. unfold totalPostings. rewrite Hp.
      unfold postingsOf. rewrite count_postings_push. simpl. lia.
Qed.

Lemma entries_snd {A} (l : list A) : (entries l).*2 = l.
Proof.
  unfold entries.
  assert (H : forall f : nat -> nat, (imap (fun i x => (f i, x)) l).*2 = l).
  { induction l as [|x l IH]; intros f; simpl; [reflexivity|].
    f_equal. apply (IH (f ∘ S)). }
  apply (H id).
Qed.

Lemma entries_length {A} (l : list A) :
  List.length (entries l) = List.length l.
Proof. apply length_imap. Qed.

(** [addItem] returns, appends the alias, and pushes its id once per
    occurrence of a fingerprint on the postings list of that fingerprint. *)
Lemma addItem_run (alias : TokenizerAlias) (t : Tokenizer) :
  let t' := execM (addItem alias) t in
  evalM (addItem alias) t = Some tt
  /\ aliases t' = aliases t ++ [alias]
  /\ (forall h id',
        occurrences id' (postingsOf t' h)
        = (occurrences id' (postingsOf t h)
           + if decide (List.length (aliases t) = id')
             then occurrences h (hashes alias) else 0)%nat)
  /\ totalPostings t'
     = (totalPostings t + List.length (hashes alias))%nat.
Proof.
  cbv zeta. unfold addItem, evalM, execM.
  rewrite bind_gets, bind_modify.
  set (t0 := set_aliases (fun als => als ++ [alias]) t).
  destruct (addItem_loop alias (List.length (aliases t))
              (entries (hashes alias)) t0) as (Hv & Ha & Hp & Ht).
  unfold evalM, execM in *.
  rewrite entries_snd in Hp. rewrite entries_length in Ht.
  split; [exact Hv|]. split; [exact Ha|]. split; [exact Hp | exact Ht].
Qed.

Lemma index_inv_new tm np debug : index_inv (new_Tokenizer tm np debug).
Proof. split; [intros h id|]; reflexivity. Qed.

Lemma index_inv_addItem (alias : TokenizerAlias) (t : Tokenizer) :
  index_inv t -> index_inv (execM (addItem alias) t).
Proof.
  intros [Hocc Htot].
  destruct (addItem_run alias t) as (_ & Ha & Hp & Ht).
  split.
  - intros h id. rewrite Hp, Ha, Hocc.
    destruct (decide (List.length (aliases t) = id)) as [<-|Hne].
    + rewrite lookup_ge_None_2 by lia.
      rewrite list_lookup_middle by reflexivity. reflexivity.
    + destruct (decide (id < List.length (aliases t))%nat) as [Hlt|Hge].
      * rewrite lookup_app_l by exact Hlt. lia.
      * rewrite !lookup_ge_None_2; [lia | | lia].
        rewrite length_app. simpl. lia.
  - rewrite Ht, Ha, Htot, sum_list_with_app. simpl. lia.
Qed.

Lemma addItems_run (als : list TokenizerAlias) (t : Tokenizer) :
  index_inv t ->
  evalM (addItems als) t = Some tt
  /\ aliases (execM (addItems als) t) = aliases t ++ als
  /\ index_inv (execM (addItems als) t).
Proof.
  revert t. induction als as [|alias als IH]; intros t Hinv.
  - split; [reflexivity|]. split; [|exact Hinv].
    symmetry. apply app_nil_r.
  - destruct (addItem_run alias t) as (Hv & Ha & _).
    apply run_eq in Hv.
    pose proof (index_inv_addItem alias t Hinv) as Hinv1.
    set (t1 := execM (addItem alias) t) in *.
    unfold addItems, evalM, execM.
    rewrite (forM_cons addItem alias als t t1 Hv).
    destruct (IH t1 Hinv1) as (IHv & IHa & IHi).
    split; [exact IHv|]. split; [|exact IHi].
    unfold addItems, execM in IHa. rewrite IHa, Ha, <- app_assoc. reflexivity.
Qed.

Lemma index_inv_wf (t : Tokenizer) : index_inv t -> wf_postings t.
Proof.
  intros [Hocc _] h ids id Hp Hid.
  specialize (Hocc h id). unfold postingsOf in Hocc. rewrite Hp in Hocc.
  simpl in Hocc. apply occurrences_pos in Hid.
  destruct (aliases t !! id); [eauto | lia].
Qed.

(** C6.  After any sequence of [addItem] calls on a new tokenizer, for every
    registered alias [A], of id [id], and every fingerprint [h] of [A.hashes],
    the postings list of [h] contains [id], once per occurrence of [h] in
    [A.hashes]; and the postings lists have together as many entries as the
    registered aliases have fingerprints. *)
Theorem postings_invariant (tm : TermModel) (np : option NumberParser)
    (debug : bool) (als : list TokenizerAlias) :
  let t := execM (addItems als) (new_Tokenizer tm np debug) in
  evalM (addItems als) (new_Tokenizer tm np debug) = Some tt
  /\ aliases t = als
  /\ (forall id A h,
        als !! id = Some A ->
        h ∈ hashes A ->
        id ∈ postingsOf t h
        /\ occurrences id (postingsOf t h) = occurrences h (hashes A))
  /\ totalPostings t
     = sum_list_with (fun A => List.length (hashes A)) als.
Proof.
  intros t.
  destruct (addItems_run als _ (index_inv_new tm np debug))
    as (Hv & Ha & Hocc & Htot).
  fold t in Ha, Hocc, Htot. simpl in Ha.
  split; [exact Hv|]. split; [exact Ha|]. split.
  - intros id A h HA Hh.
    assert (Hc : occurrences id (postingsOf t h) = occurrences h (hashes A)).
    { rewrite Hocc, Ha, HA. reflexivity. }
    split; [|exact Hc].
    apply occurrences_pos. rewrite Hc. now apply occurrences_pos.
  - rewrite Htot, Ha. reflexivity.
Qed.

(** ** Positions without a match, and number edges *)

Lemma wf_postings_new tm np debug : wf_postings (new_Tokenizer tm np debug).
Proof. apply index_inv_wf, index_inv_new. Qed.

(** The edge list that [generateGraph] itself builds for a position without
    alias edge and number edge, and hands to [DynamicGraph], is empty. *)
Lemma generateGraph_empty_list (t : Tokenizer)
    (hashed : list Hash) (stemmed : list string) :
  wf_postings t ->
  exists ls,
    evalM (generateGraph hashed stemmed) t = Some (DynamicGraph ls)
    /\ List.length ls = List.length hashed
    /\ forall i h,
         hashed !! i = Some h ->
         postingsOf t h = [] ->
         (forall parser,
            numberParser t = Some parser ->
            parse parser (drop i hashed) = []) ->
         ls !! i = Some [].
Proof.
  intros Hwf.
  destruct (generateGraph_lattice t hashed stemmed Hwf) as (ls & Hv & Hlen & Hat).
  exists ls. split; [exact Hv|]. split; [exact Hlen|].
  intros i h Hi Hp Hn.
  destruct (Hat i h Hi) as (scored & Hls & Hall).
  unfold postingsOf in Hp. rewrite Hp in Hall. inversion Hall; subst.
  rewrite Hls. unfold numberEdges.
  destruct (numberParser t) as [parser|]; [|reflexivity].
  rewrite (Hn parser eq_refl). reflexivity.
Qed.

Lemma offered_unknownEdge (ls : list (list Edge)) (i : nat) :
  (i < List.length ls)%nat -> unknownEdge ∈ offered (DynamicGraph ls) i.
Proof.
  intros Hlt. unfold offered. simpl.
  destruct (lookup_lt_is_Some_2 ls i Hlt) as [es ->].
  apply elem_of_app. right. now left.
Qed.

Lemma completes_by_unknown_edges (ls : list (list Edge)) (k : nat) :
  forall i,
    (i + k = List.length ls)%nat ->
    completes (DynamicGraph ls) (List.length ls) i (replicate k unknownEdge).
Proof.
  induction k as [|k IH]; intros i Hi; simpl.
  - replace i with (List.length ls) by lia. constructor.
  - apply completes_edge.
    + apply offered_unknownEdge. lia.
    + reflexivity.
    + apply IH. simpl. lia.
Qed.

(** C3.  For a tokenizer whose postings name registered aliases only,
    [generateGraph] returns a lattice that offers, at every position for
    which it made no alias edge and no number edge, a single edge: the
    unknown edge, of score 0, length 1 and label -1.  Every position of the
    query offers at least one edge, and from every position there is a path
    of offered edges to the end of the query.  [generateGraph] itself hands
    an empty edge list for such a position to [DynamicGraph]; the unknown
    edge is offered by the graph, which is modelled from the
    specification. *)
Theorem unmatched_position_unknown_edge (t : Tokenizer)
    (hashed : list Hash) (stemmed : list string) :
  wf_postings t ->
  exists g,
    evalM (generateGraph hashed stemmed) t = Some g
    /\ (forall i h,
          hashed !! i = Some h ->
          postingsOf t h = [] ->
          (forall parser,
             numberParser t = Some parser ->
             parse parser (drop i hashed) = []) ->
          offered g i
          = [{| e_score := Num.ofZ 0; e_length := 1; e_label := -1;
                e_isNumber := false |}])
    /\ (forall i, (i < List.length hashed)%nat -> offered g i ≠ [])
    /\ (forall i,
          (i <= List.length hashed)%nat ->
          exists p, completes g (List.length hashed) i p).
Proof.
  intros Hwf.
  destruct (generateGraph_empty_list t hashed stemmed Hwf)
    as (ls & Hv & Hlen & Hempty).
  exists (DynamicGraph ls). split; [exact Hv|]. split; [|split].
  - intros i h Hi Hp Hn. unfold offered. simpl.
    rewrite (Hempty i h Hi Hp Hn). reflexivity.
  - intros i Hi Hnil.
    assert (Hin : unknownEdge ∈ offered (DynamicGraph ls) i)
      by (apply offered_unknownEdge; lia).
    rewrite Hnil in Hin. inversion Hin.
  - intros i Hi. exists (replicate (List.length hashed - i) unknownEdge).
    rewrite <- Hlen. apply completes_by_unknown_edges. lia.
Qed.

Lemma unmatched_position_unknown_edge_witness :
  exists g,
    evalM (generateGraph [7%N] ["x"%string]) Example.tokenizer = Some g
    /\ offered g 0 = [unknownEdge]
    /\ exists p, completes g 1 0 p.
Proof.
  destruct (unmatched_position_unknown_edge Example.tokenizer [7%N]
              ["x"%string] (wf_postings_new _ _ _)) as (g & Hv & H & _ & Hp).
  exists g. split; [exact Hv|]. split.
  - apply (H 0%nat 7%N); [reflexivity | reflexivity |].
    intros parser Hparser. injection Hparser as <-. reflexivity.
  - apply (Hp 0%nat). simpl. lia.
Defined.

(** Every match of the number parser at a position becomes an edge of that
    position, with the value as label. *)
Lemma number_edge_in_lattice (t : Tokenizer) (parser : NumberParser)
    (hashed : list Hash) (stemmed : list string) (i : nat) (h : Hash)
    (value : NumberMatch) :
  wf_postings t ->
  numberParser t = Some parser ->
  hashed !! i = Some h ->
  value ∈ parse parser (drop i hashed) ->
  exists ls es,
    evalM (generateGraph hashed stemmed) t = Some (DynamicGraph ls)
    /\ ls !! i = Some es
    /\ numberEdgeOf hashed i value ∈ es.
Proof.
  intros Hwf Hnp Hi Hv.
  destruct (generateGraph_lattice t hashed stemmed Hwf) as (ls & Hev & _ & Hat).
  destruct (Hat i h Hi) as (scored & Hls & _).
  exists ls, (Array_sort byScore (scored ++ numberEdges t hashed i)).
  split; [exact Hev|]. split; [exact Hls|].
  apply elem_of_Array_sort, elem_of_app. right.
  unfold numberEdges. rewrite Hnp. now apply list_elem_of_fmap_2.
Qed.

(** [L/L * (d/n) * (n/n) * n = d]: the product of the factors of an exact
    match that starts the query. *)
Lemma Qc_score_identity (L n d : Qc) :
  L ≠ 0%Qc -> n ≠ 0%Qc -> (L / L * (d / n) * (n / n) * n)%Qc = d.
Proof. intros HL Hn. field. split; assumption. Qed.

(** The score of a number edge is the number of distinct fingerprints of the
    match: [commonFactor] counts the fingerprints of the match once each. *)
Lemma number_edge_score (hashed : list Hash) (i : nat) (value : NumberMatch) :
  (i < List.length hashed)%nat ->
  (1 <= nm_length value)%nat ->
  let match_ := take (nm_length value) (drop i hashed) in
  let edge := numberEdgeOf hashed i value in
  e_label edge = nm_value value
  /\ e_length edge = Z.of_nat (nm_length value)
  /\ e_isNumber edge = true
  /\ e_score edge = Num.ofNat (size (list_to_set match_ : gset Hash)).
Proof.
  intros Hi Hlen match_ edge.
  split; [reflexivity|]. split; [simpl; lia|]. split; [reflexivity|].
  subst edge. unfold numberEdgeOf. simpl e_score.
  set (diff := numberDiff hashed i value).
  assert (Hm : diff_match diff = match_) by reflexivity.
  assert (Hne : match_ ≠ []).
  { subst match_. intros E. apply (f_equal List.length) in E.
    rewrite length_take, length_drop in E. simpl in E. lia. }
  set (d := size (list_to_set match_ : gset Hash)).
  assert (Hd : (1 <= d)%nat).
  { subst d. destruct match_ as [|x l]; [congruence|].
    assert (x ∈ (list_to_set (x :: l) : gset Hash))
      by (apply elem_of_list_to_set; now left).
    destruct (size (list_to_set (x :: l) : gset Hash)) eqn:E; [|lia].
    apply size_empty_inv in E. exfalso. revert H. rewrite E. apply not_elem_of_empty. }
  assert (Hbase : baseScore diff = Num.ofNat d).
  { unfold baseScore, matchFactor, commonFactor, positionFactor, lengthFactor.
    rewrite Hm. simpl rightmostA. simpl cost. simpl leftmostA.
    simpl commonTerms. fold match_. fold d.
    assert (Hn : (1 <= List.length match_)%nat)
      by (destruct match_; [congruence | simpl; lia]).
    replace (Z.of_nat (nm_length value) - 1 + 1 >? 0) with true
      by (symmetry; apply Z.gtb_lt; lia).
    rewrite !Z.sub_0_r. rewrite Z.max_l by lia.
    unfold Num.ofNat. rewrite !NumFacts.div_ofZ by lia.
    unfold Num.ofZ. rewrite !NumFacts.mul_Fin. f_equal.
    apply Qc_score_identity; apply NumFacts.ofZ_nonzero; lia. }
  rewrite finalScore_cases, Hbase.
  assert (Hall : forall prefix,
             allDownstream prefix isNeverDownstreamTerm diff = false).
  { intros prefix. apply not_true_iff_false. intros H. apply allDownstream_true in H.
    destruct H as (_ & H & _). simpl commonTerms in H. fold match_ in H.
    destruct match_ as [|x l]; [congruence|].
    specialize (H x). unfold isNeverDownstreamTerm in H.
    assert (x ∈ (list_to_set (x :: l) : gset Hash))
      by (apply elem_of_list_to_set; now left).
    specialize (H H0). discriminate. }
  rewrite Hall. unfold Num.ofNat. rewrite NumFacts.leb_ofZ_cent.
  rewrite bool_decide_eq_false_2 by lia. reflexivity.
Qed.

(** When the fingerprints of the match are pairwise distinct the score of the
    number edge is the length of the match. *)
Lemma number_edge_score_distinct (hashed : list Hash) (i : nat)
    (value : NumberMatch) :
  (i < List.length hashed)%nat ->
  (1 <= nm_length value)%nat ->
  NoDup (take (nm_length value) (drop i hashed)) ->
  e_score (numberEdgeOf hashed i value)
  = Num.ofNat (List.length (take (nm_length value) (drop i hashed))).
Proof.
  intros Hi Hlen Hnd.
  destruct (number_edge_score hashed i value Hi Hlen) as (_ & _ & _ & ->).
  now rewrite size_list_to_set.
Qed.

(** C4 at [two hundred two].  The query [2 100 2] is matched as the number
    202, of length 3.  The lattice has the number edge with label 202 and
    length 3 at position 0, scored from the synthetic diff; its match has
    three fingerprints, but its score is 2, the number of distinct ones:
    [commonFactor] is 2/3, not 1.  The edge of 200, of score 2 as well, is
    sorted before it. *)
Theorem number_edge_repeated_term :
  let hashed := [2%N; 100%N; 2%N] in
  let value := mkNumberMatch 202 3 in
  let edge := numberEdgeOf hashed 0 value in
  value ∈ parse Example.np (drop 0 hashed)
  /\ (exists ls es,
        evalM (generateGraph hashed ["two"; "hundr"; "two"]%string)
              Example.tokenizer
        = Some (DynamicGraph ls)
        /\ ls !! 0%nat = Some es
        /\ edge ∈ es
        /\ map e_label es = [200; 202; 2])
  /\ e_label edge = 202
  /\ e_length edge = 3
  /\ List.length (diff_match (numberDiff hashed 0 value)) = 3%nat
  /\ commonFactor (numberDiff hashed 0 value) = Fin (Q2Qc (2 # 3))
  /\ e_score edge = Num.ofZ 2
  /\ e_score edge ≠ Num.ofZ 3.
Proof.
  intros hashed value edge.
  assert (Hin : value ∈ parse Example.np (drop 0 hashed)).
  { simpl. apply list_elem_of_lookup. exists 2%nat. reflexivity. }
  assert (Hscore : e_score edge = Num.ofZ 2).
  { unfold edge.
    destruct (number_edge_score hashed 0 value) as (_ & _ & _ & ->);
      [simpl; lia | simpl; lia |].
    reflexivity. }
  split; [exact Hin|]. split.
  { destruct (generateGraph_lattice Example.tokenizer hashed
                ["two"; "hundr"; "two"]%string (wf_postings_new _ _ _))
      as (ls & Hev & _ & Hat).
    destruct (Hat 0%nat 2%N eq_refl) as (scored & Hls & Hall).
    inversion Hall; subst.
    eexists ls, _. split; [exact Hev|]. split; [exact Hls|]. split.
    - apply elem_of_Array_sort, list_elem_of_lookup. exists 2%nat. reflexivity.
    - reflexivity. }
  split; [reflexivity|]. split; [reflexivity|]. split; [reflexivity|].
  split.
  { unfold commonFactor. f_equal. }
  split; [exact Hscore|].
  rewrite Hscore. intros H. apply (f_equal (fun x => Num.leb x (Num.ofZ 2))) in H.
  vm_compute in H. discriminate.
Qed.

(** ** The lexicon: registration *)

Lemma elem_of_foldl_add (s : gset Hash) (l : list Hash) (h : Hash) :
  h ∈ foldl (fun acc hash => {[hash]} ∪ acc) s l <-> h ∈ s \/ h ∈ l.
Proof.
  revert s. induction l as [|x l IH]; intros s; simpl.
  - split; [now left | intros [H|H]; [exact H | inversion H]].
  - rewrite IH, elem_of_union, elem_of_singleton, elem_of_cons. tauto.
Qed.

(** The constructor registers every alias it is given, in order, whatever its
    text. *)
Lemma Domain_new_aliases (aliases : list Alias) (tm : TermModel)
    (forIngestion : bool) :
  Domain.tokenizerAliases (Domain.new aliases tm forIngestion)
  = map (Domain.entryOf tm) aliases.
Proof.
  unfold Domain.new.
  set (d0 := {| Domain.termModel := tm; Domain.tokenizerAliases := [];
                Domain.ownTerms := ∅; Domain.downstreamTerms := ∅;
                Domain.forIngestion := forIngestion |}).
  change (map (Domain.entryOf tm) aliases)
    with (Domain.tokenizerAliases d0 ++ map (Domain.entryOf tm) aliases).
  generalize d0. clear d0.
  induction aliases as [|alias aliases IH]; intros d; simpl.
  - now rewrite app_nil_r.
  - rewrite IH. simpl. now rewrite <- app_assoc.
Qed.

Lemma Domain_new_ownTerms (aliases : list Alias) (tm : TermModel)
    (forIngestion : bool) (h : Hash) :
  h ∈ Domain.ownTerms (Domain.new aliases tm forIngestion)
  <-> exists alias,
        alias ∈ aliases /\ h ∈ Domain.hashes (Domain.entryOf tm alias).
Proof.
  unfold Domain.new.
  set (d0 := {| Domain.termModel := tm; Domain.tokenizerAliases := [];
                Domain.ownTerms := ∅; Domain.downstreamTerms := ∅;
                Domain.forIngestion := forIngestion |}).
  assert (H : forall d,
    h ∈ Domain.ownTerms (foldl (Domain.register tm) d aliases)
    <-> h ∈ Domain.ownTerms d
        \/ exists alias,
             alias ∈ aliases /\ h ∈ Domain.hashes (Domain.entryOf tm alias)).
  { induction aliases as [|alias aliases IH]; intros d; simpl.
    - split; [now left | intros [H|(a & Ha & _)]; [exact H | inversion Ha]].
    - rewrite IH. simpl. rewrite elem_of_foldl_add. split.
      + intros [[H|H]|(a & Ha & Hh)].
        * now left.
        * right. exists alias. split; [now left | exact H].
        * right. exists a. split; [now right | exact Hh].
      + intros [H|(a & Ha & Hh)].
        * left. now left.
        * apply elem_of_cons in Ha as [->|Ha].
          -- left. now right.
          -- right. eauto. }
  rewrite H. simpl. split; [intros [Hd|He]; [set_solver | exact He] | now right].
Qed.

(** C8, as the code has it.  [addDomain] rejects nothing: the domain it adds
    has one alias for each alias given, in order; an alias whose text is empty
    is registered with the single, empty, term, stemmed and hashed like any
    other term, and the fingerprint of that term is an own term of the
    domain. *)
Theorem addDomain_registers_empty_text (self : Lexicon.Lexicon)
    (aliases : list Alias) (forIngestion : bool) (i : nat) (alias : Alias) :
  aliases !! i = Some alias ->
  a_text alias = EmptyString ->
  let tm := Lexicon.termModel self in
  exists domain entry,
    Lexicon.domains (Lexicon.addDomain self aliases forIngestion)
    = Lexicon.domains self ++ [domain]
    /\ List.length (Domain.tokenizerAliases domain) = List.length aliases
    /\ Domain.tokenizerAliases domain !! i = Some entry
    /\ Domain.token entry = a_token alias
    /\ Domain.text entry = EmptyString
    /\ Domain.terms entry = [EmptyString]
    /\ Domain.stemmed entry = [stem tm EmptyString]
    /\ Domain.hashes entry = [hashTerm tm (stem tm EmptyString)]
    /\ hashTerm tm (stem tm EmptyString) ∈ Domain.ownTerms domain.
Proof.
  intros Hi Htext tm.
  exists (Domain.new aliases tm forIngestion), (Domain.entryOf tm alias).
  split; [reflexivity|].
  rewrite Domain_new_aliases, length_map.
  split; [reflexivity|].
  split; [rewrite list_lookup_fmap, Hi; reflexivity|].
  unfold Domain.entryOf. simpl. rewrite Htext. simpl.
  repeat (split; [reflexivity|]).
  apply Domain_new_ownTerms. exists alias.
  split; [eapply list_elem_of_lookup_2; exact Hi|].
  unfold Domain.entryOf. simpl. rewrite Htext. simpl. now left.
Qed.

(** ** The lexicon: downstream terms *)

Lemma same_static_refl d : same_static d d.
Proof. repeat split. Qed.

Lemma downstream_of_static numberTerms domains' domains i h :
  Forall2 same_static domains' domains ->
  downstream_of numberTerms domains' i h
  <-> downstream_of numberTerms domains i h.
Proof.
  intros HF. unfold downstream_of. split.
  - intros [H|(j & dj & Hj & Hd & Hh)]; [now left|]. right.
    destruct (Forall2_lookup_l _ _ _ _ _ HF Hd) as (d & Hd' & Hs).
    exists j, d. destruct Hs as (_ & _ & <- & _). auto.
  - intros [H|(j & dj & Hj & Hd & Hh)]; [now left|]. right.
    destruct (Forall2_lookup_r _ _ _ _ _ HF Hd) as (d & Hd' & Hs).
    exists j, d. destruct Hs as (_ & _ & -> & _). auto.
Qed.

Lemma addDownstreamTerms_static i d numberTerms domains :
  same_static (Domain.addDownstreamTerms i d numberTerms domains) d.
Proof.
  unfold Domain.addDownstreamTerms.
  destruct (Domain.forIngestion d) eqn:E; [|apply same_static_refl].
  repeat split. simpl. now rewrite E.
Qed.

Lemma addDownstreamTerms_spec i d numberTerms domains h :
  Domain.forIngestion d = true ->
  h ∈ Domain.downstreamTerms (Domain.addDownstreamTerms i d numberTerms domains)
  <-> downstream_of numberTerms domains i h.
Proof.
  intros Hf. unfold Domain.addDownstreamTerms. rewrite Hf. simpl.
  unfold downstream_of, entries.
  induction domains as [|dn domains IH] using rev_ind.
  - simpl. split; [now left|].
    intros [H|(j & dj & _ & Hd & _)]; [exact H | discriminate].
  - rewrite imap_app, foldl_app. simpl. rewrite Nat.add_0_r.
    case_bool_decide as Hne.
    + rewrite elem_of_foldl_add, IH, elem_of_elements. split.
      * intros [[H|(j & dj & Hj & Hd & Hh)]|H].
        -- now left.
        -- right. exists j, dj. split; [exact Hj|]. split; [|exact Hh].
           now apply lookup_app_l_Some.
        -- right. exists (List.length domains), dn.
           split; [exact Hne|]. split; [|exact H].
           now rewrite list_lookup_middle.
      * intros [H|(j & dj & Hj & Hd & Hh)]; [left; now left|].
        apply lookup_app_Some in Hd as [Hd|[Hge Hd]].
        -- left. right. eauto.
        -- right.
           destruct (j - List.length domains)%nat as [|k] eqn:Ek;
             [|simpl in Hd; destruct k; discriminate].
           simpl in Hd. injection Hd as ->. exact Hh.
    + rewrite IH. split.
      * intros [H|(j & dj & Hj & Hd & Hh)]; [now left|].
        right. exists j, dj. split; [exact Hj|]. split; [|exact Hh].
        now apply lookup_app_l_Some.
      * intros [H|(j & dj & Hj & Hd & Hh)]; [now left|].
        apply lookup_app_Some in Hd as [Hd|[Hge Hd]]; [right; eauto|].
        exfalso.
        destruct (j - List.length domains)%nat as [|k] eqn:Ek;
          [|simpl in Hd; destruct k; discriminate].
        apply Hj. lia.
Qed.

Lemma ingested_start self0 : ingested self0 self0 [].
Proof.
  split; [reflexivity|]. split; [reflexivity|]. split.
  - apply Forall_Forall2_diag, Forall_forall. intros; apply same_static_refl.
  - intros i d Hi. inversion Hi.
Qed.

Lemma ingested_step self0 self done i :
  ingested self0 self done ->
  ingested self0 (Lexicon.ingest_step self i) (done ++ [i]).
Proof.
  intros (Htm & Hnp & HF & Hdone). unfold Lexicon.ingest_step.
  destruct (Lexicon.domains self !! i) as [d|] eqn:Ed.
  - split; [exact Htm|]. split; [exact Hnp|]. simpl.
    destruct (Forall2_lookup_l _ _ _ _ _ HF Ed) as (d0 & Ed0 & Hs).
    split.
    + rewrite <- (list_insert_id _ _ _ Ed0).
      apply Forall2_insert; [exact HF|].
      destruct (addDownstreamTerms_static i d
                  (ownHashedTerms (Lexicon.numberParser self))
                  (Lexicon.domains self)) as (H1 & H2 & H3 & H4).
      destruct Hs as (H1' & H2' & H3' & H4').
      repeat split; congruence.
    + intros j dj Hj Hlook Hfor h.
      destruct (decide (j = i)) as [->|Hne].
      * rewrite list_lookup_insert_eq in Hlook
          by (eapply lookup_lt_Some; exact Ed).
        injection Hlook as <-.
        destruct (addDownstreamTerms_static i d
                    (ownHashedTerms (Lexicon.numberParser self))
                    (Lexicon.domains self)) as (_ & _ & _ & H4).
        rewrite H4 in Hfor.
        rewrite addDownstreamTerms_spec by exact Hfor.
        rewrite Hnp. now apply downstream_of_static.
      * rewrite list_lookup_insert_ne in Hlook by congruence.
        apply elem_of_app in Hj as [Hj|Hj].
        -- now apply (Hdone j dj).
        -- apply list_elem_of_singleton in Hj. congruence.
  - split; [exact Htm|]. split; [exact Hnp|]. split; [exact HF|].
    intros j dj Hj Hlook Hfor h.
    apply elem_of_app in Hj as [Hj|Hj]; [now apply (Hdone j dj)|].
    apply list_elem_of_singleton in Hj. congruence.
Qed.

Lemma ingested_foldl self0 self done todo :
  ingested self0 self done ->
  ingested self0 (foldl Lexicon.ingest_step self todo) (done ++ todo).
Proof.
  revert self done. induction todo as [|i todo IH]; intros self done H; simpl.
  - now rewrite app_nil_r.
  - replace (done ++ i :: todo) with ((done ++ [i]) ++ todo)
      by (now rewrite <- app_assoc).
    apply IH. now apply ingested_step.
Qed.

Lemma returns_addItem alias : returns (addItem alias).
Proof.
  intros t. destruct (addItem_run alias t) as (-> & _). eexists. reflexivity.
Qed.

Lemma returns_Domain_ingest d : returns (Domain.ingest d).
Proof.
  unfold Domain.ingest. destruct (Domain.forIngestion d).
  - apply returns_forM. intros e. apply returns_addItem.
  - apply returns_ret.
Qed.

Lemma evalM_ingest_at self i t :
  evalM (Lexicon.ingest_at self i) t = Some (Lexicon.ingest_step self i).
Proof.
  unfold Lexicon.ingest_at. cbv zeta.
  destruct (Lexicon.domains (Lexicon.ingest_step self i) !! i) as [d|].
  - apply evalM_then_ret, returns_Domain_ingest.
  - reflexivity.
Qed.

Lemma evalM_foldM_pure {A B} (body : B -> A -> M B) (step : B -> A -> B)
    (l : list A) (acc : B) (t : Tokenizer) :
  (forall acc x t, evalM (body acc x) t = Some (step acc x)) ->
  evalM (foldM body l acc) t = Some (foldl step acc l).
Proof.
  intros H. revert acc t. induction l as [|x l IH]; intros acc t; simpl.
  - reflexivity.
  - specialize (H acc x t). unfold evalM, bind in *.
    destruct (body acc x t) as [[acc'|] t1]; simpl in H; [|discriminate].
    injection H as ->. apply IH.
Qed.

Lemma evalM_Lexicon_ingest self t :
  evalM (Lexicon.ingest self) t
  = Some (foldl Lexicon.ingest_step self
            (seq 0 (List.length (Lexicon.domains self)))).
Proof. apply evalM_foldM_pure. intros. apply evalM_ingest_at. Qed.

(** C5.  [Lexicon.ingest] returns, and afterwards, for every ingestion domain
    [D] (at position [i]) and every fingerprint [h], [D.isDownstreamTerm(h)]
    holds exactly when [h] is a token hash or a number hash of the term model,
    or one of the number parser's own hashed terms, or an own term of a domain
    at another position; the own terms of the domains are what they were
    before.  So an own term of [D] that is also an own term of another domain
    is a downstream term of [D]. *)
Theorem ingest_downstream_terms (self : Lexicon.Lexicon) (t : Tokenizer) :
  exists self',
    evalM (Lexicon.ingest self) t = Some self'
    /\ Forall2 same_static (Lexicon.domains self') (Lexicon.domains self)
    /\ forall i D,
         Lexicon.domains self' !! i = Some D ->
         Domain.forIngestion D = true ->
         (forall h,
            Domain.isDownstreamTerm D h = true
            <-> isTokenHash (Domain.termModel D) h = true
                \/ isNumberHash (Domain.termModel D) h = true
                \/ h ∈ ownHashedTerms (Lexicon.numberParser self)
                \/ exists j Dj,
                     j ≠ i
                     /\ Lexicon.domains self' !! j = Some Dj
                     /\ h ∈ Domain.ownTerms Dj)
         /\ (forall h j Dj,
               h ∈ Domain.ownTerms D ->
               j ≠ i ->
               Lexicon.domains self' !! j = Some Dj ->
               h ∈ Domain.ownTerms Dj ->
               Domain.isDownstreamTerm D h = true).
Proof.
  eexists. split; [apply evalM_Lexicon_ingest|].
  set (n := List.length (Lexicon.domains self)).
  pose proof (ingested_foldl self self [] (seq 0 n) (ingested_start self))
    as (_ & _ & HF & Hdone).
  simpl app in Hdone. split; [exact HF|].
  intros i D HD Hfor.
  assert (Hi : i ∈ seq 0 n).
  { apply elem_of_seq. apply lookup_lt_Some in HD.
    apply Forall2_length in HF. subst n. lia. }
  assert (Hiff : forall h,
    Domain.isDownstreamTerm D h = true
    <-> isTokenHash (Domain.termModel D) h = true
        \/ isNumberHash (Domain.termModel D) h = true
        \/ h ∈ ownHashedTerms (Lexicon.numberParser self)
        \/ exists j Dj,
             j ≠ i
             /\ Lexicon.domains (foldl Lexicon.ingest_step self (seq 0 n)) !! j
                = Some Dj
             /\ h ∈ Domain.ownTerms Dj).
  { intros h. unfold Domain.isDownstreamTerm.
    rewrite !orb_true_iff, bool_decide_eq_true.
    rewrite (Hdone i D Hi HD Hfor h).
    rewrite <- (downstream_of_static _ _ _ i h HF).
    unfold downstream_of. tauto. }
  split; [exact Hiff|].
  intros h j Dj _ Hj HDj Hh. apply Hiff. right. right. right. eauto.
Qed.

(** ** The properties on concrete inputs *)

(** The posting lists and the frequencies of the aliases [a b c], [b c d] and
    [d e f], as the test of the tokenizer expects them. *)
Example posting_lists_abc :
  map (postingsOf ExampleLexicon.abcIndex) [1; 2; 3; 4; 5; 6]%N
  = [[0]; [0; 1]; [0; 1]; [1; 2]; [2]; [2]]%nat
  /\ map (fun h => hashToFrequency ExampleLexicon.abcIndex !! h)
         [1; 2; 3; 4; 5; 6]%N
     = [Some 1; Some 2; Some 2; Some 2; Some 1; Some 1]%nat.
Proof. split; reflexivity. Qed.

(** C8 fails as stated: an alias whose text is empty is registered, with the
    empty term as its single term. *)
Lemma addDomain_accepts_empty_text :
  exists domain,
    Lexicon.domains
      (Lexicon.addDomain ExampleLexicon.empty [ExampleLexicon.emptyAlias] true)
    = [domain]
    /\ map Domain.text (Domain.tokenizerAliases domain) = [EmptyString]
    /\ map Domain.terms (Domain.tokenizerAliases domain) = [[EmptyString]].
Proof. eexists. repeat split. Qed.

Lemma addDomain_registers_empty_text_witness :
  exists domain entry,
    Lexicon.domains
      (Lexicon.addDomain ExampleLexicon.empty [ExampleLexicon.emptyAlias] true)
    = [domain]
    /\ Domain.tokenizerAliases domain !! 0%nat = Some entry
    /\ Domain.terms entry = [EmptyString]
    /\ Domain.hashes entry = [0%N].
Proof.
  destruct (addDomain_registers_empty_text ExampleLexicon.empty
              [ExampleLexicon.emptyAlias] true 0 ExampleLexicon.emptyAlias
              eq_refl eq_refl)
    as (domain & entry & Hd & _ & He & _ & _ & Ht & _ & Hh & _).
  exists domain, entry. repeat split; assumption.
Defined.

Lemma ingest_downstream_terms_witness :
  exists self' D,
    evalM (Lexicon.ingest ExampleLexicon.lexicon) Example.tokenizer = Some self'
    /\ Lexicon.domains self' !! 0%nat = Some D
    /\ Domain.isDownstreamTerm D 3%N = true
    /\ Domain.isDownstreamTerm D 2%N = true
    /\ (Domain.isDownstreamTerm D 4%N = true ->
        exists j Dj,
          j ≠ 0%nat /\ Lexicon.domains self' !! j = Some Dj
          /\ 4%N ∈ Domain.ownTerms Dj).
Proof.
  destruct (ingest_downstream_terms ExampleLexicon.lexicon Example.tokenizer)
    as (self' & Hv & HF & H).
  set (D0 := Domain.new [ExampleLexicon.alias "A" "xxx yyyy"] Example.tm true).
  set (D1 := Domain.new [ExampleLexicon.alias "B" "xxx zzzzz"] Example.tm true).
  assert (HD0 : Lexicon.domains ExampleLexicon.lexicon !! 0%nat = Some D0)
    by reflexivity.
  assert (HD1 : Lexicon.domains ExampleLexicon.lexicon !! 1%nat = Some D1)
    by reflexivity.
  assert (H3 : 3%N ∈ Domain.ownTerms D1) by (vm_compute; reflexivity).
  destruct (Forall2_lookup_r _ _ _ _ _ HF HD0) as (D & HD & (Htm & _ & _ & Hf)).
  destruct (Forall2_lookup_r _ _ _ _ _ HF HD1) as (D' & HD' & (_ & _ & Ho & _)).
  destruct (H 0%nat D HD Hf) as [Hiff _].
  exists self', D. split; [exact Hv|]. split; [exact HD|]. split; [|split].
  - apply Hiff. right. right. right. exists 1%nat, D'.
    split; [discriminate|]. split; [exact HD'|]. now rewrite Ho.
  - apply Hiff. right. right. left. vm_compute. reflexivity.
  - intros H4. apply Hiff in H4 as [H4|[H4|[H4|H4]]].
    + rewrite Htm in H4. discriminate.
    + rewrite Htm in H4. discriminate.
    + vm_compute in H4. discriminate.
    + exact H4.
Defined.

Lemma postings_invariant_witness :
  1%nat ∈ postingsOf ExampleLexicon.abcIndex 2%N
  /\ occurrences 1%nat (postingsOf ExampleLexicon.abcIndex 2%N) = 1%nat
  /\ postingsOf ExampleLexicon.abcIndex 2%N = [0; 1]%nat
  /\ totalPostings ExampleLexicon.abcIndex = 9%nat.
Proof.
  destruct (postings_invariant Example.tm None false ExampleLexicon.abc)
    as (_ & _ & H & Htot).
  fold ExampleLexicon.abcIndex in H, Htot.
  destruct (H 1%nat (ExampleLexicon.indexed [2; 3; 4]%N) 2%N eq_refl)
    as [Hin Hocc].
  { now left. }
  split; [exact Hin|]. split; [exact Hocc|]. split; [reflexivity|].
  exact Htot.
Defined.

Lemma score_total_witness :
  exists r q,
    evalM (score [1; 2; 3]%N [1; 2]%N isNeverDownstreamTerm
             ExampleLexicon.diff) Example.tokenizer
    = Some r
    /\ s_score r = Fin q
    /\ s_length r = 2.
Proof.
  destruct (score_total [1; 2; 3]%N [1; 2]%N isNeverDownstreamTerm
              ExampleLexicon.diff Example.tokenizer) as (_ & _ & H & _).
  - discriminate.
  - simpl. lia.
  - exact H.
Defined.

Lemma score_rejection_witness :
  exists r,
    evalM (Binary64.score [1; 2; 3]%N [1; 2]%N isNeverDownstreamTerm
             ExampleLexicon.diff) Example.tokenizer
    = Some r
    /\ Binary64.s_score r = Binary64.baseScore ExampleLexicon.diff.
Proof.
  destruct (score_rejection [1; 2; 3]%N [1; 2]%N isNeverDownstreamTerm
              ExampleLexicon.diff Example.tokenizer) as (r & Hv & _ & H).
  exists r. split; [exact Hv|]. apply H.
  intros [(_ & _ & Hne)|Hb].
  - apply Hne. vm_compute. reflexivity.
  - vm_compute in Hb. discriminate.
Defined.

(** * Further properties *)

(** ** The index: frequencies, keys and order of the postings *)

Lemma forM_invariant {A} (body : A -> M unit) (P : Tokenizer -> Prop)
    (l : list A) (t : Tokenizer) :
  (forall x t, x ∈ l -> P t -> P (execM (body x) t)) ->
  (forall x, returns (body x)) ->
  P t -> P (execM (forM l body) t).
Proof.
  intros Hstep Hret. revert t. induction l as [|x l IH]; intros t HP.
  - exact HP.
  - destruct (Hret x t) as [[] Hx]. apply run_eq in Hx.
    unfold execM. rewrite (forM_cons body x l t _ Hx).
    apply IH.
    + intros y t' Hy. apply Hstep. now right.
    + apply Hstep; [now left | exact HP].
Qed.

(** What one turn of the loop of [addItem] does to each field. *)
Lemma addItem_at_fields (alias : TokenizerAlias) (id : Id) (index : nat)
    (hash : Hash) (t : Tokenizer) :
  let t' := execM (addItem_at alias id index hash) t in
  hashToText t'
  = match hashToText t !! hash with
    | Some _ => hashToText t
    | None => <[hash := stemmed alias !! index]> (hashToText t)
    end
  /\ hashToFrequency t'
     = <[hash := S (default 0%nat (hashToFrequency t !! hash))]>
         (hashToFrequency t)
  /\ postings t' = <[hash := postingsOf t hash ++ [id]]> (postings t)
  /\ aliases t' = aliases t
  /\ logged t' = logged t
  /\ debugMode t' = debugMode t
  /\ termModel t' = termModel t
  /\ numberParser t' = numberParser t.
Proof.
  unfold addItem_at, execM, postingsOf.
  rewrite bind_gets.
  destruct (hashToText t !! hash) as [s|] eqn:Et; simpl.
  - rewrite bind_ret, bind_gets. simpl.
    destruct (hashToFrequency t !! hash); rewrite bind_modify, bind_gets; simpl;
      destruct (postings t !! hash); simpl; repeat split.
  - rewrite bind_modify, bind_gets. simpl.
    destruct (hashToFrequency t !! hash); rewrite bind_modify, bind_gets; simpl;
      destruct (postings t !! hash); simpl; repeat split.
Qed.

Lemma returns_addItem_at alias id index hash :
  returns (addItem_at alias id index hash).
Proof.
  intros t. destruct (addItem_at_run alias id index hash t) as (-> & _).
  eexists. reflexivity.
Qed.

Lemma index_keys_new tm np debug : index_keys (new_Tokenizer tm np debug).
Proof.
  split; [|split]; intros h; simpl; rewrite ?lookup_empty.
  - reflexivity.
  - discriminate.
  - split; intros [? ?]; discriminate.
Qed.

Lemma index_keys_addItem_at alias id index hash t :
  index_keys t -> index_keys (execM (addItem_at alias id index hash) t).
Proof.
  intros (Hf & Hne & Hk).
  destruct (addItem_at_fields alias id index hash t)
    as (Ht & Hfr & Hp & _).
  split; [|split]; intros h.
  - rewrite Hfr, Hp, !lookup_insert. unfold postingsOf.
    destruct (decide (hash = h)) as [->|Hn]; [|apply Hf].
    rewrite Hf. destruct (postings t !! h) as [ids|]; simpl;
      rewrite ?length_app; simpl; do 2 f_equal; lia.
  - rewrite Hp, lookup_insert.
    destruct (decide (hash = h)) as [->|Hn]; [|apply Hne].
    intros H. injection H as H. now apply app_nil in H as [_ H].
  - rewrite Ht, Hp, lookup_insert.
    destruct (decide (hash = h)) as [->|Hn].
    + destruct (hashToText t !! h) eqn:E.
      * rewrite E. split; eauto.
      * rewrite lookup_insert_eq. split; eauto.
    + destruct (hashToText t !! hash) eqn:E.
      * apply Hk.
      * rewrite lookup_insert_ne by exact Hn. apply Hk.
Qed.

Lemma set_aliases_index_keys f t : index_keys t -> index_keys (set_aliases f t).
Proof. intros H. exact H. Qed.

Lemma addItem_unfold alias t :
  execM (addItem alias) t
  = execM (forM (entries (hashes alias))
             (fun '(index, hash) =>
                addItem_at alias (List.length (aliases t)) index hash))
          (set_aliases (fun als => als ++ [alias]) t).
Proof. reflexivity. Qed.

Lemma index_keys_addItem alias t :
  index_keys t -> index_keys (execM (addItem alias) t).
Proof.
  intros H. rewrite addItem_unfold.
  apply forM_invariant.
  - intros [index hash] t' _. apply index_keys_addItem_at.
  - intros [index hash]. apply returns_addItem_at.
  - exact H.
Qed.

Lemma addItems_invariant (P : Tokenizer -> Prop) als t :
  (forall alias t, P t -> P (execM (addItem alias) t)) ->
  P t -> P (execM (addItems als) t).
Proof.
  intros Hstep. apply forM_invariant.
  - intros alias t' _. apply Hstep.
  - apply returns_addItem.
Qed.

Lemma addItem_loop_postings (alias : TokenizerAlias) (id : Id)
    (l : list (nat * Hash)) (t : Tokenizer) (h : Hash) :
  postingsOf
    (execM (forM l (fun '(index, hash) => addItem_at alias id index hash)) t) h
  = postingsOf t h ++ replicate (occurrences h (l.*2)) id.
Proof.
  revert t. induction l as [|[index hash] l IH]; intros t.
  - change (occurrences h ([] : list (nat * Hash)).*2) with 0%nat.
    simpl. now rewrite app_nil_r.
  - destruct (addItem_at_run alias id index hash t) as (Hv & _ & Hp).
    apply run_eq in Hv.
    unfold execM at 1.
    rewrite (forM_cons (fun '(index, hash) => addItem_at alias id index hash)
               (index, hash) l t _ Hv).
    fold (execM (forM l (fun '(index, hash) =>
                           addItem_at alias id index hash))
                (execM (addItem_at alias id index hash) t)).
    rewrite IH, (postingsOf_insert _ _ hash h _ Hp).
    rewrite fmap_cons. simpl snd. rewrite (occurrences_cons h hash).
    destruct (decide (hash = h)) as [->|Hn]; simpl.
    + now rewrite <- app_assoc.
    + reflexivity.
Qed.

Lemma addItem_postings (alias : TokenizerAlias) (t : Tokenizer) (h : Hash) :
  postingsOf (execM (addItem alias) t) h
  = postingsOf t h
    ++ replicate (occurrences h (hashes alias)) (List.length (aliases t)).
Proof.
  rewrite addItem_unfold, addItem_loop_postings, entries_snd. reflexivity.
Qed.

Lemma addItem_aliases (alias : TokenizerAlias) (t : Tokenizer) :
  aliases (execM (addItem alias) t) = aliases t ++ [alias].
Proof. now destruct (addItem_run alias t) as (_ & H & _). Qed.

Lemma addItems_cons alias als t :
  execM (addItems (alias :: als)) t
  = execM (addItems als) (execM (addItem alias) t).
Proof.
  destruct (returns_addItem alias t) as [[] Hv]. apply run_eq in Hv.
  unfold addItems, execM at 1. now rewrite (forM_cons addItem alias als t _ Hv).
Qed.

Lemma addItems_app (l1 l2 : list TokenizerAlias) (t : Tokenizer) :
  execM (addItems (l1 ++ l2)) t = execM (addItems l2) (execM (addItems l1) t).
Proof.
  revert t. induction l1 as [|a l1 IH]; intros t; [reflexivity|].
  simpl app. rewrite !addItems_cons. apply IH.
Qed.

Lemma addItems_postings (als : list TokenizerAlias) (t : Tokenizer) (h : Hash) :
  postingsOf (execM (addItems als) t) h
  = postingsOf t h
    ++ concat (imap (fun i alias =>
                       replicate (occurrences h (hashes alias))
                                 (List.length (aliases t) + i)%nat) als).
Proof.
  revert t. induction als as [|alias als IH]; intros t.
  - simpl. now rewrite app_nil_r.
  - rewrite addItems_cons, IH, addItem_postings, addItem_aliases, length_app.
    rewrite imap_cons. simpl concat. rewrite Nat.add_0_r, <- app_assoc.
    do 3 f_equal. apply imap_ext. intros i x _. simpl. f_equal. lia.
Qed.

Lemma expectedPostings_sorted (g : TokenizerAlias -> nat)
    (als : list TokenizerAlias) (n : nat) :
  let l := concat (imap (fun i alias => replicate (g alias) (n + i)%nat) als) in
  StronglySorted le l
  /\ Forall (fun id => (n <= id < n + List.length als)%nat) l
  /\ List.length l = sum_list_with g als.
Proof.
  revert n. induction als as [|alias als IH]; intros n; simpl.
  - split; [constructor|]. split; [constructor | reflexivity].
  - specialize (IH (S n)).
    rewrite (imap_ext _ (fun i alias => replicate (g alias) (S n + i)%nat))
      by (intros i x _; simpl; f_equal; lia).
    destruct IH as (Hs & Hf & Hl). rewrite Nat.add_0_r.
    split; [|split].
    + apply StronglySorted_app. split; [|split; [|exact Hs]].
      * intros x1 x2 H1 H2. apply elem_of_replicate in H1 as [-> _].
        rewrite Forall_forall in Hf. specialize (Hf x2 H2). lia.
      * clear. induction (g alias) as [|k IHk]; simpl; constructor;
          [exact IHk|]. apply Forall_forall. intros x Hx.
        apply elem_of_replicate in Hx as [-> _]. lia.
    + apply Forall_app. split.
      * apply Forall_forall. intros x Hx.
        apply elem_of_replicate in Hx as [-> _]. lia.
      * eapply Forall_impl; [exact Hf|]. simpl. intros; lia.
    + rewrite length_app, length_replicate, Hl. reflexivity.
Qed.

Lemma sum_occurrences_pos (als : list TokenizerAlias) (h : Hash) :
  (0 < sum_list_with (fun alias => occurrences h (hashes alias)) als)%nat
  <-> exists alias, alias ∈ als /\ h ∈ hashes alias.
Proof.
  induction als as [|a als IH]; simpl.
  - split; [lia | intros (a & Ha & _); inversion Ha].
  - split.
    + intros H.
      destruct (decide (0 < occurrences h (hashes a))%nat) as [Hp|Hz].
      * exists a. split; [now left | now apply occurrences_pos].
      * destruct IH as [IH _]. destruct IH as (b & Hb & Hh); [lia|].
        exists b. split; [now right | exact Hh].
    + intros (b & Hb & Hh). apply elem_of_cons in Hb as [->|Hb].
      * apply occurrences_pos in Hh. lia.
      * destruct IH as [_ IH]. specialize (IH (ex_intro _ b (conj Hb Hh))). lia.
Qed.

(** The index built from a new tokenizer: the facts the properties below
    share. *)
Lemma addItems_index (tm : TermModel) (np : option NumberParser) (debug : bool)
    (als : list TokenizerAlias) (h : Hash) :
  let t := execM (addItems als) (new_Tokenizer tm np debug) in
  let n := sum_list_with (fun alias => occurrences h (hashes alias)) als in
  index_keys t
  /\ postingsOf t h = expectedPostings als h
  /\ List.length (postingsOf t h) = n
  /\ postings t !! h = (if decide (n = 0%nat) then None
                        else Some (expectedPostings als h)).
Proof.
  intros t n.
  assert (Hk : index_keys t).
  { apply addItems_invariant; [apply index_keys_addItem|apply index_keys_new]. }
  assert (Hp : postingsOf t h = expectedPostings als h).
  { unfold t. rewrite addItems_postings. reflexivity. }
  assert (Hl : List.length (postingsOf t h) = n).
  { rewrite Hp.
    destruct (expectedPostings_sorted
                (fun alias => occurrences h (hashes alias)) als 0)
      as (_ & _ & H). exact H. }
  split; [exact Hk|]. split; [exact Hp|]. split; [exact Hl|].
  destruct Hk as (_ & Hne & _). specialize (Hne h).
  unfold postingsOf in Hp, Hl.
  destruct (postings t !! h) as [ids|] eqn:E; simpl in Hp, Hl.
  - destruct (decide (n = 0%nat)) as [Hz|Hnz].
    + destruct ids; [congruence | simpl in Hl; lia].
    + now rewrite Hp.
  - destruct (decide (n = 0%nat)); [reflexivity | lia].
Qed.

Lemma postings_length_aliases (tm : TermModel) (np : option NumberParser)
    (debug : bool) (als : list TokenizerAlias) :
  aliases (execM (addItems als) (new_Tokenizer tm np debug)) = als.
Proof.
  now destruct (addItems_run als _ (index_inv_new tm np debug)) as (_ & H & _).
Qed.

(** X1.  In an index built by [addItem] calls on a new tokenizer, the
    frequency recorded for a fingerprint is the number of its occurrences in
    the [hashes] of all the aliases, which is the length of its postings list;
    a fingerprint that occurs nowhere has no frequency. *)
Theorem frequency_counts_occurrences (tm : TermModel)
    (np : option NumberParser) (debug : bool) (als : list TokenizerAlias)
    (h : Hash) :
  let t := execM (addItems als) (new_Tokenizer tm np debug) in
  let n := sum_list_with (fun alias => occurrences h (hashes alias)) als in
  hashToFrequency t !! h = (if decide (n = 0%nat) then None else Some n)
  /\ hashToFrequency t !! h = List.length <$> postings t !! h.
Proof.
  intros t n.
  destruct (addItems_index tm np debug als h) as ((Hf & _) & Hp & Hl & Hlook).
  fold t in Hf, Hp, Hl, Hlook. fold n in Hl, Hlook.
  split; [|apply Hf].
  rewrite Hf, Hlook. destruct (decide (n = 0%nat)); [reflexivity|].
  simpl. rewrite <- Hp, Hl. reflexivity.
Qed.

Lemma index_keys_are_alias_hashes_aux (tm : TermModel)
    (np : option NumberParser) (debug : bool) (als : list TokenizerAlias)
    (h : Hash) :
  let t := execM (addItems als) (new_Tokenizer tm np debug) in
  is_Some (hashToText t !! h) <-> exists alias, alias ∈ als /\ h ∈ hashes alias.
Proof.
  intros t.
  destruct (addItems_index tm np debug als h)
    as ((_ & _ & Hk) & _ & _ & Hlook).
  fold t in Hk, Hlook.
  rewrite Hk, <- sum_occurrences_pos, Hlook.
  destruct (decide _) as [Hz|Hnz].
  - rewrite Hz. split; [intros [? ?]; discriminate | lia].
  - split; [lia | eauto].
Qed.

(** X2.  The three dictionaries of such an index have the same keys: the
    fingerprints that occur in the [hashes] of a registered alias.  So
    [hash in this.postings] holds exactly for those fingerprints, and the
    postings list found is never empty. *)
Theorem index_keys_are_alias_hashes (tm : TermModel)
    (np : option NumberParser) (debug : bool) (als : list TokenizerAlias)
    (h : Hash) :
  let t := execM (addItems als) (new_Tokenizer tm np debug) in
  let indexed := exists alias, alias ∈ als /\ h ∈ hashes alias in
  (is_Some (postings t !! h) <-> indexed)
  /\ (is_Some (hashToFrequency t !! h) <-> indexed)
  /\ (is_Some (hashToText t !! h) <-> indexed)
  /\ postings t !! h ≠ Some [].
Proof.
  intros t indexed.
  destruct (addItems_index tm np debug als h)
    as ((Hf & Hne & Hk) & _ & _ & Hlook).
  fold t in Hf, Hne, Hk, Hlook.
  assert (Hp : is_Some (postings t !! h) <-> indexed).
  { unfold indexed. rewrite <- sum_occurrences_pos, Hlook.
    destruct (decide _) as [Hz|Hnz].
    - rewrite Hz. split; [intros [? ?]; discriminate | lia].
    - split; [lia | eauto]. }
  split; [exact Hp|]. split; [|split; [|apply Hne]].
  - rewrite Hf, fmap_is_Some. exact Hp.
  - rewrite Hk. exact Hp.
Qed.

(** X3.  The postings list of a fingerprint lists the ids of the aliases in
    the order of registration, each as many times as the fingerprint occurs
    in the alias: it is sorted, and every id in it is the id of a registered
    alias. *)
Theorem postings_sorted_by_id (tm : TermModel) (np : option NumberParser)
    (debug : bool) (als : list TokenizerAlias) (h : Hash) :
  let t := execM (addItems als) (new_Tokenizer tm np debug) in
  postingsOf t h = expectedPostings als h
  /\ StronglySorted le (postingsOf t h)
  /\ Forall (fun id => (id < List.length (aliases t))%nat) (postingsOf t h).
Proof.
  intros t.
  destruct (addItems_index tm np debug als h) as (_ & Hp & _).
  fold t in Hp. rewrite Hp.
  destruct (expectedPostings_sorted
              (fun alias => occurrences h (hashes alias)) als 0)
    as (Hs & Hf & _).
  split; [reflexivity|]. split; [exact Hs|].
  pose proof (postings_length_aliases tm np debug als) as Ha. fold t in Ha.
  rewrite Ha. eapply Forall_impl; [exact Hf|]. simpl. intros; lia.
Qed.

(** ** The index: the text of a fingerprint *)

Lemma addItem_loop_text (alias : TokenizerAlias) (id : Id)
    (l : list (nat * Hash)) (t : Tokenizer) (h : Hash) :
  hashToText
    (execM (forM l (fun '(index, hash) => addItem_at alias id index hash)) t)
    !! h
  = match hashToText t !! h with
    | Some s => Some s
    | None =>
        (fun p : nat * (nat * Hash) => stemmed alias !! p.2.1)
          <$> list_find (fun p : nat * Hash => p.2 = h) l
    end.
Proof.
  revert t. induction l as [|[index hash] l IH]; intros t.
  - unfold execM, forM. simpl. destruct (hashToText t !! h); reflexivity.
  - destruct (addItem_at_run alias id index hash t) as (Hv & _).
    apply run_eq in Hv.
    destruct (addItem_at_fields alias id index hash t) as (Ht & _).
    unfold execM at 1.
    rewrite (forM_cons (fun '(index, hash) => addItem_at alias id index hash)
               (index, hash) l t _ Hv).
    fold (execM (forM l (fun '(index, hash) =>
                           addItem_at alias id index hash))
                (execM (addItem_at alias id index hash) t)).
    rewrite IH, Ht. clear IH Ht Hv. cbn [list_find]. simpl snd.
    destruct (decide (hash = h)) as [->|Hn].
    + destruct (hashToText t !! h) as [s|] eqn:E.
      * rewrite E. reflexivity.
      * rewrite lookup_insert_eq. reflexivity.
    + assert (Hsame :
        match hashToText t !! hash with
        | Some _ => hashToText t
        | None => <[hash := stemmed alias !! index]> (hashToText t)
        end !! h = hashToText t !! h).
      { destruct (hashToText t !! hash); [reflexivity|].
        now rewrite lookup_insert_ne. }
      rewrite Hsame. destruct (hashToText t !! h); [reflexivity|].
      destruct (list_find _ l) as [[pos p]|]; reflexivity.
Qed.

(** X4.  [addItem] records the text of a fingerprint on first sight only: a
    text already recorded is never replaced; a fingerprint without a text gets
    the entry of [stemmed] at its first position in [hashes] (which is
    [undefined], here [None], when [stemmed] is too short); a fingerprint that
    is not in [hashes] stays without a text. *)
Theorem hashToText_first_sight (alias : TokenizerAlias) (t : Tokenizer)
    (h : Hash) :
  let t' := execM (addItem alias) t in
  (forall s, hashToText t !! h = Some s -> hashToText t' !! h = Some s)
  /\ (forall i,
        hashToText t !! h = None ->
        hashes alias !! i = Some h ->
        (forall j, (j < i)%nat -> hashes alias !! j ≠ Some h) ->
        hashToText t' !! h = Some (stemmed alias !! i))
  /\ (hashToText t !! h = None ->
      h ∉ hashes alias ->
      hashToText t' !! h = None).
Proof.
  intros t'. unfold t'. rewrite addItem_unfold, addItem_loop_text.
  change (hashToText (set_aliases (fun als => als ++ [alias]) t))
    with (hashToText t).
  split; [|split].
  - intros s ->. reflexivity.
  - intros i -> Hi Hfirst.
    assert (Hfind : list_find (fun p : nat * Hash => p.2 = h)
                      (entries (hashes alias)) = Some (i, (i, h))).
    { apply list_find_Some. split; [|split; [reflexivity|]].
      - unfold entries. now rewrite list_lookup_imap, Hi.
      - intros j [j' x] Hj Hlt Hx. simpl in Hx. subst x.
        unfold entries in Hj. rewrite list_lookup_imap in Hj.
        destruct (hashes alias !! j) as [y|] eqn:Ey; [|discriminate].
        injection Hj as <- ->. now apply (Hfirst j). }
    rewrite Hfind. reflexivity.
  - intros -> Hnot.
    assert (Hfind : list_find (fun p : nat * Hash => p.2 = h)
                      (entries (hashes alias)) = None).
    { apply list_find_None, Forall_forall. intros [j x] Hj Hx.
      simpl in Hx. subst x. apply Hnot.
      rewrite <- (entries_snd (hashes alias)).
      apply (list_elem_of_fmap_2 snd _ _ Hj). }
    rewrite Hfind. reflexivity.
Qed.

Lemma addItem_text (alias : TokenizerAlias) (t : Tokenizer) (h : Hash) :
  hashToText (execM (addItem alias) t) !! h
  = match hashToText t !! h with
    | Some s => Some s
    | None =>
        (fun p : nat * (nat * Hash) => stemmed alias !! p.2.1)
          <$> list_find (fun p : nat * Hash => p.2 = h) (entries (hashes alias))
    end.
Proof. rewrite addItem_unfold, addItem_loop_text. reflexivity. Qed.

Lemma addItems_text_kept (als : list TokenizerAlias) (t : Tokenizer)
    (h : Hash) (s : option string) :
  hashToText t !! h = Some s ->
  hashToText (execM (addItems als) t) !! h = Some s.
Proof.
  apply (addItems_invariant (fun t => hashToText t !! h = Some s)).
  intros alias t' H. now rewrite addItem_text, H.
Qed.

Lemma list_find_first_position (l : list Hash) (i : nat) (h : Hash) :
  l !! i = Some h ->
  (forall j, (j < i)%nat -> l !! j ≠ Some h) ->
  list_find (fun p : nat * Hash => p.2 = h) (entries l) = Some (i, (i, h)).
Proof.
  intros Hi Hfirst.
  apply list_find_Some. split; [|split; [reflexivity|]].
  - unfold entries. now rewrite list_lookup_imap, Hi.
  - intros j [j' x] Hj Hlt Hx. simpl in Hx. subst x.
    unfold entries in Hj. rewrite list_lookup_imap in Hj.
    destruct (l !! j) as [y|] eqn:Ey; [|discriminate].
    injection Hj as <- ->. now apply (Hfirst j).
Qed.

(** X5.  [decodeTerm] on an index built by [addItem] calls never throws or
    writes.  For a fingerprint that occurs in a registered alias it returns
    the text recorded for it, which is the stem, at the first position of the
    fingerprint, of the first registered alias that has it ([undefined] when
    that alias has fewer stems); for every other fingerprint it returns the
    marker of the fingerprint. *)
Theorem decodeTerm_indexed (tm : TermModel) (np : option NumberParser)
    (debug : bool) (als : list TokenizerAlias) (h : Hash) :
  let t := execM (addItems als) (new_Tokenizer tm np debug) in
  execM (decodeTerm h) t = t
  /\ (forall pre alias post i,
        als = pre ++ alias :: post ->
        (forall a, a ∈ pre -> h ∉ hashes a) ->
        hashes alias !! i = Some h ->
        (forall j, (j < i)%nat -> hashes alias !! j ≠ Some h) ->
        hashToText t !! h = Some (stemmed alias !! i)
        /\ evalM (decodeTerm h) t = Some (DecodedText (stemmed alias !! i)))
  /\ ((forall alias, alias ∈ als -> h ∉ hashes alias) ->
      evalM (decodeTerm h) t = Some (DecodedHash h)).
Proof.
  intros t.
  pose proof (index_keys_are_alias_hashes_aux tm np debug als h) as Hk.
  fold t in Hk.
  unfold decodeTerm, evalM, execM. rewrite bind_gets.
  split; [destruct (hashToText t !! h); reflexivity|]. split.
  - intros pre alias post i -> Hpre Hi Hfirst.
    assert (Ht : hashToText t !! h = Some (stemmed alias !! i)).
    { unfold t. rewrite addItems_app, addItems_cons.
      apply addItems_text_kept. rewrite addItem_text.
      pose proof (index_keys_are_alias_hashes_aux tm np debug pre h) as Hp.
      cbv zeta in Hp.
      destruct (hashToText (execM (addItems pre) (new_Tokenizer tm np debug))
                  !! h) as [s|] eqn:E.
      - exfalso. destruct Hp as [Hp _].
        destruct Hp as (a & Ha & Hh); [eauto|]. exact (Hpre a Ha Hh).
      - now rewrite (list_find_first_position _ i h Hi Hfirst). }
    split; [exact Ht|]. now rewrite Ht.
  - intros Hnot. destruct (hashToText t !! h) as [s|] eqn:E; [|reflexivity].
    exfalso. destruct Hk as [Hk _].
    destruct Hk as (alias & Ha & Hh); [eauto|]. exact (Hnot alias Ha Hh).
Qed.

(** ** The lattice: what it holds *)

Lemma aliasEdgeOf_fields t tail item alias :
  e_label (aliasEdgeOf t tail item alias) = Z.of_nat item
  /\ e_isNumber (aliasEdgeOf t tail item alias) = false.
Proof. split; reflexivity. Qed.

(** The unsorted edges of a position: the alias edges, in the order of the
    postings list, then the number edges, in the order of the matches. *)
Lemma generateGraph_position (t : Tokenizer) hashed stemmed :
  wf_postings t ->
  exists ls,
    evalM (generateGraph hashed stemmed) t = Some (DynamicGraph ls)
    /\ List.length ls = List.length hashed
    /\ forall i h,
         hashed !! i = Some h ->
         exists scored,
           ls !! i
           = Some (Array_sort byScore (scored ++ numberEdges t hashed i))
           /\ e_label <$> scored = Z.of_nat <$> postingsOf t h
           /\ Forall (fun e => e_isNumber e = false) scored
           /\ Forall (fun e =>
                        exists item alias,
                          e_label e = Z.of_nat item
                          /\ aliases t !! item = Some alias
                          /\ e = aliasEdgeOf t (drop i hashed) item alias)
                     scored.
Proof.
  intros Hwf.
  destruct (generateGraph_lattice t hashed stemmed Hwf)
    as (ls & Hev & Hlen & Hat).
  exists ls. split; [exact Hev|]. split; [exact Hlen|].
  intros i h Hi. destruct (Hat i h Hi) as (scored & Hls & Hall).
  exists scored. split; [exact Hls|].
  unfold postingsOf. generalize dependent (default [] (postings t !! h)).
  intros items Hall. clear Hls.
  induction Hall as [|item e items scored (alias & Ha & ->) _ IH].
  - repeat split; constructor.
  - destruct IH as (Hl & Hn & Hf). split; [|split].
    + rewrite !fmap_cons, Hl. reflexivity.
    + constructor; [reflexivity | exact Hn].
    + constructor; [|exact Hf]. exists item, alias. repeat split. exact Ha.
Qed.

Lemma numberEdges_fields t hashed i :
  Forall (fun e => e_isNumber e = true) (numberEdges t hashed i)
  /\ e_label <$> numberEdges t hashed i
     = match numberParser t with
       | Some parser => nm_value <$> parse parser (drop i hashed)
       | None => []
       end.
Proof.
  unfold numberEdges. destruct (numberParser t) as [parser|].
  - split.
    + apply Forall_forall. intros e He.
      apply list_elem_of_fmap in He as (v & -> & _). reflexivity.
    + rewrite <- list_fmap_compose. reflexivity.
  - split; [constructor | reflexivity].
Qed.

(** X6.  The edge list that [generateGraph] builds for a position of the
    query and hands to [DynamicGraph] holds one alias edge for each entry of
    the postings list of the fingerprint there (so an alias that repeats the
    fingerprint has as many edges there), labelled with the ids of that list,
    and one number edge for each match of the number parser on the rest of
    the query, labelled with its value; [generateGraph] puts nothing else in
    it.  The lattice returned offers these edges and the unknown edge at the
    position. *)
Theorem lattice_edges_of_position (t : Tokenizer) (hashed : list Hash)
    (stemmed : list string) :
  wf_postings t ->
  exists ls,
    evalM (generateGraph hashed stemmed) t = Some (DynamicGraph ls)
    /\ forall i h,
         hashed !! i = Some h ->
         exists es aliasEdges numberEdges,
           ls !! i = Some es
           /\ es ≡ₚ aliasEdges ++ numberEdges
           /\ offered (DynamicGraph ls) i
              ≡ₚ aliasEdges ++ numberEdges ++ [unknownEdge]
           /\ e_label <$> aliasEdges = Z.of_nat <$> postingsOf t h
           /\ Forall (fun e => e_isNumber e = false) aliasEdges
           /\ e_label <$> numberEdges
              = match numberParser t with
                | Some parser => nm_value <$> parse parser (drop i hashed)
                | None => []
                end
           /\ Forall (fun e => e_isNumber e = true) numberEdges.
Proof.
  intros Hwf.
  destruct (generateGraph_position t hashed stemmed Hwf)
    as (ls & Hev & _ & Hat).
  exists ls. split; [exact Hev|].
  intros i h Hi. destruct (Hat i h Hi) as (scored & Hls & Hl & Hn & _).
  destruct (numberEdges_fields t hashed i) as (Hnum & Hlab).
  exists (Array_sort byScore (scored ++ numberEdges t hashed i)),
         scored, (numberEdges t hashed i).
  split; [exact Hls|]. split; [apply Array_sort_perm|].
  split.
  { unfold offered. simpl. rewrite Hls, Array_sort_perm.
    now rewrite <- app_assoc. }
  repeat split; assumption.
Qed.


Lemma readonly_tokenFromEdge edge : readonly (tokenFromEdge edge).
Proof. unfold tokenFromEdge. readonly_auto. Qed.

Lemma evalM_tokenFromEdge_alias t tail item alias :
  aliases t !! item = Some alias ->
  evalM (tokenFromEdge (aliasEdgeOf t tail item alias)) t = Some (token alias).
Proof.
  intros Ha. unfold tokenFromEdge. simpl e_isNumber. simpl e_label.
  cbv iota.
  replace (Z.of_nat item =? -1) with false by (symmetry; apply Z.eqb_neq; lia).
  eval_bind.
  replace (Z.of_nat item <? 0) with false by (symmetry; apply Z.ltb_ge; lia).
  rewrite Nat2Z.id, Ha. reflexivity.
Qed.

(** X8.  Every edge that the lattice [generateGraph] returns offers can be
    given to [tokenFromEdge], on the same tokenizer: the call returns, with
    the number token of the label for a number edge, the unknown token for
    the unknown edge, and the token of the alias whose id is the label for
    every other edge, which is an alias edge. *)
Theorem tokenFromEdge_of_lattice (t : Tokenizer) (hashed : list Hash)
    (stemmed : list string) :
  wf_postings t ->
  exists g,
    evalM (generateGraph hashed stemmed) t = Some g
    /\ forall i e,
         e ∈ offered g i ->
         exists tok,
           evalM (tokenFromEdge e) (execM (generateGraph hashed stemmed) t)
           = Some tok
           /\ (e_isNumber e = true -> tok = NumberToken (e_label e))
           /\ (e_isNumber e = false ->
               (e = unknownEdge /\ tok = UnknownToken)
               \/ exists item alias,
                    e_label e = Z.of_nat item
                    /\ aliases t !! item = Some alias
                    /\ tok = token alias).
Proof.
  intros Hwf.
  destruct (generateGraph_position t hashed stemmed Hwf)
    as (ls & Hev & Hlen & Hat).
  exists (DynamicGraph ls). split; [exact Hev|].
  intros i e He.
  destruct (readonly_generateGraph hashed stemmed t t (same_index_refl t))
    as [_ Hsame].
  destruct (readonly_tokenFromEdge e _ _ Hsame) as [-> _].
  unfold offered in He. simpl in He.
  destruct (ls !! i) as [es|] eqn:Hi; [|inversion He].
  assert (Hlt : (i < List.length hashed)%nat)
    by (rewrite <- Hlen; eapply lookup_lt_Some; exact Hi).
  destruct (lookup_lt_is_Some_2 hashed i Hlt) as [h Hh].
  destruct (Hat i h Hh) as (scored & Hls & _ & _ & Hf).
  rewrite Hls in Hi. injection Hi as <-.
  apply elem_of_app in He as [He|He].
  - apply elem_of_Array_sort, elem_of_app in He as [He|He].
    + rewrite Forall_forall in Hf.
      destruct (Hf e He) as (item & alias & Hl & Ha & ->).
      exists (token alias). split; [now apply evalM_tokenFromEdge_alias|].
      split; [discriminate|]. intros _. right. exists item, alias. auto.
    + destruct (numberEdges_fields t hashed i) as (Hnum & _).
      rewrite Forall_forall in Hnum. specialize (Hnum e He).
      exists (NumberToken (e_label e)).
      split; [|split; [reflexivity | congruence]].
      unfold tokenFromEdge. rewrite Hnum. reflexivity.
  - apply list_elem_of_singleton in He as ->.
    exists UnknownToken. split; [reflexivity|].
    split; [discriminate|]. intros _. now left.
Qed.

(** ** The lattice: debug mode *)

Lemma quiet_ret {A} (a : A) t : quiet t (ret a).
Proof. reflexivity. Qed.

Lemma quiet_gets {A} (f : Tokenizer -> A) t : quiet t (gets f).
Proof. reflexivity. Qed.

Lemma quiet_throw {A} t : quiet t (@throw A).
Proof. reflexivity. Qed.

Lemma quiet_bind {A B} (m : M A) (k : A -> M B) t :
  quiet t m -> (forall a, evalM m t = Some a -> quiet t (k a)) ->
  quiet t (bind m k).
Proof.
  unfold quiet, execM, evalM, bind. intros Hm Hk.
  destruct (m t) as [[a|] t1]; simpl in *; subst t1; [|reflexivity].
  now apply Hk.
Qed.

Lemma quiet_mapM {A B} (f : A -> M B) (l : list A) t :
  (forall x, quiet t (f x)) -> quiet t (mapM f l).
Proof.
  intros Hf. induction l as [|x l IH]; simpl; [reflexivity|].
  apply quiet_bind; [apply Hf|]. intros y _.
  apply quiet_bind; [exact IH|]. intros ys _. reflexivity.
Qed.

Lemma quiet_foldM {A B} (body : B -> A -> M B) (l : list A) (acc : B) t :
  (forall acc x, quiet t (body acc x)) -> quiet t (foldM body l acc).
Proof.
  intros Hb. revert acc. induction l as [|x l IH]; intros acc; simpl;
    [reflexivity|].
  apply quiet_bind; [apply Hb|]. intros acc' _. apply IH.
Qed.

(** A statement [if (this.debugMode) { ... }] when debug mode is off. *)
Lemma quiet_debug {B} (m : M unit) (k : unit -> M B) t :
  debugMode t = false ->
  (forall u, quiet t (k u)) ->
  quiet t (bind (gets debugMode) (fun debug => bind (when debug m) k)).
Proof.
  intros Hd Hk. unfold quiet, execM. rewrite bind_gets, Hd. simpl.
  rewrite bind_ret. apply Hk.
Qed.

Lemma quiet_score query prefix isDownstreamTerm diff t :
  debugMode t = false -> quiet t (score query prefix isDownstreamTerm diff).
Proof.
  intros Hd. unfold score. cbv zeta. apply quiet_debug; [exact Hd|].
  intros u. reflexivity.
Qed.

Lemma quiet_aliasEdge tail item t :
  debugMode t = false -> quiet t (aliasEdge tail item).
Proof.
  intros Hd. unfold aliasEdge. apply quiet_bind; [reflexivity|].
  intros als _. destruct (als !! item) as [alias|]; [|reflexivity].
  apply quiet_bind; [|intros r _; reflexivity].
  unfold matchAndScore. apply quiet_bind; [reflexivity|].
  intros tm _. now apply quiet_score.
Qed.

Lemma quiet_numberEdge hashed index value t :
  debugMode t = false -> quiet t (numberEdge hashed index value).
Proof.
  intros Hd. unfold numberEdge. cbv zeta.
  apply quiet_bind; [now apply quiet_score | intros r _; reflexivity].
Qed.

Lemma quiet_generateGraph_at hashed stemmed index hash t :
  debugMode t = false -> quiet t (generateGraph_at hashed stemmed index hash).
Proof.
  intros Hd. unfold generateGraph_at. cbv zeta.
  apply quiet_bind; [reflexivity|]. intros p _.
  apply quiet_bind.
  { destruct (p !! hash) as [items|]; [|reflexivity].
    apply quiet_debug; [exact Hd|]. intros u.
    apply quiet_bind; [|intros scored _; reflexivity].
    apply quiet_mapM. intros item. now apply quiet_aliasEdge. }
  intros edges _. apply quiet_bind; [reflexivity|]. intros np _.
  apply quiet_bind.
  { destruct np as [parser|]; [|reflexivity].
    apply quiet_foldM. intros acc value.
    apply quiet_bind; [now apply quiet_numberEdge | intros e _; reflexivity]. }
  intros edges' _. apply quiet_bind; [|intros u _; reflexivity].
  destruct (_ =? _)%nat; [|reflexivity].
  unfold quiet, execM. rewrite bind_gets, Hd. reflexivity.
Qed.

Lemma quiet_generateGraph hashed stemmed t :
  debugMode t = false -> quiet t (generateGraph hashed stemmed).
Proof.
  intros Hd. unfold generateGraph.
  apply quiet_bind; [|intros ls _; reflexivity].
  apply quiet_foldM. intros acc [index hash].
  apply quiet_bind; [now apply quiet_generateGraph_at|].
  intros sorted _. reflexivity.
Qed.

Lemma option_eq_Some {A} (o1 o2 : option A) :
  (forall y, o1 = Some y <-> o2 = Some y) -> o1 = o2.
Proof.
  intros H. destruct o1 as [a|], o2 as [b|]; try reflexivity.
  - symmetry. now apply (H a).
  - destruct (H a) as [H1 _]. now specialize (H1 eq_refl).
  - destruct (H b) as [_ H1]. now specialize (H1 eq_refl).
Qed.

Lemma evalM_mapM_ext {A B} (f : A -> M B) (l : list A) (t t' : Tokenizer) :
  (forall x, readonly (f x)) ->
  (forall x, evalM (f x) t = evalM (f x) t') ->
  evalM (mapM f l) t = evalM (mapM f l) t'.
Proof.
  intros Hr Hf. apply option_eq_Some. intros ys.
  rewrite !evalM_mapM by exact Hr.
  split; intros H; (eapply Forall2_impl; [exact H|]); intros x y Hxy; simpl in *;
    congruence.
Qed.

(** X9.  Debug mode only controls logging: [generateGraph] returns the same
    lattice (or throws in the same cases) whatever [debugMode] is, and with
    debug mode off it leaves the tokenizer exactly as it was, the log
    included. *)
Theorem generateGraph_debugMode (t : Tokenizer) (hashed : list Hash)
    (stemmed : list string) :
  (forall debug,
     evalM (generateGraph hashed stemmed) (set_debugMode debug t)
     = evalM (generateGraph hashed stemmed) t)
  /\ (debugMode t = false -> execM (generateGraph hashed stemmed) t = t).
Proof.
  split; [|apply quiet_generateGraph].
  intros debug. rewrite !generateGraph_eval. f_equal.
  apply evalM_mapM_ext; [intros ?; apply readonly_generateGraph_at|].
  intros [index hash]. simpl fst. simpl snd.
  rewrite !generateGraph_at_eval.
  change (postings (set_debugMode debug t)) with (postings t).
  change (numberEdges (set_debugMode debug t) hashed index)
    with (numberEdges t hashed index).
  destruct (postings t !! hash) as [items|]; [|reflexivity].
  rewrite (evalM_mapM_ext (aliasEdge (drop index hashed)) items
             (set_debugMode debug t) t);
    [reflexivity | intros ?; apply readonly_aliasEdge|].
  intros item. rewrite !evalM_aliasEdge. reflexivity.
Qed.

(** ** The scorer: bounds and exact matches *)

Lemma Qc_ofZ_le (a b : Z) :
  a <= b -> (Q2Qc (inject_Z a) <= Q2Qc (inject_Z b))%Qc.
Proof.
  intros H. unfold Qcle. simpl. rewrite !Qred_correct. now rewrite <- Zle_Qle.
Qed.

Lemma Qc_ofZ_lt (a b : Z) :
  a < b -> (Q2Qc (inject_Z a) < Q2Qc (inject_Z b))%Qc.
Proof.
  intros H. unfold Qclt. simpl. rewrite !Qred_correct. now rewrite <- Zlt_Qlt.
Qed.

(** A quotient of integers [0 <= a <= b], [0 < b], is between 0 and 1. *)
Lemma Qc_div_unit (a b : Z) :
  0 <= a <= b -> 0 < b ->
  (0 <= Q2Qc (inject_Z a) / Q2Qc (inject_Z b) <= 1)%Qc.
Proof.
  intros [Ha Hab] Hb.
  pose proof (Qc_ofZ_lt 0 b Hb) as Hpos. change (Q2Qc (inject_Z 0)) with 0%Qc in Hpos.
  assert (Hnz : Q2Qc (inject_Z b) ≠ 0%Qc) by (apply NumFacts.ofZ_nonzero; lia).
  assert (Hmul : (Q2Qc (inject_Z a) / Q2Qc (inject_Z b) * Q2Qc (inject_Z b)
                  = Q2Qc (inject_Z a))%Qc).
  { rewrite Qcmult_comm. now apply Qcmult_div_r. }
  split.
  - apply (Qcmult_lt_0_le_reg_r _ _ _ Hpos).
    rewrite Hmul, Qcmult_0_l. apply (Qc_ofZ_le 0 a Ha).
  - apply (Qcmult_lt_0_le_reg_r _ _ _ Hpos).
    rewrite Hmul, Qcmult_1_l. now apply Qc_ofZ_le.
Qed.

Lemma Qc_mul_unit (a b : Qc) :
  (0 <= a <= 1)%Qc -> (0 <= b <= 1)%Qc -> (0 <= a * b <= 1)%Qc.
Proof.
  intros [Ha0 Ha1] [Hb0 Hb1]. split.
  - rewrite <- (Qcmult_0_l b). now apply Qcmult_le_compat_r.
  - apply (Qcle_trans _ (1 * b)%Qc).
    + now apply Qcmult_le_compat_r.
    + now rewrite Qcmult_1_l.
Qed.

Lemma Qc_leb_false (x y : Qc) : Num.Qc_leb x y = false -> (y < x)%Qc.
Proof.
  intros H. apply Qcnot_le_lt. intros Hle.
  apply not_true_iff_false in H. apply H. unfold Num.Qc_leb.
  now apply Qle_bool_iff.
Qed.

(** X10.  When the diff is one a matcher can report (a match that is not
    empty, [rightmostA >= 0], [cost >= 0], [leftmostA >= 0], and no more common
    terms than terms in the match), each of [matchFactor], [commonFactor] and
    [positionFactor] is between 0 and 1, so the score returned is either [-1]
    or greater than 0.01 and at most the length of the match. *)
Theorem score_bounds (query prefix : list Hash)
    (isDownstreamTerm : DownstreamTermPredicate) (diff : DiffResults)
    (t : Tokenizer) :
  diff_match diff ≠ [] ->
  0 <= rightmostA diff ->
  0 <= cost diff ->
  0 <= leftmostA diff ->
  (size (commonTerms diff) <= List.length (diff_match diff))%nat ->
  exists r,
    evalM (score query prefix isDownstreamTerm diff) t = Some r
    /\ (s_score r = Num.ofZ (-1)
        \/ exists q,
             s_score r = Fin q
             /\ (Num.cent < q)%Qc
             /\ (q <= Q2Qc (inject_Z (Z.of_nat (List.length (diff_match diff)))))%Qc).
Proof.
  intros Hm Hr Hc Hl Hs.
  eexists. split; [apply score_eval|]. simpl s_score.
  pose proof (match_length_pos diff Hm) as Hn.
  destruct (matchFactor_divisor diff Hr) as [HL HLc].
  set (n := Z.of_nat (List.length (diff_match diff))) in *.
  set (L := rightmostA diff + 1) in *.
  assert (Hmf : exists mf, matchFactor diff = Fin mf /\ (0 <= mf <= 1)%Qc).
  { unfold matchFactor. fold L. destruct (L >? cost diff) eqn:E.
    - rewrite NumFacts.div_ofZ by lia. eexists. split; [reflexivity|].
      apply Qc_div_unit; lia.
    - specialize (HLc eq_refl). rewrite NumFacts.div_ofZ by lia.
      eexists. split; [reflexivity|]. apply Qc_div_unit; lia. }
  destruct Hmf as (mf & Emf & Hmf).
  assert (Hcf : (0 <= Q2Qc (inject_Z (Z.of_nat (size (commonTerms diff))))
                      / Q2Qc (inject_Z n) <= 1)%Qc)
    by (apply Qc_div_unit; lia).
  assert (Hpf : (0 <= Q2Qc (inject_Z (Z.max (n - leftmostA diff) 0))
                      / Q2Qc (inject_Z n) <= 1)%Qc)
    by (apply Qc_div_unit; lia).
  assert (Hbase : exists q, baseScore diff = Fin q
                            /\ (q <= Q2Qc (inject_Z n))%Qc).
  { unfold baseScore.
    rewrite Emf, (commonFactor_value diff Hm), (positionFactor_value diff Hm).
    unfold lengthFactor, Num.ofNat, Num.ofZ. fold n.
    rewrite !NumFacts.mul_Fin. eexists. split; [reflexivity|].
    pose proof (Qc_mul_unit _ _ (Qc_mul_unit _ _ Hmf Hcf) Hpf) as [_ H1].
    apply (Qcle_trans _ (1 * Q2Qc (inject_Z n))%Qc).
    - apply Qcmult_le_compat_r; [exact H1|]. apply (Qc_ofZ_le 0 n). lia.
    - rewrite Qcmult_1_l. apply Qcle_refl. }
  destruct Hbase as (q & Eq & Hq).
  rewrite finalScore_cases. destruct (_ || _) eqn:E; [now left|].
  right. exists q. split; [exact Eq|]. split; [|exact Hq].
  apply orb_false_iff in E as [_ E]. rewrite Eq in E. simpl in E.
  now apply Qc_leb_false.
Qed.

Lemma size_list_to_set_NoDup (l : list Hash) :
  (size (list_to_set l : gset Hash) <= List.length l)%nat
  /\ (size (list_to_set l : gset Hash) = List.length l <-> NoDup l).
Proof.
  induction l as [|x l [IHle IHiff]].
  - change (list_to_set [] : gset Hash) with (∅ : gset Hash).
    rewrite size_empty. simpl.
    split; [lia|]. split; [constructor | reflexivity].
  - change (list_to_set (x :: l) : gset Hash)
      with ({[x]} ∪ list_to_set l : gset Hash).
    simpl List.length.
    destruct (decide (x ∈ l)) as [Hin|Hnin].
    + assert (E : ({[x]} ∪ list_to_set l : gset Hash) = list_to_set l)
        by set_solver.
      rewrite E. split; [lia|]. split; [lia|].
      intros H. apply NoDup_cons in H as [H _]. contradiction.
    + rewrite size_union by set_solver. rewrite size_singleton.
      split; [lia|]. rewrite NoDup_cons. split.
      * intros H. split; [exact Hnin|]. apply IHiff. lia.
      * intros [_ H]. apply IHiff in H. lia.
Qed.

Lemma baseScore_exactDiff (prefix : list Hash) :
  prefix ≠ [] ->
  baseScore (exactDiff prefix)
  = Num.ofNat (size (list_to_set prefix : gset Hash)).
Proof.
  intros Hne.
  assert (Hn : (1 <= List.length prefix)%nat)
    by (destruct prefix; [congruence | simpl; lia]).
  unfold baseScore, matchFactor, commonFactor, positionFactor, lengthFactor.
  simpl diff_match. simpl rightmostA. simpl cost. simpl leftmostA.
  simpl commonTerms.
  replace (Z.of_nat (List.length prefix) - 1 + 1 >? 0) with true
    by (symmetry; apply Z.gtb_lt; lia).
  rewrite !Z.sub_0_r. rewrite Z.max_l by lia.
  unfold Num.ofNat. rewrite !NumFacts.div_ofZ by lia.
  unfold Num.ofZ. rewrite !NumFacts.mul_Fin. f_equal.
  apply Qc_score_identity; apply NumFacts.ofZ_nonzero; lia.
Qed.

(** X11.  The score of an alias matched exactly where the query starts.  With
    [d] distinct fingerprints among the [n] of the alias, the score is [d]
    (in the exact arithmetic of [Num]):
    it is [n] when no fingerprint is repeated, also when every fingerprint is
    a downstream term.  When a fingerprint is repeated and every fingerprint
    is a downstream term, the match is rejected with [-1], as the note on the
    test [commonTerms.size !== prefix.length] says. *)
Theorem exact_match_score (query prefix : list Hash)
    (isDownstreamTerm : DownstreamTermPredicate) (t : Tokenizer) :
  prefix ≠ [] ->
  let n := List.length prefix in
  let d := size (list_to_set prefix : gset Hash) in
  evalM (score query prefix isDownstreamTerm (exactDiff prefix)) t
  = Some {| s_score :=
              if forallb isDownstreamTerm prefix && negb (d =? n)%nat
              then Num.ofZ (-1) else Num.ofNat d;
            s_length := Z.of_nat n |}
  /\ (d = n <-> NoDup prefix)
  /\ (1 <= d <= n)%nat.
Proof.
  intros Hne n d.
  destruct (size_list_to_set_NoDup prefix) as [Hle Hiff]. fold d n in Hle, Hiff.
  assert (Hd : (1 <= d)%nat).
  { subst d. destruct prefix as [|x l]; [congruence|].
    destruct (size (list_to_set (x :: l) : gset Hash)) eqn:E; [|lia].
    apply size_empty_inv in E. set_solver. }
  split; [|split; [exact Hiff | lia]].
  rewrite score_eval. f_equal.
  assert (Hlen : rightmostA (exactDiff prefix) + 1 = Z.of_nat n)
    by (simpl; lia).
  rewrite Hlen. f_equal.
  rewrite finalScore_cases, (baseScore_exactDiff prefix Hne). fold d.
  assert (Hall : allDownstream prefix isDownstreamTerm (exactDiff prefix)
                 = forallb isDownstreamTerm prefix && negb (d =? n)%nat).
  { apply eq_true_iff_eq.
    rewrite allDownstream_true, andb_true_iff, negb_true_iff, Nat.eqb_neq.
    rewrite forallb_forall. simpl commonTerms. fold d n. split.
    - intros (_ & Hall & Hdn). split; [|exact Hdn].
      intros h Hh. apply Hall, elem_of_list_to_set, list_elem_of_In, Hh.
    - intros [Hall Hdn]. split; [lia|]. split; [|exact Hdn].
      intros h Hh. apply Hall, list_elem_of_In.
      now apply elem_of_list_to_set in Hh. }
  rewrite Hall. unfold Num.ofNat. rewrite NumFacts.leb_ofZ_cent.
  rewrite (bool_decide_eq_false_2 (Z.of_nat d <= 0)) by lia.
  now rewrite orb_false_r.
Qed.

(** ** The lexicon: what a domain registers *)

Lemma noSpace_append (a b : string) :
  noSpace (a ++ b) = noSpace a && noSpace b.
Proof.
  induction a as [|c a IH]; simpl; [reflexivity|].
  now rewrite IH, andb_assoc.
Qed.

Lemma split_go_noSpace (inSpace : bool) (piece s : string) :
  noSpace piece = true ->
  Forall (fun p => noSpace p = true) (split_go inSpace piece s).
Proof.
  revert inSpace piece. induction s as [|c s IH]; intros inSpace piece Hp; simpl.
  - constructor; [exact Hp | constructor].
  - destruct (isSpace c) eqn:Ec.
    + destruct inSpace.
      * now apply IH.
      * constructor; [exact Hp|]. now apply IH.
    + apply IH. rewrite noSpace_append, Hp. simpl. now rewrite Ec.
Qed.

Lemma split_go_nonempty (inSpace : bool) (piece s : string) :
  split_go inSpace piece s ≠ [].
Proof.
  revert inSpace piece. induction s as [|c s IH]; intros inSpace piece; simpl.
  - discriminate.
  - destruct (isSpace c); [destruct inSpace|]; try apply IH. discriminate.
Qed.

(** X12.  The constructor of [Domain] registers its aliases in order, one for
    one.  Each registered alias has its text split into at least one term,
    none of which contains white space, and as many stems and fingerprints as
    terms; the own terms of the domain are exactly the fingerprints of its
    aliases, and it has no downstream term yet. *)
Theorem Domain_new_invariant (aliases : list Alias) (tm : TermModel)
    (forIngestion : bool) :
  let d := Domain.new aliases tm forIngestion in
  Domain.text <$> Domain.tokenizerAliases d = a_text <$> aliases
  /\ Domain.token <$> Domain.tokenizerAliases d = a_token <$> aliases
  /\ Forall (fun e =>
               (1 <= List.length (Domain.terms e))%nat
               /\ List.length (Domain.stemmed e) = List.length (Domain.terms e)
               /\ List.length (Domain.hashes e) = List.length (Domain.terms e)
               /\ Forall (fun term => noSpace term = true) (Domain.terms e))
            (Domain.tokenizerAliases d)
  /\ (forall h,
        h ∈ Domain.ownTerms d
        <-> exists e, e ∈ Domain.tokenizerAliases d /\ h ∈ Domain.hashes e)
  /\ Domain.downstreamTerms d = ∅
  /\ Domain.forIngestion d = forIngestion.
Proof.
  intros d. unfold d. rewrite Domain_new_aliases.
  split; [now rewrite <- list_fmap_compose|].
  split; [now rewrite <- list_fmap_compose|].
  split; [|split; [|split]].
  - apply Forall_forall. intros e He.
    apply list_elem_of_fmap in He as (alias & -> & _).
    unfold Domain.entryOf. simpl. rewrite !length_map.
    split; [|split; [reflexivity|split; [reflexivity|]]].
    + pose proof (split_go_nonempty false EmptyString (a_text alias)) as H.
      unfold split. destruct (split_go _ _ _); [congruence | simpl; lia].
    + now apply split_go_noSpace.
  - intros h. rewrite Domain_new_ownTerms. split.
    + intros (alias & Ha & Hh). exists (Domain.entryOf tm alias).
      split; [now apply list_elem_of_fmap_2 | exact Hh].
    + intros (e & He & Hh). apply list_elem_of_fmap in He as (alias & -> & Ha).
      eauto.
  - unfold Domain.new. generalize (∅ : gset Hash) at 1.
    generalize (@nil Domain.Entry).
    induction aliases as [|a aliases IH]; intros l s; simpl; [reflexivity|].
    apply IH.
  - unfold Domain.new. generalize (∅ : gset Hash) at 1.
    generalize (@nil Domain.Entry).
    induction aliases as [|a aliases IH]; intros l s; simpl; [reflexivity|].
    apply IH.
Qed.

(** ** The lexicon: what [ingest] hands to the tokenizer *)

Lemma forM_map {A B} (g : A -> B) (body : B -> M unit) (l : list A)
    (t : Tokenizer) :
  forM l (fun x => body (g x)) t = forM (map g l) body t.
Proof.
  revert t. induction l as [|x l IH]; intros t; [reflexivity|].
  unfold forM in *. simpl. unfold bind.
  destruct (body (g x) t) as [[[]|] t1]; [apply IH | reflexivity].
Qed.

Lemma bind_run_eq {A B} (m : M A) (k : A -> M B) (t t' : Tokenizer) (a : A) :
  m t = (Some a, t') -> bind m k t = k a t'.
Proof. intros H. unfold bind. now rewrite H. Qed.

Lemma Domain_ingest_addItems (d : Domain.Domain) (t : Tokenizer) :
  Domain.ingest d t = addItems (handedAliases d) t.
Proof.
  unfold Domain.ingest, handedAliases, addItems.
  destruct (Domain.forIngestion d); [|reflexivity].
  apply (forM_map (Domain.toTokenizerAlias d) addItem).
Qed.

Lemma ingest_at_exec (self : Lexicon.Lexicon) (i : nat) (t : Tokenizer) :
  execM (Lexicon.ingest_at self i) t
  = execM (addItems
             (default [] (handedAliases
                            <$> Lexicon.domains (Lexicon.ingest_step self i) !! i)))
          t.
Proof.
  unfold Lexicon.ingest_at. cbv zeta.
  destruct (Lexicon.domains (Lexicon.ingest_step self i) !! i) as [d|]; simpl;
    [|reflexivity].
  unfold execM, bind. rewrite Domain_ingest_addItems.
  destruct (addItems (handedAliases d) t) as [[[]|] t1]; reflexivity.
Qed.

Lemma ingest_step_other (self : Lexicon.Lexicon) (i j : nat) :
  i ≠ j ->
  Lexicon.domains (Lexicon.ingest_step self i) !! j
  = Lexicon.domains self !! j.
Proof.
  intros Hne. unfold Lexicon.ingest_step.
  destruct (Lexicon.domains self !! i); [|reflexivity].
  simpl. now apply list_lookup_insert_ne.
Qed.

Lemma foldl_ingest_step_other (self : Lexicon.Lexicon) (idxs : list nat)
    (j : nat) :
  j ∉ idxs ->
  Lexicon.domains (foldl Lexicon.ingest_step self idxs) !! j
  = Lexicon.domains self !! j.
Proof.
  revert self. induction idxs as [|i idxs IH]; intros self Hj; [reflexivity|].
  simpl. rewrite IH by (intros H; apply Hj; now right).
  apply ingest_step_other. intros ->. apply Hj. now left.
Qed.

Lemma ingest_fold_exec (self : Lexicon.Lexicon) (idxs : list nat)
    (t : Tokenizer) :
  NoDup idxs ->
  execM (foldM Lexicon.ingest_at idxs self) t
  = execM (addItems
             (concat
                (map (fun i =>
                        default []
                          (handedAliases
                             <$> Lexicon.domains
                                   (foldl Lexicon.ingest_step self idxs) !! i))
                     idxs)))
          t.
Proof.
  revert self t. induction idxs as [|i idxs IH]; intros self t Hnd;
    [reflexivity|].
  apply NoDup_cons in Hnd as [Hi Hnd].
  pose proof (evalM_ingest_at self i t) as Hv. apply run_eq in Hv.
  simpl foldM. unfold execM at 1. rewrite (bind_run_eq _ _ _ _ _ Hv).
  fold (execM (foldM Lexicon.ingest_at idxs (Lexicon.ingest_step self i))
              (execM (Lexicon.ingest_at self i) t)).
  rewrite IH by exact Hnd.
  simpl map. simpl concat. rewrite addItems_app. simpl foldl.
  rewrite (foldl_ingest_step_other _ idxs i Hi), ingest_at_exec.
  reflexivity.
Qed.

Lemma map_lookup_seq {A B} (f : option A -> B) (l : list A) :
  map (fun i => f (l !! i)) (seq 0 (List.length l)) = map (f ∘ Some) l.
Proof.
  apply list_eq. intros i.
  rewrite !list_lookup_fmap.
  destruct (decide (i < List.length l)%nat) as [Hlt|Hge].
  - rewrite lookup_seq_lt by exact Hlt. simpl.
    destruct (lookup_lt_is_Some_2 l i Hlt) as [x Hx]. now rewrite Hx.
  - rewrite lookup_seq_ge by lia. rewrite lookup_ge_None_2 by lia. reflexivity.
Qed.

(** [ingest] is [addItem] on the aliases of the ingestion domains, in the
    order of the domains. *)
Lemma Lexicon_ingest_exec (self : Lexicon.Lexicon) (t : Tokenizer) :
  let self' :=
    foldl Lexicon.ingest_step self (seq 0 (List.length (Lexicon.domains self))) in
  evalM (Lexicon.ingest self) t = Some self'
  /\ execM (Lexicon.ingest self) t
     = execM (addItems (concat (handedAliases <$> Lexicon.domains self'))) t
  /\ Forall2 same_static (Lexicon.domains self') (Lexicon.domains self).
Proof.
  intros self'.
  pose proof (ingested_foldl self self []
                (seq 0 (List.length (Lexicon.domains self)))
                (ingested_start self)) as (_ & _ & HF & _).
  fold self' in HF.
  split; [apply evalM_Lexicon_ingest|]. split; [|exact HF].
  unfold Lexicon.ingest. rewrite ingest_fold_exec by apply NoDup_seq.
  fold self'.
  rewrite <- (Forall2_length _ _ _ HF).
  rewrite (map_lookup_seq (fun o => default [] (handedAliases <$> o))
             (Lexicon.domains self')).
  reflexivity.
Qed.

Lemma foldl_ingest_step_not_ingested (self : Lexicon.Lexicon)
    (idxs : list nat) (i : nat) (d : Domain.Domain) :
  Lexicon.domains self !! i = Some d ->
  Domain.forIngestion d = false ->
  Lexicon.domains (foldl Lexicon.ingest_step self idxs) !! i = Some d.
Proof.
  revert self. induction idxs as [|j idxs IH]; intros self Hd Hf; [exact Hd|].
  simpl. apply IH; [|exact Hf].
  destruct (decide (j = i)) as [->|Hne].
  - unfold Lexicon.ingest_step. rewrite Hd. simpl.
    unfold Domain.addDownstreamTerms. rewrite Hf.
    rewrite list_lookup_insert_eq by (eapply lookup_lt_Some; exact Hd).
    reflexivity.
  - now rewrite ingest_step_other.
Qed.

(** X13.  [Lexicon.ingest] into a new tokenizer returns, and leaves the
    tokenizer in the state that [addItem] calls on the aliases of the
    ingestion domains leave it in, domain after domain in the order of the
    lexicon and alias after alias in the order of the domain, each alias with
    the [isDownstreamTerm] of its domain as it is after the call.  So the
    aliases of the tokenizer are those aliases, and the invariant of the index
    holds.  The call changes no alias and no own term of a domain, and a
    domain that is not for ingestion hands over nothing and is left as it
    was. *)
Theorem ingest_hands_aliases (self : Lexicon.Lexicon) (tm : TermModel)
    (np : option NumberParser) (debug : bool) :
  let t := new_Tokenizer tm np debug in
  exists self',
    evalM (Lexicon.ingest self) t = Some self'
    /\ execM (Lexicon.ingest self) t
       = execM (addItems (concat (handedAliases <$> Lexicon.domains self'))) t
    /\ aliases (execM (Lexicon.ingest self) t)
       = concat (handedAliases <$> Lexicon.domains self')
    /\ index_inv (execM (Lexicon.ingest self) t)
    /\ Forall2 same_static (Lexicon.domains self') (Lexicon.domains self)
    /\ (forall i d,
          Lexicon.domains self !! i = Some d ->
          Domain.forIngestion d = false ->
          Lexicon.domains self' !! i = Some d /\ handedAliases d = []).
Proof.
  intros t.
  destruct (Lexicon_ingest_exec self t) as (Hv & Hx & HF).
  eexists. split; [exact Hv|]. split; [exact Hx|]. rewrite Hx.
  destruct (addItems_run
              (concat (handedAliases <$> Lexicon.domains
                         (foldl Lexicon.ingest_step self
                            (seq 0 (List.length (Lexicon.domains self))))))
              t (index_inv_new tm np debug)) as (_ & Ha & Hi).
  split; [exact Ha|]. split; [exact Hi|]. split; [exact HF|].
  intros i d Hd Hf. split.
  - now apply foldl_ingest_step_not_ingested.
  - unfold handedAliases. now rewrite Hf.
Qed.

(** ** The lexicon and the text of a fingerprint *)

Lemma texts_hash_back_addItem (tm : TermModel) (alias : TokenizerAlias)
    (t : Tokenizer) :
  hashes alias = map (hashTerm tm) (stemmed alias) ->
  texts_hash_back tm t ->
  texts_hash_back tm (execM (addItem alias) t).
Proof.
  intros Hh Ht. rewrite addItem_unfold.
  apply (forM_invariant _ (texts_hash_back tm)).
  - intros [index hash] t' Hin HP h s.
    destruct (addItem_at_fields alias (List.length (aliases t)) index hash t')
      as (-> & _).
    destruct (hashToText t' !! hash) as [old|] eqn:E; [apply HP|].
    rewrite lookup_insert. destruct (decide (hash = h)) as [->|Hne];
      [|apply HP].
    intros Hs. injection Hs as <-.
    unfold entries in Hin. apply list_elem_of_lookup in Hin as [i Hi].
    rewrite list_lookup_imap in Hi.
    destruct (hashes alias !! i) as [y|] eqn:Ey; [|discriminate].
    injection Hi as <- ->.
    rewrite Hh, list_lookup_fmap in Ey.
    destruct (stemmed alias !! i) as [x|]; [|discriminate].
    injection Ey as <-. eauto.
  - intros [index hash]. apply returns_addItem_at.
  - exact Ht.
Qed.

Lemma elem_of_concat {A} (x : A) (ls : list (list A)) :
  x ∈ concat ls <-> exists l, l ∈ ls /\ x ∈ l.
Proof.
  induction ls as [|l ls IH]; simpl.
  - split; [inversion 1 | intros (l & Hl & _); inversion Hl].
  - rewrite elem_of_app, IH. split.
    + intros [H|(l' & Hl' & H)].
      * exists l. split; [now left | exact H].
      * exists l'. split; [now right | exact H].
    + intros (l' & Hl' & H). apply elem_of_cons in Hl' as [->|Hl'].
      * now left.
      * right. eauto.
Qed.

Lemma hashed_by_addDomain (self : Lexicon.Lexicon) aliases forIngestion :
  hashed_by_termModel self ->
  hashed_by_termModel (Lexicon.addDomain self aliases forIngestion).
Proof.
  intros H d e Hd He. simpl in Hd.
  apply elem_of_app in Hd as [Hd|Hd]; [exact (H d e Hd He)|].
  apply list_elem_of_singleton in Hd. subst d.
  rewrite Domain_new_aliases in He.
  apply list_elem_of_fmap in He as (alias & -> & _). reflexivity.
Qed.

Lemma hashed_by_addDomains (self : Lexicon.Lexicon) doms :
  hashed_by_termModel self ->
  hashed_by_termModel (addDomains self doms)
  /\ Lexicon.termModel (addDomains self doms) = Lexicon.termModel self.
Proof.
  revert self. induction doms as [|[aliases b] doms IH]; intros self H.
  - split; [exact H | reflexivity].
  - simpl. destruct (IH (Lexicon.addDomain self aliases b)) as [H1 H2].
    + now apply hashed_by_addDomain.
    + split; [exact H1 | exact H2].
Qed.

Lemma hashed_by_new tm enp : hashed_by_termModel (Lexicon.new tm enp).
Proof. intros d e Hd. inversion Hd. Qed.

(** X14.  A tokenizer fed by a lexicon decodes a fingerprint to a stem that
    has this fingerprint.  For a lexicon made by [addDomain] calls and
    ingested into a new tokenizer, every text recorded for a fingerprint [h]
    is a string [x] with [hashTerm(x) = h] (never [undefined]), so
    [decodeTerm(h)] returns either such a stem or the marker of [h]. *)
Theorem decodeTerm_hashes_back (tm tm' : TermModel)
    (enp : (string -> Hash) -> NumberParser) (np : option NumberParser)
    (debug : bool) (doms : list (list Alias * bool)) (h : Hash) :
  let self := addDomains (Lexicon.new tm enp) doms in
  let t := execM (Lexicon.ingest self) (new_Tokenizer tm' np debug) in
  texts_hash_back tm t
  /\ (evalM (decodeTerm h) t = Some (DecodedHash h)
      \/ exists x,
           evalM (decodeTerm h) t = Some (DecodedText (Some x))
           /\ hashTerm tm x = h).
Proof.
  intros self t.
  destruct (hashed_by_addDomains (Lexicon.new tm enp) doms
              (hashed_by_new tm enp)) as [Hh Htm].
  fold self in Hh, Htm. simpl in Htm.
  destruct (Lexicon_ingest_exec self (new_Tokenizer tm' np debug))
    as (_ & Hx & HF).
  assert (Ht : texts_hash_back tm t).
  { unfold t. rewrite Hx.
    apply (forM_invariant addItem (texts_hash_back tm)).
    - intros alias t0 Hin. apply texts_hash_back_addItem.
      apply elem_of_concat in Hin as (l & Hl & Hin).
      apply list_elem_of_fmap in Hl as (d' & -> & Hd').
      unfold handedAliases in Hin.
      destruct (Domain.forIngestion d'); [|inversion Hin].
      apply list_elem_of_fmap in Hin as (e & -> & He). simpl.
      apply list_elem_of_lookup in Hd' as [i Hi].
      destruct (Forall2_lookup_l _ _ _ _ _ HF Hi) as (d & Hd & (_ & Ha & _)).
      rewrite Ha in He. rewrite <- Htm.
      apply (Hh d e); [|exact He]. eapply list_elem_of_lookup_2; exact Hd.
    - apply returns_addItem.
    - intros h0 s Hs. simpl in Hs. rewrite lookup_empty in Hs. discriminate. }
  split; [exact Ht|].
  unfold decodeTerm, evalM. rewrite bind_gets.
  destruct (hashToText t !! h) as [s|] eqn:E; [|now left].
  right. destruct (Ht h s E) as (x & -> & Hx'). exists x. split; [reflexivity|exact Hx'].
Qed.

(** X15.  After [Lexicon.ingest] into a new tokenizer, every alias of the
    tokenizer comes from an ingestion domain of the lexicon, with the
    fingerprints and the matcher registered for it, and its
    [isDownstreamTerm], the predicate the scorer is given for it, holds of a
    fingerprint exactly when the fingerprint is a token hash or a number hash
    of the term model, a hashed term of the number parser, or an own term of
    another domain. *)
Theorem ingested_alias_predicate (self : Lexicon.Lexicon) (tm : TermModel)
    (np : option NumberParser) (debug : bool) :
  exists self',
    evalM (Lexicon.ingest self) (new_Tokenizer tm np debug) = Some self'
    /\ forall alias,
         alias ∈ aliases (execM (Lexicon.ingest self)
                                (new_Tokenizer tm np debug)) ->
         exists i d e,
           Lexicon.domains self' !! i = Some d
           /\ Domain.forIngestion d = true
           /\ e ∈ Domain.tokenizerAliases d
           /\ alias = Domain.toTokenizerAlias d e
           /\ forall h,
                isDownstreamTerm alias h = true
                <-> isTokenHash (Domain.termModel d) h = true
                    \/ isNumberHash (Domain.termModel d) h = true
                    \/ h ∈ ownHashedTerms (Lexicon.numberParser self)
                    \/ exists j dj,
                         j ≠ i
                         /\ Lexicon.domains self' !! j = Some dj
                         /\ h ∈ Domain.ownTerms dj.
Proof.
  set (t := new_Tokenizer tm np debug).
  destruct (Lexicon_ingest_exec self t) as (Hv & Hx & HF).
  eexists. split; [exact Hv|].
  set (n := List.length (Lexicon.domains self)) in *.
  set (self' := foldl Lexicon.ingest_step self (seq 0 n)) in *.
  pose proof (ingested_foldl self self [] (seq 0 n) (ingested_start self))
    as (_ & _ & _ & Hdone).
  simpl app in Hdone. fold self' in Hdone.
  intros alias Hin. rewrite Hx in Hin.
  destruct (addItems_run (concat (handedAliases <$> Lexicon.domains self')) t
              (index_inv_new tm np debug)) as (_ & Ha & _).
  rewrite Ha in Hin. simpl in Hin.
  apply elem_of_concat in Hin as (l & Hl & Hin).
  apply list_elem_of_fmap in Hl as (d & -> & Hd).
  unfold handedAliases in Hin.
  destruct (Domain.forIngestion d) eqn:Hfor; [|inversion Hin].
  apply list_elem_of_fmap in Hin as (e & -> & He).
  apply list_elem_of_lookup in Hd as [i Hi].
  exists i, d, e. split; [exact Hi|]. split; [exact Hfor|].
  split; [exact He|]. split; [reflexivity|].
  intros h. simpl. unfold Domain.isDownstreamTerm.
  assert (Hseq : i ∈ seq 0 n).
  { apply elem_of_seq. apply lookup_lt_Some in Hi.
    apply Forall2_length in HF. subst n. lia. }
  rewrite !orb_true_iff, bool_decide_eq_true.
  rewrite (Hdone i d Hseq Hi Hfor h).
  rewrite <- (downstream_of_static _ _ _ i h HF).
  unfold downstream_of. tauto.
Qed.

(** ** The aggregated results of the relevance suite *)

Lemma occurrences_singleton {A} `{EqDecision A} (x y : A) :
  occurrences x [y] = if decide (y = x) then 1%nat else 0%nat.
Proof.
  unfold occurrences. rewrite filter_cons, filter_nil.
  destruct (decide (y = x)); reflexivity.
Qed.

Lemma count_entry passed table key (R P : string -> nat) :
  AggregatedResults.inherited key = false ->
  (forall k, (P k <= R k)%nat) ->
  (forall k, table !! k = entry (R k) (P k)) ->
  exists table',
    AggregatedResults.count passed table key = Some table'
    /\ forall k,
         table' !! k
         = entry (R k + occurrences k [key])
                 (P k + if passed then occurrences k [key] else 0).
Proof.
  intros Hplain Hle Htable. unfold AggregatedResults.count.
  pose proof (Htable key) as Hkey. rewrite Hplain.
  assert (Hother : forall k, key ≠ k ->
            entry (R k) (P k)
            = entry (R k + occurrences k [key])
                (P k + (if passed then occurrences k [key] else 0))).
  { intros k Hne. rewrite occurrences_singleton.
    destruct (decide (key = k)) as [|_]; [congruence|].
    destruct passed; now rewrite !Nat.add_0_r. }
  unfold entry at 1 in Hkey.
  destruct (R key =? 0)%nat eqn:HR; rewrite Hkey; eexists;
    (split; [reflexivity|]);
    intros k; (destruct (decide (key = k)) as [<-|Hne];
      [rewrite lookup_insert_eq
      | rewrite lookup_insert_ne by done; rewrite Htable; now apply Hother]);
    rewrite occurrences_singleton; (destruct (decide (key = key)); [|done]);
    unfold entry, AggregatedResults.increment; simpl.
  - apply Nat.eqb_eq in HR. pose proof (Hle key) as HP. rewrite HR in *.
    assert (P key = 0)%nat as -> by lia. simpl. now destruct passed.
  - replace (R key + 1 =? 0)%nat with false
      by (symmetry; apply Nat.eqb_neq; lia).
    f_equal. f_equal; destruct passed; lia.
Qed.

Lemma occurrences_cons_add {A} `{EqDecision A} (x y : A) l :
  occurrences x (y :: l) = (occurrences x [y] + occurrences x l)%nat.
Proof.
  unfold occurrences. rewrite !filter_cons, filter_nil.
  destruct (decide (y = x)); reflexivity.
Qed.

Lemma countEach_entry passed keys : forall table (R P : string -> nat),
  forallb (fun key => negb (AggregatedResults.inherited key)) keys = true ->
  (forall k, (P k <= R k)%nat) ->
  (forall k, table !! k = entry (R k) (P k)) ->
  exists table',
    AggregatedResults.countEach passed table keys = Some table'
    /\ forall k,
         table' !! k
         = entry (R k + occurrences k keys)
                 (P k + if passed then occurrences k keys else 0).
Proof.
  induction keys as [|key keys IH]; intros table R P Hplain Hle Htable.
  - exists table. split; [reflexivity|]. intros k.
    change (occurrences k []) with 0%nat.
    rewrite Htable. destruct passed; now rewrite !Nat.add_0_r.
  - simpl in Hplain. apply andb_true_iff in Hplain as [Hk Hplain].
    apply negb_true_iff in Hk.
    destruct (count_entry passed table key R P Hk Hle Htable)
      as (table1 & Hc & H1).
    destruct (IH table1
                (fun k => R k + occurrences k [key])%nat
                (fun k => P k + if passed then occurrences k [key] else 0)%nat
                Hplain)
      as (table' & Hc' & H'); [|exact H1|].
    { intros k. pose proof (Hle k). destruct passed; lia. }
    exists table'. simpl. rewrite Hc. split; [exact Hc'|].
    intros k. rewrite H', (occurrences_cons_add k key keys).
    f_equal; destruct passed; lia.
Qed.

Lemma runs_passed_le keys key rs :
  (runs keys key (filter (fun r => passed r = true) rs) <= runs keys key rs)%nat.
Proof.
  unfold runs. induction rs as [|r rs IH]; [reflexivity|].
  rewrite filter_cons. destruct (decide (passed r = true)); simpl; lia.
Qed.

Lemma tally_entry keys key rs :
  tally keys key rs
  = entry (runs keys key rs)
      (runs keys key (filter (fun r => passed r = true) rs)).
Proof. reflexivity. Qed.

Lemma tally_snoc keys key rs r :
  tally keys key (rs ++ [r])
  = entry (runs keys key rs + occurrences key (keys r))
      (runs keys key (filter (fun r => passed r = true) rs)
       + if passed r then occurrences key (keys r) else 0).
Proof.
  rewrite tally_entry. unfold runs.
  rewrite filter_app, !sum_list_with_app, filter_cons, filter_nil. simpl.
  rewrite Nat.add_0_r. f_equal. f_equal.
  destruct (passed r); simpl; lia.
Qed.

Lemma recordResult_tallied a rs r :
  forallb (fun key => negb (AggregatedResults.inherited key)) (keysOf r) = true ->
  tallied a rs ->
  exists a', AggregatedResults.recordResult a r = Some a'
             /\ tallied a' (rs ++ [r]).
Proof.
  intros Hplain (Hres & Hpass & Hs & Hp).
  simpl in Hplain. apply andb_true_iff in Hplain as [Hprio Hsuites].
  destruct (countEach_entry (passed r) (TestCase.suites (test r))
              (AggregatedResults.suites a) _ _ Hsuites
              (fun key => runs_passed_le suitesOf key rs) Hs)
    as (suites' & Hcs & Hs').
  destruct (countEach_entry (passed r) [TestCase.priority (test r)]
              (AggregatedResults.priorities a) _ _
              ltac:(simpl; now rewrite Hprio)
              (fun key => runs_passed_le priorityOf key rs) Hp)
    as (priorities' & Hcp & Hp').
  simpl in Hcp.
  destruct (AggregatedResults.count (passed r) (AggregatedResults.priorities a)
              (TestCase.priority (test r))) as [p1|] eqn:Hc1; [|discriminate].
  injection Hcp as ->.
  unfold AggregatedResults.recordResult. rewrite Hcs, Hc1.
  eexists. split; [reflexivity|]. repeat split; simpl.
  - now rewrite Hres.
  - rewrite filter_app, length_app, filter_cons, filter_nil, Hpass.
    destruct (passed r); simpl; lia.
  - intros key. now rewrite Hs', tally_snoc.
  - intros key. now rewrite Hp', tally_snoc.
Qed.

Lemma recordResults_tallied rs : forall a rs0,
  plainNames rs = true ->
  tallied a rs0 ->
  exists a', recordResults a rs = Some a' /\ tallied a' (rs0 ++ rs).
Proof.
  induction rs as [|r rs IH]; intros a rs0 Hplain Ha.
  - exists a. rewrite app_nil_r. now split.
  - unfold plainNames in Hplain. simpl in Hplain.
    apply andb_true_iff in Hplain as [Hr Hplain].
    destruct (recordResult_tallied a rs0 r Hr Ha) as (a1 & Hrec & H1).
    destruct (IH a1 (rs0 ++ [r]) Hplain H1) as (a' & Hrec' & H').
    exists a'. simpl. rewrite Hrec. split; [exact Hrec'|].
    now rewrite <- app_assoc in H'.
Qed.

(** X16.  Results whose suite and priority names are not inherited property
    names are all recorded, and then the aggregate holds the results in the
    order recorded, [passCount] is the number of results that passed, and
    each dictionary has an entry exactly for the names that a result counts
    for: a suite has as [runCount] the number of times the tests of the
    results list it, and a priority the number of results that have it, with
    as [passCount] the same number over the results that passed. *)
Theorem recordResult_tallies (rs : list Result) :
  plainNames rs = true ->
  exists a,
    recordResults AggregatedResults.new rs = Some a
    /\ AggregatedResults.results a = rs
    /\ AggregatedResults.passCount a
       = List.length (filter (fun r => passed r = true) rs)
    /\ (forall suite,
          AggregatedResults.suites a !! suite = tally suitesOf suite rs)
    /\ (forall priority,
          AggregatedResults.priorities a !! priority
          = tally priorityOf priority rs).
Proof.
  intros Hplain.
  destruct (recordResults_tallied rs AggregatedResults.new [] Hplain)
    as (a & Hrec & Ha).
  { repeat split. }
  exists a. split; [exact Hrec|]. exact Ha.
Qed.

Lemma fold_weight_insert (w : TestCounts.TestCounts -> nat)
    (table : gmap string TestCounts.TestCounts) key counts :
  (map_fold (fun _ c n => w c + n) 0 (<[key := counts]> table)
   + from_option w 0 (table !! key)
   = map_fold (fun _ c n => w c + n) 0 table + w counts)%nat.
Proof.
  assert (Hcomm : forall (j1 j2 : string) (z1 z2 : TestCounts.TestCounts)
                         (y : nat),
            (w z1 + (w z2 + y) = w z2 + (w z1 + y))%nat) by (intros; lia).
  destruct (table !! key) as [c|] eqn:Hkey; simpl.
  - rewrite (map_fold_delete_L _ _ key c table);
      [|intros; now apply Hcomm|exact Hkey].
    rewrite <- (insert_delete_eq table key counts).
    rewrite map_fold_insert_L;
      [|intros; now apply Hcomm|apply lookup_delete_eq].
    lia.
  - rewrite map_fold_insert_L; [|intros; now apply Hcomm|exact Hkey]. lia.
Qed.

Lemma count_totals passed table key table' :
  AggregatedResults.count passed table key = Some table' ->
  totalRuns table' = S (totalRuns table)
  /\ totalPasses table' = (totalPasses table + if passed then 1 else 0)%nat.
Proof.
  unfold AggregatedResults.count, totalRuns, totalPasses. intros Hc.
  destruct (table !! key) as [c|] eqn:Hkey.
  - injection Hc as <-.
    pose proof (fold_weight_insert TestCounts.runCount table key
                  (AggregatedResults.increment passed c)) as Hr.
    pose proof (fold_weight_insert TestCounts.passCount table key
                  (AggregatedResults.increment passed c)) as Hp.
    rewrite Hkey in Hr, Hp. simpl in Hr, Hp.
    split; [lia|]. destruct passed; lia.
  - destruct (AggregatedResults.inherited key); [discriminate|].
    injection Hc as <-.
    pose proof (fold_weight_insert TestCounts.runCount table key
                  (AggregatedResults.increment passed
                     (TestCounts.mkTestCounts 0 0))) as Hr.
    pose proof (fold_weight_insert TestCounts.passCount table key
                  (AggregatedResults.increment passed
                     (TestCounts.mkTestCounts 0 0))) as Hp.
    rewrite Hkey in Hr, Hp. simpl in Hr, Hp.
    split; [lia|]. destruct passed; lia.
Qed.

Lemma countEach_totals passed keys : forall table table',
  AggregatedResults.countEach passed table keys = Some table' ->
  totalRuns table' = (totalRuns table + List.length keys)%nat
  /\ totalPasses table'
     = (totalPasses table + if passed then List.length keys else 0)%nat.
Proof.
  induction keys as [|key keys IH]; intros table table' Hc; simpl in Hc.
  - injection Hc as <-. simpl. destruct passed; lia.
  - destruct (AggregatedResults.count passed table key) as [table1|] eqn:H1;
      [|discriminate].
    apply count_totals in H1 as [Hr1 Hp1].
    apply IH in Hc as [Hr Hp]. simpl. destruct passed; lia.
Qed.

Lemma recordResult_totalled a r a' :
  AggregatedResults.recordResult a r = Some a' ->
  totalled a -> totalled a'.
Proof.
  unfold AggregatedResults.recordResult. intros Hrec (Hr & Hp & Hs & Hle).
  destruct (AggregatedResults.countEach _ _ _) as [suites'|] eqn:Hcs;
    [|discriminate].
  destruct (AggregatedResults.count _ _ _) as [priorities'|] eqn:Hcp;
    [|discriminate].
  injection Hrec as <-.
  apply countEach_totals in Hcs as [Hs1 _].
  apply count_totals in Hcp as [Hr1 Hp1].
  unfold totalled. simpl.
  rewrite length_app, sum_list_with_app. simpl. unfold suitesOf at 2.
  repeat split; destruct (passed r); lia.
Qed.

Lemma recordResults_totalled rs : forall a a',
  recordResults a rs = Some a' -> totalled a ->
  totalled a'
  /\ AggregatedResults.results a' = AggregatedResults.results a ++ rs.
Proof.
  induction rs as [|r rs IH]; intros a a' Hrec Ha; simpl in Hrec.
  - injection Hrec as <-. now rewrite app_nil_r.
  - destruct (AggregatedResults.recordResult a r) as [a1|] eqn:H1;
      [|discriminate].
    assert (Hres : AggregatedResults.results a1
                   = AggregatedResults.results a ++ [r]).
    { unfold AggregatedResults.recordResult in H1.
      destruct (AggregatedResults.countEach _ _ _); [|discriminate].
      destruct (AggregatedResults.count _ _ _); [|discriminate].
      now injection H1 as <-. }
    apply recordResult_totalled in H1; [|exact Ha].
    destruct (IH a1 a' Hrec H1) as [H' Hres']. split; [exact H'|].
    now rewrite Hres', Hres, <- app_assoc.
Qed.

(** X17.  When no suite or priority name of the results is a property name
    inherited from [Object.prototype], the results are all recorded, and in
    their aggregate the priorities partition the results and the suites do
    not: the [runCount]s of the priorities add up to the number of results
    and their [passCount]s to the overall [passCount], which is at most the
    number of results, while the [runCount]s of the suites add up to the
    number of suite names that the tests of the results list, a test in two
    suites counting twice and a test in none not at all. *)
Theorem priorities_partition_results (rs : list Result) :
  plainNames rs = true ->
  exists a,
    recordResults AggregatedResults.new rs = Some a
    /\ totalRuns (AggregatedResults.priorities a) = List.length rs
    /\ totalPasses (AggregatedResults.priorities a)
       = AggregatedResults.passCount a
    /\ (AggregatedResults.passCount a <= List.length rs)%nat
    /\ totalRuns (AggregatedResults.suites a)
       = sum_list_with (fun r => List.length (TestCase.suites (test r))) rs.
Proof.
  intros Hplain.
  destruct (recordResults_tallied rs AggregatedResults.new [] Hplain)
    as (a & Hrec & _).
  { repeat split. }
  exists a. split; [exact Hrec|].
  destruct (recordResults_totalled rs AggregatedResults.new a Hrec)
    as ((Hr & Hp & Hs & Hle) & Hres).
  { repeat split; simpl; lia. }
  simpl in Hres. rewrite Hres in *. repeat split; assumption.
Qed.

(** ** Instances of the further properties *)

Lemma wf_postings_numbered : wf_postings ExampleIndex.numbered.
Proof.
  apply index_inv_wf.
  apply (addItems_run ExampleLexicon.abc Example.tokenizer).
  apply index_inv_new.
Qed.

Lemma hashToText_first_sight_witness :
  hashToText (execM (addItem ExampleIndex.repeated) Example.tokenizer) !! 5%N
  = Some (Some "a"%string)
  /\ hashToText (execM (addItem ExampleIndex.repeated) Example.tokenizer) !! 9%N
     = None.
Proof.
  split.
  - destruct (hashToText_first_sight ExampleIndex.repeated Example.tokenizer
                5%N) as (_ & H & _).
    apply (H 0%nat); [reflexivity | reflexivity |].
    intros j Hj. lia.
  - destruct (hashToText_first_sight ExampleIndex.repeated Example.tokenizer
                9%N) as (_ & _ & H).
    apply H; [reflexivity|].
    intros Hin. vm_compute in Hin.
    repeat (apply elem_of_cons in Hin as [Hin|Hin]; [discriminate|]).
    inversion Hin.
Defined.

Lemma decodeTerm_indexed_witness :
  evalM (decodeTerm 7%N)
    (execM (addItems [ExampleIndex.repeated]) Example.tokenizer)
  = Some (DecodedText (Some "b"%string))
  /\ evalM (decodeTerm 9%N)
       (execM (addItems [ExampleIndex.repeated]) Example.tokenizer)
     = Some (DecodedHash 9%N).
Proof.
  destruct (decodeTerm_indexed Example.tm (Some Example.np) false
              [ExampleIndex.repeated] 7%N) as (_ & H & _).
  destruct (decodeTerm_indexed Example.tm (Some Example.np) false
              [ExampleIndex.repeated] 9%N) as (_ & _ & H').
  split.
  - apply (H [] ExampleIndex.repeated [] 1%nat); [reflexivity | | reflexivity |].
    + intros a Ha. inversion Ha.
    + intros j Hj. assert (j = 0%nat) as -> by lia. discriminate.
  - apply H'. intros alias Ha Hin.
    apply list_elem_of_singleton in Ha as ->.
    repeat (apply elem_of_cons in Hin as [Hin|Hin]; [discriminate|]).
    inversion Hin.
Defined.

Lemma lattice_edges_of_position_witness :
  exists ls es aliasEdges numberEdges,
    evalM (generateGraph [2; 100]%N ["two"; "hundred"]%string)
      ExampleIndex.numbered
    = Some (DynamicGraph ls)
    /\ ls !! 0%nat = Some es
    /\ es ≡ₚ aliasEdges ++ numberEdges
    /\ offered (DynamicGraph ls) 0 ≡ₚ aliasEdges ++ numberEdges ++ [unknownEdge]
    /\ e_label <$> aliasEdges = [0; 1]
    /\ e_label <$> numberEdges = [2; 200].
Proof.
  destruct (lattice_edges_of_position ExampleIndex.numbered [2; 100]%N
              ["two"; "hundred"]%string wf_postings_numbered)
    as (ls & Hv & H).
  destruct (H 0%nat 2%N eq_refl)
    as (es & aliasEdges & numberEdges & Hes & Hperm & Hoff & Ha & _ & Hn & _).
  exists ls, es, aliasEdges, numberEdges.
  split; [exact Hv|]. split; [exact Hes|]. split; [exact Hperm|].
  split; [exact Hoff|]. split; [exact Ha | exact Hn].
Defined.


Lemma tokenFromEdge_of_lattice_witness :
  exists g,
    evalM (generateGraph [2; 100]%N ["two"; "hundred"]%string)
      ExampleIndex.numbered
    = Some g
    /\ evalM (tokenFromEdge unknownEdge)
         (execM (generateGraph [2; 100]%N ["two"; "hundred"]%string)
            ExampleIndex.numbered)
       = Some UnknownToken
    /\ forall e,
         e ∈ offered g 1 ->
         exists tok,
           evalM (tokenFromEdge e)
             (execM (generateGraph [2; 100]%N ["two"; "hundred"]%string)
                ExampleIndex.numbered)
           = Some tok.
Proof.
  destruct (tokenFromEdge_of_lattice ExampleIndex.numbered [2; 100]%N
              ["two"; "hundred"]%string wf_postings_numbered)
    as (g & Hv & H).
  exists g. split; [exact Hv|]. split; [reflexivity|].
  intros e He. destruct (H 1%nat e He) as (tok & Htok & _).
  exists tok. exact Htok.
Defined.

Lemma score_bounds_witness :
  exists r,
    evalM (score [1; 2; 3]%N [1; 2]%N isNeverDownstreamTerm
             ExampleLexicon.diff) Example.tokenizer
    = Some r
    /\ (s_score r = Num.ofZ (-1)
        \/ exists q,
             s_score r = Fin q
             /\ (Num.cent < q)%Qc
             /\ (q <= Q2Qc (inject_Z 2))%Qc).
Proof.
  apply (score_bounds [1; 2; 3]%N [1; 2]%N isNeverDownstreamTerm
           ExampleLexicon.diff Example.tokenizer).
  - discriminate.
  - simpl. lia.
  - simpl. lia.
  - simpl. lia.
  - vm_compute. lia.
Defined.

Lemma exact_match_score_witness :
  evalM (score [5; 7; 5; 9]%N [5; 7; 5]%N (fun _ => true)
           (exactDiff [5; 7; 5]%N)) Example.tokenizer
  = Some {| s_score := Num.ofZ (-1); s_length := 3 |}
  /\ evalM (score [5; 7; 5; 9]%N [5; 7; 5]%N isNeverDownstreamTerm
              (exactDiff [5; 7; 5]%N)) Example.tokenizer
     = Some {| s_score := Num.ofNat 2; s_length := 3 |}.
Proof.
  split.
  - destruct (exact_match_score [5; 7; 5; 9]%N [5; 7; 5]%N (fun _ => true)
                Example.tokenizer) as (H & _); [discriminate|].
    exact H.
  - destruct (exact_match_score [5; 7; 5; 9]%N [5; 7; 5]%N
                isNeverDownstreamTerm Example.tokenizer) as (H & _);
      [discriminate|].
    exact H.
Defined.

Lemma ingest_hands_aliases_witness :
  exists self',
    evalM (Lexicon.ingest ExampleLexicon.lexicon) Example.tokenizer = Some self'
    /\ aliases (execM (Lexicon.ingest ExampleLexicon.lexicon) Example.tokenizer)
       = concat (handedAliases <$> Lexicon.domains self')
    /\ index_inv (execM (Lexicon.ingest ExampleLexicon.lexicon)
                    Example.tokenizer).
Proof.
  destruct (ingest_hands_aliases ExampleLexicon.lexicon Example.tm
              (Some Example.np) false) as (self' & Hv & _ & Ha & Hinv & _).
  exists self'. split; [exact Hv|]. split; [exact Ha | exact Hinv].
Defined.

Lemma recordResult_tallies_witness :
  exists a,
    recordResults AggregatedResults.new ExampleSuite.results = Some a
    /\ AggregatedResults.passCount a = 2%nat
    /\ AggregatedResults.suites a !! "a"%string
       = Some (TestCounts.mkTestCounts 1 2)
    /\ AggregatedResults.suites a !! "c"%string = None
    /\ AggregatedResults.priorities a !! "1"%string
       = Some (TestCounts.mkTestCounts 1 2).
Proof.
  destruct (recordResult_tallies ExampleSuite.results eq_refl)
    as (a & Hrec & _ & Hpass & Hs & Hp).
  exists a. split; [exact Hrec|]. split; [exact Hpass|].
  split; [|split].
  - rewrite Hs. reflexivity.
  - rewrite Hs. reflexivity.
  - rewrite Hp. reflexivity.
Defined.

Lemma priorities_partition_results_witness :
  exists a,
    recordResults AggregatedResults.new ExampleSuite.results = Some a
    /\ totalRuns (AggregatedResults.priorities a) = 3%nat
    /\ totalPasses (AggregatedResults.priorities a)
       = AggregatedResults.passCount a
    /\ totalRuns (AggregatedResults.suites a) = 3%nat.
Proof.
  destruct (priorities_partition_results ExampleSuite.results eq_refl)
    as (a & Hrec & Hr & Hp & _ & Hs).
  exists a. split; [exact Hrec|].
  split; [exact Hr|]. split; [exact Hp | exact Hs].
Defined.

Lemma generateGraph_debugMode_witness :
  execM (generateGraph [2; 100]%N ["two"; "hundred"]%string)
    ExampleIndex.numbered
  = ExampleIndex.numbered.
Proof.
  apply (generateGraph_debugMode ExampleIndex.numbered [2; 100]%N
           ["two"; "hundred"]%string).
  reflexivity.
Defined.

Lemma ingested_alias_predicate_witness :
  exists self',
    evalM (Lexicon.ingest ExampleLexicon.lexicon) Example.tokenizer = Some self'
    /\ forall alias,
         alias ∈ aliases (execM (Lexicon.ingest ExampleLexicon.lexicon)
                            Example.tokenizer) ->
         exists i d,
           Lexicon.domains self' !! i = Some d
           /\ (isDownstreamTerm alias 2%N = true
               <-> isTokenHash (Domain.termModel d) 2%N = true
                   \/ isNumberHash (Domain.termModel d) 2%N = true
                   \/ 2%N ∈ ownHashedTerms
                              (Lexicon.numberParser ExampleLexicon.lexicon)
                   \/ exists j dj,
                        j ≠ i
                        /\ Lexicon.domains self' !! j = Some dj
                        /\ 2%N ∈ Domain.ownTerms dj).
Proof.
  destruct (ingested_alias_predicate ExampleLexicon.lexicon Example.tm
              (Some Example.np) false) as (self' & Hv & H).
  exists self'. split; [exact Hv|].
  intros alias Hin.
  destruct (H alias Hin) as (i & d & e & Hi & _ & _ & _ & Hiff).
  exists i, d. split; [exact Hi | exact (Hiff 2%N)].
Defined.
